(** * RouteSync: the graph path-finding engine

    A shallow embedding of the engine of RouteSync (the graph model, the
    binary-heap priority queue, [dijkstra], [aStar], [bellmanFord] and
    [generateCityGraph]) and the properties its design document states
    about them.

    Numbers are the IEEE 754 binary64 values of the source language, taken
    as Rocq's primitive floats.  A [Map] is an association list in insertion
    order (the order [forEach] walks it in).  Loops whose trip count the
    source does not bound take a [fuel] and answer [None] when it runs out. *)

From stdpp Require Import base option list strings.
From Stdlib Require Import Floats Lia.

Local Open Scope string_scope.
Local Open Scope list_scope.

(** ** Values of the source language *)

Module JS.

(** [m.get(k)!] used as a number: [undefined] becomes NaN in arithmetic
    and in comparisons. *)
Definition num (o : option float) : float :=
  match o with
  | Some v => v
  | None => nan
  end.

(** The numbers that count as false in [v || w]: both zeros and NaN. *)
Definition falsy (v : float) : bool :=
  PrimFloat.eqb v 0%float || negb (PrimFloat.eqb v v).

(** [m.get(k) || Infinity] *)
Definition or_infinity (o : option float) : float :=
  match o with
  | Some v => if falsy v then infinity else v
  | None => infinity
  end.

(** [m.get(k) || null] on a map of [string | null]: [undefined], [null]
    and the empty string all give [null]. *)
Definition or_null (o : option (option string)) : option string :=
  match o with
  | Some (Some s) => if String.eqb s "" then None else Some s
  | _ => None
  end.

(** [Math.pow(v, 2)], taken as the correctly rounded square: what engines
    answer, and exact on the coordinates of the city graph. *)
Definition pow2 (v : float) : float := PrimFloat.mul v v.

(** [a.includes(s)] on an array of strings *)
Definition includes (a : list string) (s : string) : bool :=
  existsb (String.eqb s) a.

End JS.

(** ** [Map<string, V>]: keys in insertion order *)

Module Map.

Definition t (V : Type) : Type := list (string * V).

Definition empty {V : Type} : t V := [].

Fixpoint get {V : Type} (m : t V) (k : string) : option V :=
  match m with
  | [] => None
  | (k', v) :: m' => if String.eqb k' k then Some v else get m' k
  end.

(** [m.set(k, v)]: an existing key keeps its place, a new one goes last. *)
Fixpoint set {V : Type} (m : t V) (k : string) (v : V) : t V :=
  match m with
  | [] => [(k, v)]
  | (k', v') :: m' =>
      if String.eqb k' k then (k', v) :: m' else (k', v') :: set m' k v
  end.

Definition has {V : Type} (m : t V) (k : string) : bool :=
  match get m k with
  | Some _ => true
  | None => false
  end.

Definition keys {V : Type} (m : t V) : list string := map fst m.

Definition size {V : Type} (m : t V) : nat := length m.

End Map.

(** ** The graph model *)

(** The fields of [Node] and [Edge] carry the name of their record in front:
    [edge_to e] is [e.to]. *)

Inductive NodeType : Type := normal | hospital | fire_station | police.

Record Node : Type := mkNode {
  node_id : string;
  node_x : float;
  node_y : float;
  node_label : string;
  node_type : NodeType
}.

Record Edge : Type := mkEdge {
  edge_from : string;
  edge_to : string;
  edge_weight : float;
  edge_traffic : float;
  edge_blocked : bool
}.

Record Graph : Type := mkGraph {
  nodes : Map.t Node;
  edges : Map.t (list Edge)
}.

(** ** [PriorityQueue<T>]: a binary min-heap in an array *)

Module PriorityQueue.
Section Heap.

Context {T : Type}.

Record item : Type := mkItem { priority : float; value : T }.

Definition heap : Type := list item.

(** [[heap[i], heap[j]] = [heap[j], heap[i]]] *)
Definition swap (h : heap) (i j : nat) : heap :=
  match h !! i, h !! j with
  | Some a, Some b => <[j := a]> (<[i := b]> h)
  | _, _ => h
  end.

(** [bubbleUp]: the index halves at every turn, so [index] turns are
    enough; the reads are in range because [index < heap.length]. *)
Fixpoint bubbleUp (fuel : nat) (h : heap) (index : nat) : heap :=
  match fuel with
  | O => h
  | S fuel' =>
      if (0 <? index)%nat then
        let parentIndex := ((index - 1) / 2)%nat in
        match h !! parentIndex, h !! index with
        | Some p, Some c =>
            if PrimFloat.leb (priority p) (priority c) then h
            else bubbleUp fuel' (swap h parentIndex index) parentIndex
        | _, _ => h
        end
      else h
  end.

(** [heap[i].priority < heap[j].priority], both in range *)
Definition priority_lt (h : heap) (i j : nat) : bool :=
  match h !! i, h !! j with
  | Some a, Some b => PrimFloat.ltb (priority a) (priority b)
  | _, _ => false
  end.

(** [bubbleDown]: the index grows at every turn, so [heap.length] turns
    are enough. *)
Fixpoint bubbleDown (fuel : nat) (h : heap) (index : nat) : heap :=
  match fuel with
  | O => h
  | S fuel' =>
      let len := length h in
      let leftChild := (2 * index + 1)%nat in
      let rightChild := (2 * index + 2)%nat in
      let smallest := index in
      let smallest :=
        if (leftChild <? len)%nat && priority_lt h leftChild smallest
        then leftChild else smallest in
      let smallest :=
        if (rightChild <? len)%nat && priority_lt h rightChild smallest
        then rightChild else smallest in
      if (smallest =? index)%nat then h
      else bubbleDown fuel' (swap h smallest index) smallest
  end.

Definition enqueue (h : heap) (v : T) (p : float) : heap :=
  let h' := h ++ [mkItem p v] in
  bubbleUp (length h' - 1) h' (length h' - 1).

(** [dequeue]: [None] is [undefined], the answer on an empty heap;
    otherwise the value at the root and the heap that is left. *)
Definition dequeue (h : heap) : option (T * heap) :=
  match h with
  | [] => None
  | min :: _ =>
      let last := List.last h min in
      let h' := removelast h in
      if (0 <? length h')%nat
      then Some (value min, bubbleDown (length h') (<[0%nat := last]> h') 0)
      else Some (value min, h')
  end.

Definition isEmpty (h : heap) : bool := (length h =? 0)%nat.

End Heap.
Arguments item : clear implicits.
Arguments heap : clear implicits.
End PriorityQueue.

Import PriorityQueue.

(** ** What the three searches share *)

(** The first loop of each search, [graph.nodes.forEach((_, id) => ...)]:
    [distances.set(id, id === startId ? 0 : Infinity)] *)
Definition init_distances (graph : Graph) (startId : string) : Map.t float :=
  fold_left
    (fun d '(id, _) =>
       Map.set d id (if String.eqb id startId then 0%float else infinity))
    (nodes graph) Map.empty.

(** and [previous.set(id, null)] *)
Definition init_previous (graph : Graph) : Map.t (option string) :=
  fold_left (fun p '(id, _) => Map.set p id None) (nodes graph) Map.empty.

(** The last loop of each search:
    [while (current !== null) { path.unshift(current);
       current = previous.get(current) || null; }]
    Nothing bounds its trip count: on a cycle of predecessors it never
    ends, and [None] stands for that. *)
Fixpoint reconstruct (fuel : nat) (previous : Map.t (option string))
    (current : option string) (path : list string) : option (list string) :=
  match current with
  | None => Some path
  | Some c =>
      match fuel with
      | O => None
      | S fuel' =>
          reconstruct fuel' previous (JS.or_null (Map.get previous c)) (c :: path)
      end
  end.

(** [path[0] === startId ? path : []] *)
Definition path_from (startId : string) (path : list string) : list string :=
  match path with
  | first :: _ => if String.eqb first startId then path else []
  | [] => []
  end.

(** The result of [dijkstra] and of [aStar]. *)
Record SearchResult : Type := mkSearchResult {
  path : list string;
  distance : float;
  visited : list string
}.

(** ** [dijkstra] *)

(** What a call works on: the caller's graph and the call's own maps. *)
Record DijkstraState : Type := mkDijkstraState {
  dj_graph : Graph;
  dj_distances : Map.t float;
  dj_previous : Map.t (option string);
  dj_visited : list string;
  dj_pq : heap string
}.

(** One turn of [for (const edge of edges)]. *)
Definition dijkstra_relax (isEmergency : bool) (current : string)
    (st : DijkstraState) (edge : Edge) : DijkstraState :=
  if edge_blocked edge && negb isEmergency then st
  else
    let neighbor := edge_to edge in
    let effectiveWeight := edge_weight edge in
    let effectiveWeight :=
      if negb isEmergency
      then (effectiveWeight * (1 + edge_traffic edge * 2))%float
      else effectiveWeight in
    let distance :=
      (JS.num (Map.get (dj_distances st) current) + effectiveWeight)%float in
    if PrimFloat.ltb distance (JS.num (Map.get (dj_distances st) neighbor))
    then
      mkDijkstraState (dj_graph st)
        (Map.set (dj_distances st) neighbor distance)
        (Map.set (dj_previous st) neighbor (Some current))
        (dj_visited st)
        (enqueue (dj_pq st) neighbor distance)
    else st.

(** [while (!pq.isEmpty()) { ... }] *)
Fixpoint dijkstra_loop (fuel : nat) (endId : string) (isEmergency : bool)
    (st : DijkstraState) : option DijkstraState :=
  match fuel with
  | O => None
  | S fuel' =>
      match dequeue (dj_pq st) with
      | None => Some st
      | Some (current, pq') =>
          if JS.includes (dj_visited st) current then
            dijkstra_loop fuel' endId isEmergency
              (mkDijkstraState (dj_graph st) (dj_distances st) (dj_previous st)
                 (dj_visited st) pq')
          else
            let st' :=
              mkDijkstraState (dj_graph st) (dj_distances st) (dj_previous st)
                (dj_visited st ++ [current]) pq' in
            if String.eqb current endId then Some st'
            else
              let edges := default [] (Map.get (edges (dj_graph st')) current) in
              dijkstra_loop fuel' endId isEmergency
                (fold_left (dijkstra_relax isEmergency current) edges st')
      end
  end.

Definition dijkstra_init (graph : Graph) (startId : string) : DijkstraState :=
  mkDijkstraState graph (init_distances graph startId) (init_previous graph)
    [] (enqueue [] startId 0%float).

(** [dijkstra(graph, startId, endId, isEmergency)]: the result and the graph
    as the call leaves it; [None] when [fuel] turns of a loop were not
    enough. *)
Definition dijkstra (fuel : nat) (graph : Graph) (startId endId : string)
    (isEmergency : bool) : option (SearchResult * Graph) :=
  st ← dijkstra_loop fuel endId isEmergency (dijkstra_init graph startId);
  path ← reconstruct fuel (dj_previous st) (Some endId) [];
  Some (mkSearchResult (path_from startId path)
          (JS.or_infinity (Map.get (dj_distances st) endId))
          (dj_visited st),
        dj_graph st).

(** ** [aStar] *)

(** The closure [heuristic], over [graph] and [endNode]. *)
Definition heuristic (graph : Graph) (endNode : Node) (nodeId : string) : float :=
  match Map.get (nodes graph) nodeId with
  | None => infinity
  | Some node =>
      PrimFloat.sqrt
        (JS.pow2 (node_x node - node_x endNode)
         + JS.pow2 (node_y node - node_y endNode))%float
  end.

Record AStarState : Type := mkAStarState {
  as_graph : Graph;
  as_gScore : Map.t float;
  as_fScore : Map.t float;
  as_previous : Map.t (option string);
  as_visited : list string;
  as_pq : heap string
}.

Definition aStar_relax (endNode : Node) (isEmergency : bool) (current : string)
    (st : AStarState) (edge : Edge) : AStarState :=
  if edge_blocked edge && negb isEmergency then st
  else
    let neighbor := edge_to edge in
    let effectiveWeight := edge_weight edge in
    let effectiveWeight :=
      if negb isEmergency
      then (effectiveWeight * (1 + edge_traffic edge * 2))%float
      else effectiveWeight in
    let tentativeGScore :=
      (JS.num (Map.get (as_gScore st) current) + effectiveWeight)%float in
    if PrimFloat.ltb tentativeGScore (JS.num (Map.get (as_gScore st) neighbor))
    then
      let previous := Map.set (as_previous st) neighbor (Some current) in
      let gScore := Map.set (as_gScore st) neighbor tentativeGScore in
      let fScore :=
        Map.set (as_fScore st) neighbor
          (tentativeGScore + heuristic (as_graph st) endNode neighbor)%float in
      mkAStarState (as_graph st) gScore fScore previous (as_visited st)
        (enqueue (as_pq st) neighbor (JS.num (Map.get fScore neighbor)))
    else st.

Fixpoint aStar_loop (fuel : nat) (endNode : Node) (endId : string)
    (isEmergency : bool) (st : AStarState) : option AStarState :=
  match fuel with
  | O => None
  | S fuel' =>
      match dequeue (as_pq st) with
      | None => Some st
      | Some (current, pq') =>
          if JS.includes (as_visited st) current then
            aStar_loop fuel' endNode endId isEmergency
              (mkAStarState (as_graph st) (as_gScore st) (as_fScore st)
                 (as_previous st) (as_visited st) pq')
          else
            let st' :=
              mkAStarState (as_graph st) (as_gScore st) (as_fScore st)
                (as_previous st) (as_visited st ++ [current]) pq' in
            if String.eqb current endId then Some st'
            else
              let edges := default [] (Map.get (edges (as_graph st')) current) in
              aStar_loop fuel' endNode endId isEmergency
                (fold_left (aStar_relax endNode isEmergency current) edges st')
      end
  end.

(** [fScore.set(id, id === startId ? heuristic(startId) : Infinity)] *)
Definition init_fScore (graph : Graph) (endNode : Node) (startId : string)
    : Map.t float :=
  fold_left
    (fun f '(id, _) =>
       Map.set f id
         (if String.eqb id startId then heuristic graph endNode startId
          else infinity))
    (nodes graph) Map.empty.

Definition aStar_init (graph : Graph) (endNode : Node) (startId : string)
    : AStarState :=
  let fScore := init_fScore graph endNode startId in
  mkAStarState graph (init_distances graph startId) fScore (init_previous graph)
    [] (enqueue [] startId (JS.num (Map.get fScore startId))).

Definition aStar (fuel : nat) (graph : Graph) (startId endId : string)
    (isEmergency : bool) : option (SearchResult * Graph) :=
  match Map.get (nodes graph) startId, Map.get (nodes graph) endId with
  | Some startNode, Some endNode =>
      st ← aStar_loop fuel endNode endId isEmergency
             (aStar_init graph endNode startId);
      path ← reconstruct fuel (as_previous st) (Some endId) [];
      Some (mkSearchResult (path_from startId path)
              (JS.or_infinity (Map.get (as_gScore st) endId))
              (as_visited st),
            as_graph st)
  | _, _ => Some (mkSearchResult [] infinity [], graph)
  end.

(** ** [bellmanFord] *)

(** An element of [allEdges]. *)
Record FlatEdge : Type := mkFlatEdge {
  fe_from : string;
  fe_to : string;
  fe_weight : float
}.

(** What one entry of [graph.edges] adds to [allEdges]. *)
Definition flat_edge (isEmergency : bool) (from : string) (edge : Edge)
    : list FlatEdge :=
  if negb (edge_blocked edge) || isEmergency then
    let effectiveWeight := edge_weight edge in
    let effectiveWeight :=
      if negb isEmergency
      then (effectiveWeight * (1 + edge_traffic edge * 2))%float
      else effectiveWeight in
    [mkFlatEdge from (edge_to edge) effectiveWeight]
  else [].

(** [graph.edges.forEach((edges, from) => edges.forEach(edge => ...))] *)
Definition allEdges (graph : Graph) (isEmergency : bool) : list FlatEdge :=
  flat_map (fun '(from, es) => flat_map (flat_edge isEmergency from) es)
    (edges graph).

Record BellmanFordState : Type := mkBellmanFordState {
  bf_graph : Graph;
  bf_distances : Map.t float;
  bf_previous : Map.t (option string)
}.

(** One turn of the inner [for (const edge of allEdges)]. *)
Definition bellmanFord_relax (st : BellmanFordState) (edge : FlatEdge)
    : BellmanFordState :=
  let newDist :=
    (JS.num (Map.get (bf_distances st) (fe_from edge)) + fe_weight edge)%float in
  if PrimFloat.ltb newDist (JS.num (Map.get (bf_distances st) (fe_to edge)))
  then
    mkBellmanFordState (bf_graph st)
      (Map.set (bf_distances st) (fe_to edge) newDist)
      (Map.set (bf_previous st) (fe_to edge) (Some (fe_from edge)))
  else st.

Definition bellmanFord_pass (flat : list FlatEdge) (st : BellmanFordState)
    : BellmanFordState :=
  fold_left bellmanFord_relax flat st.

(** [for (let i = 0; i < nodeCount - 1; i++)]: no turn when the graph has
    no node. *)
Definition bellmanFord_passes (flat : list FlatEdge) (st : BellmanFordState)
    : BellmanFordState :=
  Nat.iter (Map.size (nodes (bf_graph st)) - 1) (bellmanFord_pass flat) st.

(** The test of the last loop over [allEdges]. *)
Definition still_relaxes (distances : Map.t float) (edge : FlatEdge) : bool :=
  PrimFloat.ltb
    (JS.num (Map.get distances (fe_from edge)) + fe_weight edge)%float
    (JS.num (Map.get distances (fe_to edge))).

Record BellmanFordResult : Type := mkBellmanFordResult {
  bf_path : list string;
  bf_distance : float;
  hasNegativeCycle : bool
}.

Definition bellmanFord_init (graph : Graph) (startId : string)
    : BellmanFordState :=
  mkBellmanFordState graph (init_distances graph startId) (init_previous graph).

Definition bellmanFord (fuel : nat) (graph : Graph) (startId endId : string)
    (isEmergency : bool) : option (BellmanFordResult * Graph) :=
  let st := bellmanFord_init graph startId in
  let flat := allEdges (bf_graph st) isEmergency in
  let st := bellmanFord_passes flat st in
  let hasNegativeCycle := existsb (still_relaxes (bf_distances st)) flat in
  path ← reconstruct fuel (bf_previous st) (Some endId) [];
  Some (mkBellmanFordResult (path_from startId path)
          (JS.or_infinity (Map.get (bf_distances st) endId))
          hasNegativeCycle,
        bf_graph st).

(** ** [generateCityGraph] *)

Definition nodeData : list Node :=
  [ mkNode "A" 100 80 "Downtown" normal;
    mkNode "B" 250 60 "Market St" normal;
    mkNode "C" 400 80 "Tech Park" normal;
    mkNode "D" 550 60 "Airport Rd" normal;
    mkNode "E" 80 180 "Hospital" hospital;
    mkNode "F" 220 160 "City Hall" normal;
    mkNode "G" 380 180 "University" normal;
    mkNode "H" 540 160 "Mall" normal;
    mkNode "I" 100 280 "Fire Station" fire_station;
    mkNode "J" 250 260 "Stadium" normal;
    mkNode "K" 400 280 "Police HQ" police;
    mkNode "L" 550 260 "Industrial" normal;
    mkNode "M" 80 380 "Suburbs W" normal;
    mkNode "N" 220 360 "Park" normal;
    mkNode "O" 380 380 "Station" normal;
    mkNode "P" 540 360 "Suburbs E" normal ].

Definition edgeData : list (string * string * float) :=
  [ ("A", "B", 15%float); ("B", "C", 18%float); ("C", "D", 20%float);
    ("E", "F", 14%float); ("F", "G", 16%float); ("G", "H", 18%float);
    ("I", "J", 15%float); ("J", "K", 17%float); ("K", "L", 19%float);
    ("M", "N", 14%float); ("N", "O", 16%float); ("O", "P", 18%float);
    ("A", "E", 12%float); ("B", "F", 11%float); ("C", "G", 13%float);
    ("D", "H", 12%float);
    ("E", "I", 11%float); ("F", "J", 12%float); ("G", "K", 13%float);
    ("H", "L", 11%float);
    ("I", "M", 12%float); ("J", "N", 11%float); ("K", "O", 13%float);
    ("L", "P", 12%float);
    ("A", "F", 18%float); ("B", "G", 19%float); ("C", "H", 20%float);
    ("E", "J", 17%float); ("F", "K", 18%float); ("G", "L", 19%float);
    ("I", "N", 16%float); ("J", "O", 17%float); ("K", "P", 18%float) ].

(** [if (!edges.has(k)) edges.set(k, []); edges.get(k)!.push(e)] *)
Definition push_edge (es : Map.t (list Edge)) (k : string) (e : Edge)
    : Map.t (list Edge) :=
  let es := if Map.has es k then es else Map.set es k [] in
  Map.set es k (default [] (Map.get es k) ++ [e]).

(** [generateCityGraph()]: [random n] is what the [n]-th call of
    [Math.random()] answers, a number in [0, 1). *)
Definition generateCityGraph (random : nat -> float) : Graph :=
  let nodes :=
    fold_left (fun m node => Map.set m (node_id node) node) nodeData Map.empty in
  let edges :=
    fst (fold_left
      (fun '(es, n) '(from, to, weight) =>
         let es :=
           push_edge es from
             (mkEdge from to weight (random n * 0.5)%float false) in
         let es :=
           push_edge es to
             (mkEdge to from weight (random (S n) * 0.5)%float false) in
         (es, S (S n)))
      edgeData (Map.empty, O)) in
  mkGraph nodes edges.

(** [getEdgeKey(from, to)] *)
Definition getEdgeKey (from to : string) : string := from +:+ "-" +:+ to.

(** * The words of the design document *)

(** The cost rule as the design document words it: in emergency mode the
    weight unchanged, blocked or not; otherwise a blocked edge is not
    traversable ([None]) and an open one costs
    [weight * (1 + traffic * 2)]. *)
Definition effective_weight (edge : Edge) (emergency : bool) : option float :=
  if emergency then Some (edge_weight edge)
  else if edge_blocked edge then None
  else Some (edge_weight edge * (1 + edge_traffic edge * 2))%float.

(** An edge with [blocked = false] and [traffic = 0] set. *)
Definition clear_edge (e : Edge) : Edge :=
  mkEdge (edge_from e) (edge_to e) (edge_weight e) 0%float false.

(** The graph with every edge cleared. *)
Definition clear_graph (g : Graph) : Graph :=
  mkGraph (nodes g) (map (fun '(k, es) => (k, map clear_edge es)) (edges g)).

(** * Invariants and measures *)

(** What holds of the trace and the queue of a search from [startId]
    through all of its main loop: no id is in the trace twice, and the
    trace starts at [startId]; before the first turn the queue holds
    [startId] and nothing else. *)
Definition trace_ok (startId : string) (visited : list string)
    (pq : heap string) : Prop :=
  NoDup visited ∧
  match visited with
  | [] => ∃ p, pq = [mkItem p startId]
  | first :: _ => first = startId
  end.

(** The ids a search from [startId] can meet: the keys of the node map,
    and [startId] itself. *)
Definition known (graph : Graph) (startId : string) (k : string) : Prop :=
  k ∈ Map.keys (nodes graph) ∨ k = startId.

(** What every turn of the main loop of [dijkstra] and of [aStar] keeps:
    the maps have no key outside the node map, and the predecessors, the
    trace and the queue hold known ids only, the trace without repeats. *)
Record search_inv (graph : Graph) (startId : string)
    (dist : Map.t float) (prev : Map.t (option string))
    (trace : list string) (pq : heap string) : Prop := mkSearchInv {
  inv_dist : ∀ k, k ∈ Map.keys dist → k ∈ Map.keys (nodes graph);
  inv_prev : ∀ k, k ∈ Map.keys prev → k ∈ Map.keys (nodes graph);
  inv_prev_val : ∀ k p, Map.get prev k = Some (Some p) → known graph startId p;
  inv_trace : ∀ v, v ∈ trace → known graph startId v;
  inv_nodup : NoDup trace;
  inv_pq : ∀ v, v ∈ map value pq → known graph startId v
}.

(** [search_inv] on the state of [dijkstra], whose graph is still [graph]. *)
Definition dj_inv (graph : Graph) (startId : string) (st : DijkstraState)
    : Prop :=
  dj_graph st = graph ∧
  search_inv graph startId (dj_distances st) (dj_previous st)
    (dj_visited st) (dj_pq st).

(** [search_inv] on the state of [aStar], with [gScore] for the distances. *)
Definition as_inv (graph : Graph) (startId : string) (st : AStarState)
    : Prop :=
  as_graph st = graph ∧
  search_inv graph startId (as_gScore st) (as_previous st)
    (as_visited st) (as_pq st).

(** The maps of [bellmanFord] have no key outside the node map, and every
    predecessor has an entry of its own. *)
Record bf_inv (graph : Graph) (st : BellmanFordState) : Prop := mkBfInv {
  bf_inv_graph : bf_graph st = graph;
  bf_inv_dist : ∀ k, k ∈ Map.keys (bf_distances st) →
                     k ∈ Map.keys (nodes graph);
  bf_inv_prev : ∀ k, k ∈ Map.keys (bf_previous st) →
                     k ∈ Map.keys (nodes graph);
  bf_inv_prev_val : ∀ k p, Map.get (bf_previous st) k = Some (Some p) →
                           p ∈ Map.keys (nodes graph)
}.

(** The number of edges that leave [v]. *)
Definition out_degree (graph : Graph) (v : string) : nat :=
  length (default [] (Map.get (edges graph) v)).

(** The turns a search still owes for the ids of [l]: one to visit each and
    one for every entry its edges may put in the queue. *)
Definition visit_cost (graph : Graph) (l : list string) : nat :=
  sum_list_with (fun v => S (out_degree graph v)) l.

(** Turns that are enough for the main loop of [dijkstra] and of [aStar]. *)
Definition search_fuel (graph : Graph) (startId : string) : nat :=
  2 + visit_cost graph (startId :: Map.keys (nodes graph)).

(** A state of each search, moved from a graph to its cleared graph. *)
Definition dj_clear (st : DijkstraState) : DijkstraState :=
  mkDijkstraState (clear_graph (dj_graph st)) (dj_distances st)
    (dj_previous st) (dj_visited st) (dj_pq st).

Definition as_clear (st : AStarState) : AStarState :=
  mkAStarState (clear_graph (as_graph st)) (as_gScore st) (as_fScore st)
    (as_previous st) (as_visited st) (as_pq st).

Definition bf_clear (st : BellmanFordState) : BellmanFordState :=
  mkBellmanFordState (clear_graph (bf_graph st)) (bf_distances st)
    (bf_previous st).

(** Where every distance is infinite, [bellmanFord] relaxes nothing. *)
Definition all_infinite (dist : Map.t float) : Prop :=
  ∀ k v, Map.get dist k = Some v → v = infinity.

(** * Sample graphs *)

(** The scenario of the design document: A, B and D on a line, roads A-B
    and B-D of weight 10 and a direct road A-D of weight 30, each road two
    directed edges. *)
Definition line_graph : Graph :=
  mkGraph
    [ ("A", mkNode "A" 0 0 "A" normal);
      ("B", mkNode "B" 10 0 "B" normal);
      ("D", mkNode "D" 20 0 "D" normal) ]
    [ ("A", [mkEdge "A" "B" 10 0 false; mkEdge "A" "D" 30 0 false]);
      ("B", [mkEdge "B" "A" 10 0 false; mkEdge "B" "D" 10 0 false]);
      ("D", [mkEdge "D" "B" 10 0 false; mkEdge "D" "A" 30 0 false]) ].

(** The same after the road A-B is toggled to blocked, both ways. *)
Definition line_graph_blocked : Graph :=
  mkGraph
    [ ("A", mkNode "A" 0 0 "A" normal);
      ("B", mkNode "B" 10 0 "B" normal);
      ("D", mkNode "D" 20 0 "D" normal) ]
    [ ("A", [mkEdge "A" "B" 10 0 true; mkEdge "A" "D" 30 0 false]);
      ("B", [mkEdge "B" "A" 10 0 true; mkEdge "B" "D" 10 0 false]);
      ("D", [mkEdge "D" "B" 10 0 false; mkEdge "D" "A" 30 0 false]) ].

(** The same with every edge blocked and under traffic. *)
Definition line_graph_closed : Graph :=
  mkGraph
    [ ("A", mkNode "A" 0 0 "A" normal);
      ("B", mkNode "B" 10 0 "B" normal);
      ("D", mkNode "D" 20 0 "D" normal) ]
    [ ("A", [mkEdge "A" "B" 10 0.5 true; mkEdge "A" "D" 30 0.25 true]);
      ("B", [mkEdge "B" "A" 10 0.5 true; mkEdge "B" "D" 10 1 true]);
      ("D", [mkEdge "D" "B" 10 1 true; mkEdge "D" "A" 30 0.25 true]) ].

(** Two nodes, a road between them, and an edge from A to ["Z"], which is
    no node. *)
Definition dangling_graph : Graph :=
  mkGraph
    [ ("A", mkNode "A" 0 0 "A" normal); ("B", mkNode "B" 10 0 "B" normal) ]
    [ ("A", [mkEdge "A" "Z" 1 0 false; mkEdge "A" "B" 5 0 false]) ].

(** Two nodes and a road of weight 0 from the first to the second. *)
Definition free_road_graph : Graph :=
  mkGraph
    [ ("A", mkNode "A" 0 0 "A" normal); ("B", mkNode "B" 10 0 "B" normal) ]
    [ ("A", [mkEdge "A" "B" 0 0 false]) ].

(** The city graph when every call of [Math.random()] answers 0.5: every
    edge has traffic 0.25. *)
Definition city_graph : Graph := generateCityGraph (fun _ => 0.5%float).

(** The city graph when the calls of [Math.random()] answer 0.125, 0.75,
    0.5, 0.875 in turn, over and over. *)
Definition city_graph_mixed : Graph :=
  generateCityGraph
    (fun n => nth (n mod 4) [0.125; 0.75; 0.5; 0.875]%float 0%float).

(** An edge with [blocked = true] set. *)
Definition block_edge (e : Edge) : Edge :=
  mkEdge (edge_from e) (edge_to e) (edge_weight e) (edge_traffic e) true.

(** The city graph (traffic 0.25 on every edge) with every edge blocked. *)
Definition city_graph_closed : Graph :=
  mkGraph (nodes city_graph)
    (map (fun '(k, es) => (k, map block_edge es)) (edges city_graph)).

(** The pairs of nodes between which [aStar] returns a greater distance than
    [dijkstra]. *)
Definition aStar_longer (graph : Graph) (s d : string) : bool :=
  match dijkstra 100 graph s d false, aStar 100 graph s d false with
  | Some (r1, _), Some (r2, _) => PrimFloat.ltb (distance r1) (distance r2)
  | _, _ => false
  end.

Definition aStar_longer_pairs (graph : Graph) : list (string * string) :=
  let ids := Map.keys (nodes graph) in
  flat_map
    (fun s => flat_map (fun d => if aStar_longer graph s d then [(s, d)] else [])
                ids)
    ids.

(** Three nodes on a cycle of edges of weight -5. *)
Definition negative_cycle_graph : Graph :=
  mkGraph
    [ ("A", mkNode "A" 0 0 "A" normal);
      ("B", mkNode "B" 10 0 "B" normal);
      ("C", mkNode "C" 10 10 "C" normal) ]
    [ ("A", [mkEdge "A" "B" (-5) 0 false]);
      ("B", [mkEdge "B" "C" (-5) 0 false]);
      ("C", [mkEdge "C" "A" (-5) 0 false]) ].

(** The predecessors the two passes of [bellmanFord] leave on it. *)
Definition negative_cycle_previous : Map.t (option string) :=
  [("A", Some "C"); ("B", Some "A"); ("C", Some "B")].

(** * The order of the heap *)

(** A number that is not NaN: the only number that [v === v] is false
    of. *)
Definition is_num (v : float) : bool := PrimFloat.eqb v v.

(** The numbers other than NaN in their order, as triples of integers in
    the lexicographic order: the sign class, then the exponent, then the
    mantissa (both negated below zero). *)
Definition sf_key (x : spec_float) : option (Z * Z * Z) :=
  match x with
  | S754_nan => None
  | S754_zero _ => Some (0, 0, 0)%Z
  | S754_infinity s => Some (if s then -2 else 2, 0, 0)%Z
  | S754_finite s m e =>
      Some (if s then (-1, - e, Z.neg m) else (1, e, Z.pos m))%Z
  end.

Definition fkey (v : float) : option (Z * Z * Z) := sf_key (Prim2SF v).

Definition key_le (a b : Z * Z * Z) : Prop :=
  let '(a1, a2, a3) := a in
  let '(b1, b2, b3) := b in
  (a1 < b1 ∨ (a1 = b1 ∧ (a2 < b2 ∨ (a2 = b2 ∧ a3 ≤ b3))))%Z.

Definition key_lt (a b : Z * Z * Z) : Prop :=
  let '(a1, a2, a3) := a in
  let '(b1, b2, b3) := b in
  (a1 < b1 ∨ (a1 = b1 ∧ (a2 < b2 ∨ (a2 = b2 ∧ a3 < b3))))%Z.

Section HeapOrder.

Context {T : Type}.
Implicit Types (h : heap T) (a b p c g x : item T) (i j k : nat).

(** [Math.floor((index - 1) / 2)] *)
Definition parent (i : nat) : nat := ((i - 1) / 2)%nat.

(** [a.priority <= b.priority] *)
Definition item_le a b : Prop :=
  PrimFloat.leb (priority a) (priority b) = true.

(** No priority is NaN. *)
Definition all_num h : Prop :=
  Forall (fun it => is_num (priority it) = true) h.

(** The heap order of the array: no item is below its parent. *)
Definition heap_ordered h : Prop :=
  ∀ i p c, (0 < i)%nat →
    h !! parent i = Some p → h !! i = Some c → item_le p c.

Definition heap_ok h : Prop := all_num h ∧ heap_ordered h.

(** The parent of [j] is not above the children of [j]. *)
Definition grand_ok h (j : nat) : Prop :=
  ∀ k g x, (0 < j)%nat → (0 < k)%nat → parent k = j →
    h !! parent j = Some g → h !! k = Some x → item_le g x.

(** What [bubbleUp] keeps while the item at [j] moves up: the order holds
    but between [j] and its parent. *)
Definition up_ok h (j : nat) : Prop :=
  (∀ i p c, (0 < i)%nat → i ≠ j →
     h !! parent i = Some p → h !! i = Some c → item_le p c)
  ∧ grand_ok h j.

(** What [bubbleDown] keeps while the item at [j] moves down: the order
    holds but between [j] and its children. *)
Definition down_ok h (j : nat) : Prop :=
  (∀ i p c, (0 < i)%nat → parent i ≠ j →
     h !! parent i = Some p → h !! i = Some c → item_le p c)
  ∧ grand_ok h j.

(** The value of [smallest] at the end of a turn of [bubbleDown]. *)
Definition smallest_of h (index : nat) : nat :=
  let len := length h in
  let leftChild := (2 * index + 1)%nat in
  let rightChild := (2 * index + 2)%nat in
  let smallest := index in
  let smallest :=
    if (leftChild <? len)%nat && priority_lt h leftChild smallest
    then leftChild else smallest in
  if (rightChild <? len)%nat && priority_lt h rightChild smallest
  then rightChild else smallest.

End HeapOrder.

(** A queue after three calls of [enqueue]. *)
Definition sample_heap : heap string :=
  enqueue (enqueue (enqueue [] "A" 3%float) "B" 1%float) "C" 2%float.

(** * Routes *)

(** The edges a search follows: [dijkstra] and [aStar] pass over an edge
    when [edge.blocked && !isEmergency], and [bellmanFord] takes the edges
    with [!edge.blocked || isEmergency]. *)
Definition traversable (isEmergency : bool) (edge : Edge) : bool :=
  negb (edge_blocked edge) || isEmergency.

(** A list that [graph.edges] holds for [a] has a traversable edge to
    [b]. *)
Definition road (graph : Graph) (isEmergency : bool) (a b : string) : bool :=
  existsb
    (fun '(from, es) =>
       String.eqb from a
       && existsb
            (fun e => traversable isEmergency e && String.eqb (edge_to e) b)
            es)
    (edges graph).

(** Every id of the list but the last has a road to the next one. *)
Fixpoint is_walk (graph : Graph) (isEmergency : bool) (p : list string)
    : bool :=
  match p with
  | a :: ((b :: _) as rest) =>
      road graph isEmergency a b && is_walk graph isEmergency rest
  | _ => true
  end.

(** Some walk leads from [s] to [t]. *)
Definition reach (graph : Graph) (isEmergency : bool) (s t : string) : Prop :=
  ∃ p, head p = Some s ∧ last p = Some t ∧ is_walk graph isEmergency p = true.

(** Every id of the list but the first has the one before it as its
    predecessor. *)
Fixpoint linked (previous : Map.t (option string)) (p : list string) : Prop :=
  match p with
  | a :: ((b :: _) as rest) =>
      Map.get previous b = Some (Some a) ∧ linked previous rest
  | _ => True
  end.

(** What every turn of the main loop of [dijkstra] and of [aStar] keeps,
    besides [search_inv]: the trace and the queue hold ids that a walk
    from [startId] leads to; a predecessor is in the trace and has a road
    to the id it is the predecessor of, and that id is in the queue or in
    the trace, as [startId] is; an id without a predecessor has the
    distance it started with. *)
Record route_inv (graph : Graph) (startId : string) (isEmergency : bool)
    (dist : Map.t float) (prev : Map.t (option string))
    (trace : list string) (pq : heap string) : Prop := mkRouteInv {
  rt_trace : ∀ v, v ∈ trace → reach graph isEmergency startId v;
  rt_pq : ∀ v, v ∈ map value pq → reach graph isEmergency startId v;
  rt_prev : ∀ v u, Map.get prev v = Some (Some u) →
                   u ∈ trace ∧ road graph isEmergency u v = true;
  rt_seen : ∀ v u, Map.get prev v = Some (Some u) →
                   v ∈ map value pq ∨ v ∈ trace;
  rt_start : startId ∈ map value pq ∨ startId ∈ trace;
  rt_dist : ∀ v, (∀ u, Map.get prev v ≠ Some (Some u)) →
                 Map.get dist v = Map.get (init_distances graph startId) v
}.

Definition dj_route (graph : Graph) (startId : string) (isEmergency : bool)
    (st : DijkstraState) : Prop :=
  dj_graph st = graph ∧
  route_inv graph startId isEmergency (dj_distances st) (dj_previous st)
    (dj_visited st) (dj_pq st).

Definition as_route (graph : Graph) (startId : string) (isEmergency : bool)
    (st : AStarState) : Prop :=
  as_graph st = graph ∧
  route_inv graph startId isEmergency (as_gScore st) (as_previous st)
    (as_visited st) (as_pq st).

(** What every relaxation of [bellmanFord] keeps: a predecessor is an id
    that a walk from [startId] leads to, and has a road to the id it is
    the predecessor of; an id without a predecessor has the distance it
    started with. *)
Record bf_route (graph : Graph) (startId : string) (isEmergency : bool)
    (st : BellmanFordState) : Prop := mkBfRoute {
  bfr_graph : bf_graph st = graph;
  bfr_prev : ∀ v u, Map.get (bf_previous st) v = Some (Some u) →
                    reach graph isEmergency startId u
                    ∧ road graph isEmergency u v = true;
  bfr_dist : ∀ v, (∀ u, Map.get (bf_previous st) v ≠ Some (Some u)) →
                  Map.get (bf_distances st) v
                  = Map.get (init_distances graph startId) v
}.

(** * Blocked edges *)

(** The graph without its blocked edges. *)
Definition open_graph (g : Graph) : Graph :=
  mkGraph (nodes g)
    (map (fun '(k, es) => (k, List.filter (fun e => negb (edge_blocked e)) es))
       (edges g)).

(** A state of each search, moved from a graph to the graph without its
    blocked edges. *)
Definition dj_open (st : DijkstraState) : DijkstraState :=
  mkDijkstraState (open_graph (dj_graph st)) (dj_distances st)
    (dj_previous st) (dj_visited st) (dj_pq st).

Definition as_open (st : AStarState) : AStarState :=
  mkAStarState (open_graph (as_graph st)) (as_gScore st) (as_fScore st)
    (as_previous st) (as_visited st) (as_pq st).

Definition bf_open (st : BellmanFordState) : BellmanFordState :=
  mkBellmanFordState (open_graph (bf_graph st)) (bf_distances st)
    (bf_previous st).

(** * Dangling edges *)

(** The graph without its dangling edges, the edges whose [to] id is no
    key of the node map. *)
Definition prune_graph (g : Graph) : Graph :=
  mkGraph (nodes g)
    (map (fun '(k, es) =>
            (k, List.filter (fun e => Map.has (nodes g) (edge_to e)) es))
       (edges g)).

(** A state of each search, moved from a graph to the graph without its
    dangling edges. *)
Definition dj_prune (st : DijkstraState) : DijkstraState :=
  mkDijkstraState (prune_graph (dj_graph st)) (dj_distances st)
    (dj_previous st) (dj_visited st) (dj_pq st).

Definition as_prune (st : AStarState) : AStarState :=
  mkAStarState (prune_graph (as_graph st)) (as_gScore st) (as_fScore st)
    (as_previous st) (as_visited st) (as_pq st).

Definition bf_prune (st : BellmanFordState) : BellmanFordState :=
  mkBellmanFordState (prune_graph (bf_graph st)) (bf_distances st)
    (bf_previous st).

(** * Road maps that are well formed *)

(** An edge of the list under [k]: it is from [k] to a node of the graph
    other than [k], is not blocked, has a weight above zero, and the list
    under the node it leads to has an edge back to [k] of the same
    weight. *)
Definition edge_ok (g : Graph) (k : string) (e : Edge) : bool :=
  String.eqb (edge_from e) k
  && negb (String.eqb (edge_to e) k)
  && Map.has (nodes g) (edge_to e)
  && negb (edge_blocked e)
  && PrimFloat.ltb 0 (edge_weight e)
  && existsb
       (fun e' =>
          String.eqb (edge_to e') k
          && PrimFloat.Leibniz.eqb (edge_weight e') (edge_weight e))
       (default [] (Map.get (edges g) (edge_to e))).

(** Every node is under its own id, and every list of edges is under the
    id of a node and holds edges that are [edge_ok]. *)
Definition graph_ok (g : Graph) : bool :=
  forallb (fun '(k, node) => String.eqb (node_id node) k) (nodes g)
  && forallb
       (fun '(k, es) => Map.has (nodes g) k && forallb (edge_ok g k) es)
       (edges g).

(** A walk of at most [n] roads leads from [s] to [t]. *)
Fixpoint reach_within (n : nat) (g : Graph) (isEmergency : bool)
    (s t : string) : bool :=
  if String.eqb s t then true
  else
    match n with
    | O => false
    | S n' =>
        existsb
          (fun '(k, es) =>
             if String.eqb k s then
               existsb
                 (fun e =>
                    if traversable isEmergency e
                    then reach_within n' g isEmergency (edge_to e) t
                    else false)
                 es
             else false)
          (edges g)
    end.

(** * Edge keys *)

(** The character [-], code 45. *)
Definition dash : Ascii.ascii :=
  Ascii.Ascii true false true true false true false false.

(** The string holds the character [-]. *)
Fixpoint has_dash (s : string) : bool :=
  match s with
  | EmptyString => false
  | String c s' => Ascii.eqb c dash || has_dash s'
  end.

(** * The turns of a call *)

(** Turns that are enough for a call of [dijkstra] or of [aStar] that
    returns: those of the main loop, and one for each id of the path. *)
Definition call_fuel (graph : Graph) (startId : string) : nat :=
  search_fuel graph startId + Map.size (nodes graph).

(** * The page

    The callbacks of the page [Index] that decide what the searches are
    asked and that change the graph.  A callback is taken with the state
    it reads as an argument and the state it sets as its result; logs and
    toasts are left out. *)

(** [!s] on a [string | null]: [null] and the empty string. *)
Definition unset (s : option string) : bool :=
  match s with
  | Some s => String.eqb s ""
  | None => true
  end.

(** The state [handleNodeClick] reads and sets. *)
Record Selection : Type := mkSelection {
  selectedStart : option string;
  selectedEnd : option string;
  shownPath : list string;
  visitedNodes : list string;
  pathDistance : float
}.

(** The first render: [useState(null)], [useState([])] and
    [useState(Infinity)]. *)
Definition initial_selection : Selection :=
  mkSelection None None [] [] infinity.

(** [handleNodeClick(nodeId)] *)
Definition handleNodeClick (sel : Selection) (nodeId : string) : Selection :=
  if unset (selectedStart sel) then
    mkSelection (Some nodeId) (selectedEnd sel) (shownPath sel)
      (visitedNodes sel) (pathDistance sel)
  else if unset (selectedEnd sel)
          && negb (bool_decide (Some nodeId = selectedStart sel)) then
    mkSelection (selectedStart sel) (Some nodeId) (shownPath sel)
      (visitedNodes sel) (pathDistance sel)
  else mkSelection (Some nodeId) None [] [] infinity.

Inductive Algorithm : Type := alg_dijkstra | alg_astar | alg_bellmanford.

(** What [handleFindPath] comes to: nothing when a selection is missing,
    the report of a negative cycle, the report that no path was found, or
    the result it hands to [setPathDistance] and [animatePath]. *)
Inductive FindPath : Type :=
  | find_nothing
  | find_negative_cycle
  | find_no_path
  | find_path (result : SearchResult).

(** [if (result.path.length === 0) { ... return; }] and what follows *)
Definition show_result (result : SearchResult) : FindPath :=
  match path result with
  | [] => find_no_path
  | _ => find_path result
  end.

(** [handleFindPath()]; [None] when the search does not return. *)
Definition handleFindPath (fuel : nat) (graph : Graph)
    (algorithm : Algorithm) (sel : Selection) : option FindPath :=
  match selectedStart sel, selectedEnd sel with
  | Some startId, Some endId =>
      if unset (Some startId) || unset (Some endId) then Some find_nothing
      else
        match algorithm with
        | alg_astar =>
            r ← aStar fuel graph startId endId false;
            Some (show_result (fst r))
        | alg_bellmanford =>
            r ← bellmanFord fuel graph startId endId false;
            if hasNegativeCycle (fst r) then Some find_negative_cycle
            else
              Some (show_result
                      (mkSearchResult (bf_path (fst r)) (bf_distance (fst r))
                         []))
        | alg_dijkstra =>
            r ← dijkstra fuel graph startId endId false;
            Some (show_result (fst r))
        end
  | _, _ => Some find_nothing
  end.

(** ** The graph of the page

    The callbacks that change the graph write to the edge objects that the
    lists of the graph hold, so the edges of a page are kept in a store,
    an edge object at each address, and the lists hold addresses. *)

Abbreviation Store := (list Edge).

Record RefGraph : Type := mkRefGraph {
  ref_nodes : Map.t Node;
  ref_edges : Map.t (list nat)
}.

(** The edges at the addresses of a list. *)
Definition deref (store : Store) (refs : list nat) : list Edge :=
  omap (fun r => store !! r) refs.

(** The graph a search is given. *)
Definition graph_of (store : Store) (g : RefGraph) : Graph :=
  mkGraph (ref_nodes g)
    (map (fun '(k, refs) => (k, deref store refs)) (ref_edges g)).

(** The graph of a page. *)
Definition page_graph (state : Store * RefGraph) : Graph :=
  graph_of (fst state) (snd state).

(** The store and the lists of addresses of a graph whose edge objects are
    all different, as [generateCityGraph] makes them: the edges of the
    lists one after the other. *)
Fixpoint alloc_edges (next : nat) (es : Map.t (list Edge))
    : Map.t (list nat) :=
  match es with
  | [] => []
  | (k, l) :: es' =>
      (k, seq next (length l)) :: alloc_edges (next + length l) es'
  end.

Definition alloc (g : Graph) : Store * RefGraph :=
  (concat (map snd (edges g)), mkRefGraph (nodes g) (alloc_edges 0 (edges g))).

(** [edges.find(e => e.to === to)] *)
Definition find_to (store : Store) (to : string) (refs : list nat)
    : option nat :=
  List.find
    (fun r =>
       match store !! r with
       | Some e => String.eqb (edge_to e) to
       | None => false
       end)
    refs.

(** [edge.blocked = !edge.blocked] *)
Definition toggle_edge (e : Edge) : Edge :=
  mkEdge (edge_from e) (edge_to e) (edge_weight e) (edge_traffic e)
    (negb (edge_blocked e)).

Definition toggle (store : Store) (found : option nat) : Store :=
  match found with
  | Some r => alter toggle_edge r store
  | None => store
  end.

(** [handleEdgeClick(from, to)]: the updater it hands to [setGraph]. *)
Definition handleEdgeClick (state : Store * RefGraph) (from to : string)
    : Store * RefGraph :=
  let '(store, prevGraph) := state in
  let newEdges := ref_edges prevGraph in
  let fromEdges := default [] (Map.get newEdges from) in
  let toEdges := default [] (Map.get newEdges to) in
  let fromEdge := find_to store to fromEdges in
  let toEdge := find_to store from toEdges in
  let store := toggle store fromEdge in
  let store := toggle store toEdge in
  let newEdges := Map.set newEdges from fromEdges in
  let newEdges := Map.set newEdges to toEdges in
  (store, mkRefGraph (ref_nodes prevGraph) newEdges).

(** [edge.traffic = Math.random()] *)
Definition set_traffic (traffic : float) (e : Edge) : Edge :=
  mkEdge (edge_from e) (edge_to e) (edge_weight e) traffic (edge_blocked e).

(** [handleSimulateTraffic()]: the updater it hands to [setGraph];
    [random n] is what the [n]-th call of [Math.random()] answers. *)
Definition handleSimulateTraffic (random : nat → float)
    (state : Store * RefGraph) : Store * RefGraph :=
  let '(store, prevGraph) := state in
  let store :=
    fst (fold_left
           (fun '(store, n) r =>
              (alter (set_traffic (random n)) r store, S n))
           (concat (map snd (ref_edges prevGraph))) (store, O)) in
  (store, mkRefGraph (ref_nodes prevGraph) (ref_edges prevGraph)).

(** [handleReset()], as far as the graph goes:
    [setGraph(generateCityGraph())]. *)
Definition handleReset (random : nat → float) : Store * RefGraph :=
  alloc (generateCityGraph random).

(** What [handleTriggerEmergency] comes to: nothing when there is no
    hospital or no destination, the report that there is no route, or the
    path the ambulance is sent along. *)
Inductive Emergency : Type :=
  | emergency_nothing
  | emergency_no_route
  | emergency_route (route : list string).

(** [handleTriggerEmergency()]; [pick] is what
    [Math.floor(Math.random() * destinations.length)] answers, and [None]
    stands for a search that does not return. *)
Definition handleTriggerEmergency (fuel : nat) (graph : Graph) (pick : nat)
    : option Emergency :=
  let hospitalNode :=
    List.find
      (fun n => match node_type n with hospital => true | _ => false end)
      (map snd (nodes graph)) in
  let destinations :=
    List.filter
      (fun n => match node_type n with normal => true | _ => false end)
      (map snd (nodes graph)) in
  match hospitalNode, destinations !! pick with
  | Some hospitalNode, Some destination =>
      r ← dijkstra fuel graph (node_id hospitalNode) (node_id destination)
            true;
      match path (fst r) with
      | [] => Some emergency_no_route
      | route => Some (emergency_route route)
      end
  | _, _ => Some emergency_nothing
  end.

(** What is done to the graph of a page between two renders. *)
Inductive Action : Type :=
  | EdgeClick (from to : string)
  | SimulateTraffic (random : nat → float)
  | Reset (random : nat → float).

Definition act (state : Store * RefGraph) (a : Action) : Store * RefGraph :=
  match a with
  | EdgeClick from to => handleEdgeClick state from to
  | SimulateTraffic random => handleSimulateTraffic random state
  | Reset random => handleReset random
  end.

(** The edges [CityMap] draws and hands to [onEdgeClick] are between two
    nodes of the graph: an edge click whose ends are among [ids]. *)
Definition drawn (ids : list string) (a : Action) : Prop :=
  match a with
  | EdgeClick from to => from ∈ ids ∧ to ∈ ids
  | _ => True
  end.

(** What [handleNodeClick] keeps: where an end is selected a start is
    selected too, and is another node. *)
Definition selection_ok (sel : Selection) : Prop :=
  unset (selectedEnd sel) = false →
  unset (selectedStart sel) = false ∧ selectedStart sel ≠ selectedEnd sel.

(** What the three searches answer in emergency mode. *)
Definition emergency_answers (fuel : nat) (graph : Graph)
    (startId endId : string)
    : option SearchResult * option SearchResult * option BellmanFordResult :=
  (fst <$> dijkstra fuel graph startId endId true,
   fst <$> aStar fuel graph startId endId true,
   fst <$> bellmanFord fuel graph startId endId true).

(** The nodes [handleTriggerEmergency] picks a destination from on the
    city graph. *)
Definition city_destinations : list Node :=
  List.filter
    (fun n => match node_type n with normal => true | _ => false end)
    nodeData.

(** * Properties *)

(** ** Numbers *)

Section Numbers.

Local Open Scope float_scope.

(** No number is below [undefined]. *)
Lemma ltb_nan_r (v : float) : PrimFloat.ltb v nan = false.
Proof.
  rewrite ltb_spec. unfold SFltb.
  change (Prim2SF nan) with S754_nan.
  by destruct (Prim2SF v).
Qed.

Lemma ltb_nan_l (v : float) : PrimFloat.ltb nan v = false.
Proof. rewrite ltb_spec. reflexivity. Qed.

Lemma add_nan_l (v : float) : nan + v = nan.
Proof. apply Prim2SF_inj. rewrite add_spec. reflexivity. Qed.

(** Multiplying by [1 + 0 * 2] is exact: the mantissa is shifted left by
    52 bits and back. *)
Lemma mul_no_traffic (w : float) : w * (1 + 0 * 2) = w.
Proof.
  change (1 + 0 * 2) with 1.
  apply Prim2SF_inj. rewrite mul_spec.
  change (Prim2SF 1) with (S754_finite false 4503599627370496 (-52)).
  pose proof (Prim2SF_valid w) as Hv.
  destruct (Prim2SF w) as [s|s| |s m e]; simpl; try done.
  - by destruct s.
  - by destruct s.
  - unfold SpecFloat.valid_binary, bounded, canonical_mantissa in Hv.
    apply andb_prop in Hv as [Hc He]. apply Z.eqb_eq in Hc.
    assert (Hsh :
      shr_fexp prec emax (Z.pos (m * 4503599627370496)) (e + -52) loc_Exact
      = ({| shr_m := Z.pos m; shr_r := false; shr_s := false |}, e)).
    { rewrite Pos.mul_comm. unfold shr_fexp.
      change (4503599627370496 * m)%positive
        with (m~0~0~0~0~0~0~0~0~0~0~0~0~0~0~0~0~0~0~0~0~0~0~0~0~0~0
               ~0~0~0~0~0~0~0~0~0~0~0~0~0~0~0~0~0~0~0~0~0~0~0~0~0~0)%positive.
      cbn [Zdigits2 digits2_pos].
      replace (Z.pos _ + (e + -52))%Z with (Z.pos (digits2_pos m) + e)%Z by lia.
      rewrite Hc. replace (e - (e + -52))%Z with 52%Z by lia.
      cbn. f_equal. lia. }
    unfold binary_round_aux. rewrite Hsh.
    cbn [shr_m loc_of_shr_record shr_r shr_s round_nearest_even].
    unfold shr_fexp. cbn [Zdigits2]. rewrite Hc, Z.sub_diag. cbn.
    unfold emax, prec in *. rewrite He. by destruct s.
Qed.

Lemma add_infinity_l (w : float) : infinity + w = infinity ∨ infinity + w = nan.
Proof.
  assert (H : Prim2SF (infinity + w) = S754_infinity false
              ∨ Prim2SF (infinity + w) = S754_nan).
  { rewrite add_spec. change (Prim2SF infinity) with (S754_infinity false).
    destruct (Prim2SF w) as [s|[|]| |s m e]; simpl; auto. }
  destruct H as [H|H]; [left|right]; by apply Prim2SF_inj.
Qed.

Lemma ltb_infinity_add (w : float) :
  PrimFloat.ltb (infinity + w) infinity = false.
Proof.
  destruct (add_infinity_l w) as [-> | ->]; [reflexivity|apply ltb_nan_l].
Qed.

End Numbers.

(** ** Maps *)

Section MapFacts.

Context {V : Type}.
Implicit Types (m : Map.t V) (k : string) (v : V).

Lemma get_set_eq m k v : Map.get (Map.set m k v) k = Some v.
Proof.
  induction m as [|[k' v'] m IH]; simpl.
  - by rewrite String.eqb_refl.
  - destruct (String.eqb k' k) eqn:E; simpl; by rewrite E.
Qed.

Lemma get_set_ne m k k' v :
  k ≠ k' → Map.get (Map.set m k v) k' = Map.get m k'.
Proof.
  intros Hne. induction m as [|[k0 v0] m IH]; simpl.
  - by apply String.eqb_neq in Hne as ->.
  - destruct (String.eqb k0 k) eqn:E; simpl.
    + apply String.eqb_eq in E as ->. by apply String.eqb_neq in Hne as ->.
    + by rewrite IH.
Qed.

Lemma get_set m k k' v :
  Map.get (Map.set m k v) k' = if decide (k = k') then Some v else Map.get m k'.
Proof.
  destruct (decide (k = k')) as [->|Hne]; [apply get_set_eq|by apply get_set_ne].
Qed.

Lemma get_None m k : Map.get m k = None ↔ k ∉ Map.keys m.
Proof.
  unfold Map.keys. induction m as [|[k' v'] m IH]; simpl.
  - split; [intros _; apply not_elem_of_nil|done].
  - rewrite not_elem_of_cons. destruct (String.eqb k' k) eqn:E.
    + apply String.eqb_eq in E as ->. split; [done|by intros [? _]].
    + apply String.eqb_neq in E. rewrite IH. split; [done|by intros [_ ?]].
Qed.

Lemma get_Some_keys m k v : Map.get m k = Some v → k ∈ Map.keys m.
Proof.
  intros H. destruct (decide (k ∈ Map.keys m)) as [|Hn]; [done|].
  apply get_None in Hn. congruence.
Qed.

(** Writing under a key does not change the set of keys by more than
    that key. *)
Lemma keys_set m k v k' :
  k' ∈ Map.keys (Map.set m k v) ↔ k' = k ∨ k' ∈ Map.keys m.
Proof.
  unfold Map.keys. induction m as [|[k0 v0] m IH]; simpl.
  - rewrite list_elem_of_singleton. split; [by left|intros [?|?%elem_of_nil]; done].
  - destruct (String.eqb k0 k) eqn:E; simpl; rewrite !elem_of_cons.
    + apply String.eqb_eq in E as ->. tauto.
    + rewrite IH. tauto.
Qed.

End MapFacts.

(** The maps a search starts from have the nodes' ids as their keys. *)
Lemma fold_set_keys {V W : Type} (f : string → V) (l : list (string * W))
    (m : Map.t V) (k : string) :
  k ∈ Map.keys (fold_left (fun d '(id, _) => Map.set d id (f id)) l m)
  ↔ k ∈ Map.keys m ∨ k ∈ Map.keys l.
Proof.
  revert m. induction l as [|[id w] l IH]; intros m; simpl.
  - split; [by left|]. by intros [?|?%elem_of_nil].
  - rewrite IH, keys_set. unfold Map.keys. simpl. rewrite elem_of_cons. tauto.
Qed.

Lemma fold_set_get {V W : Type} (f : string → V) (l : list (string * W))
    (m : Map.t V) (k : string) :
  Map.get (fold_left (fun d '(id, _) => Map.set d id (f id)) l m) k
  = if decide (k ∈ Map.keys l) then Some (f k) else Map.get m k.
Proof.
  revert m. induction l as [|[id w] l IH]; intros m; simpl.
  - destruct (decide (k ∈ Map.keys (@nil (string * W)))) as [Hin|]; [|done].
    by apply elem_of_nil in Hin.
  - rewrite IH. unfold Map.keys. simpl.
    destruct (decide (k ∈ map fst l)) as [Hin|Hnin].
    + by rewrite decide_True by (by apply elem_of_cons; right).
    + rewrite get_set. destruct (decide (id = k)) as [->|Hne].
      * by rewrite decide_True by (by apply elem_of_cons; left).
      * rewrite decide_False; [done|]. rewrite elem_of_cons. intros [?|?]; done.
Qed.

Lemma init_distances_get (graph : Graph) (startId k : string) :
  Map.get (init_distances graph startId) k
  = if decide (k ∈ Map.keys (nodes graph))
    then Some (if String.eqb k startId then 0%float else infinity)
    else None.
Proof. unfold init_distances. by rewrite fold_set_get. Qed.

Lemma init_previous_get (graph : Graph) (k : string) :
  Map.get (init_previous graph) k
  = if decide (k ∈ Map.keys (nodes graph)) then Some None else None.
Proof.
  unfold init_previous.
  by rewrite (fold_set_get (fun _ => None) (nodes graph) Map.empty k).
Qed.

(** ** The priority queue keeps what it is given *)

Section HeapFacts.

Context {T : Type}.
Implicit Types (h : heap T) (v : T) (p : float).

Lemma swap_perm h i j : swap h i j ≡ₚ h.
Proof.
  unfold swap. destruct (h !! i) eqn:Hi; [|done].
  destruct (h !! j) eqn:Hj; [|done].
  by apply Permutation_insert_swap.
Qed.

Lemma bubbleUp_perm fuel h index : bubbleUp fuel h index ≡ₚ h.
Proof.
  revert h index. induction fuel as [|fuel IH]; intros h index; simpl; [done|].
  destruct (0 <? index)%nat; [|done].
  destruct (h !! _); [|done]. destruct (h !! index); [|done].
  destruct (PrimFloat.leb _ _); [done|].
  by rewrite IH, swap_perm.
Qed.

Lemma bubbleDown_perm fuel h index : bubbleDown fuel h index ≡ₚ h.
Proof.
  revert h index. induction fuel as [|fuel IH]; intros h index; simpl; [done|].
  destruct (_ =? index)%nat; [done|].
  by rewrite IH, swap_perm.
Qed.

Lemma enqueue_perm h v p : enqueue h v p ≡ₚ mkItem p v :: h.
Proof.
  unfold enqueue. rewrite bubbleUp_perm. by rewrite Permutation_app_comm.
Qed.

Lemma dequeue_cons (min x : item T) (t : list (item T)) :
  dequeue (min :: x :: t)
  = Some (value min,
          bubbleDown (length (min :: removelast (x :: t)))
            (List.last (x :: t) min :: removelast (x :: t)) 0).
Proof. reflexivity. Qed.

Lemma dequeue_perm h v h' :
  dequeue h = Some (v, h') → ∃ p, h ≡ₚ mkItem p v :: h'.
Proof.
  destruct h as [|min [|x t]]; [done| |].
  - intros [= <- <-]. exists (priority min). by destruct min.
  - intros Hd. rewrite dequeue_cons in Hd.
    set (bd := bubbleDown _ _ _) in Hd.
    assert (Hbd : bd ≡ₚ List.last (x :: t) min :: removelast (x :: t))
      by apply bubbleDown_perm.
    clearbody bd. injection Hd as <- <-.
    exists (priority min). rewrite Hbd.
    rewrite (app_removelast_last min (l := x :: t)) at 1 by done.
    destruct min; simpl. apply perm_skip, Permutation_app_comm.
Qed.

(** An empty queue is the only one [dequeue] answers [undefined] on. *)
Lemma dequeue_None h : dequeue h = None ↔ h = [].
Proof.
  destruct h as [|min t]; [done|]. unfold dequeue.
  by destruct (0 <? _)%nat.
Qed.

Lemma enqueue_length h v p : length (enqueue h v p) = S (length h).
Proof. by rewrite enqueue_perm. Qed.

Lemma dequeue_length h v h' :
  dequeue h = Some (v, h') → length h = S (length h').
Proof. intros [p ->]%dequeue_perm. done. Qed.

Lemma enqueue_values h v p x :
  x ∈ map value (enqueue h v p) ↔ x = v ∨ x ∈ map value h.
Proof. rewrite enqueue_perm. simpl. by rewrite elem_of_cons. Qed.

Lemma dequeue_values h v h' x :
  dequeue h = Some (v, h') →
  x ∈ map value h ↔ x = v ∨ x ∈ map value h'.
Proof. intros [p ->]%dequeue_perm. simpl. by rewrite elem_of_cons. Qed.

End HeapFacts.

(** The turns [bubbleUp] and [bubbleDown] are given are all they can take:
    with more they do the same. *)
Section HeapFuel.

Context {T : Type}.
Implicit Types (h : heap T).

Lemma swap_length h i j : length (swap h i j) = length h.
Proof. by rewrite swap_perm. Qed.

Lemma bubbleUp_fuel fuel fuel' h index :
  (index ≤ fuel)%nat → (index ≤ fuel')%nat →
  bubbleUp fuel h index = bubbleUp fuel' h index.
Proof.
  revert fuel' h index.
  induction fuel as [|fuel IH]; intros [|fuel'] h index H1 H2;
    cbn [bubbleUp]; try done.
  - destruct (0 <? index)%nat eqn:E; [|done]. apply Nat.ltb_lt in E. lia.
  - destruct (0 <? index)%nat eqn:E; [|done]. apply Nat.ltb_lt in E. lia.
  - destruct (0 <? index)%nat eqn:E; [|done]. apply Nat.ltb_lt in E.
    destruct (h !! _); [|done]. destruct (h !! index); [|done].
    destruct (PrimFloat.leb _ _); [done|].
    assert ((index - 1) / 2 ≤ index - 1)%nat
      by (apply Nat.Div0.div_le_upper_bound; lia).
    apply IH; lia.
Qed.

Lemma bubbleDown_fuel fuel fuel' h index :
  (length h - index ≤ fuel)%nat → (length h - index ≤ fuel')%nat →
  bubbleDown fuel h index = bubbleDown fuel' h index.
Proof.
  revert fuel' h index.
  induction fuel as [|fuel IH]; intros [|fuel'] h index H1 H2; try done.
  - cbn [bubbleDown]. cbv zeta.
    replace (2 * index + 1 <? length h)%nat with false
      by (symmetry; apply Nat.ltb_ge; lia).
    replace (2 * index + 2 <? length h)%nat with false
      by (symmetry; apply Nat.ltb_ge; lia).
    simpl. by rewrite Nat.eqb_refl.
  - cbn [bubbleDown]. cbv zeta.
    replace (2 * index + 1 <? length h)%nat with false
      by (symmetry; apply Nat.ltb_ge; lia).
    replace (2 * index + 2 <? length h)%nat with false
      by (symmetry; apply Nat.ltb_ge; lia).
    simpl. by rewrite Nat.eqb_refl.
  - cbn [bubbleDown]. cbv zeta.
    set (s1 := if (2 * index + 1 <? length h)%nat
                  && priority_lt h (2 * index + 1) index
               then (2 * index + 1)%nat else index).
    set (s2 := if (2 * index + 2 <? length h)%nat && priority_lt h (2 * index + 2) s1
               then (2 * index + 2)%nat else s1).
    destruct (s2 =? index)%nat eqn:E; [done|].
    apply Nat.eqb_neq in E.
    assert (index < s2 < length h)%nat.
    { revert E. subst s2 s1.
      destruct (Nat.ltb_spec (2 * index + 1) (length h));
        destruct (Nat.ltb_spec (2 * index + 2) (length h));
        cbn [andb];
        repeat match goal with
        | |- context [priority_lt ?a ?b ?c] => destruct (priority_lt a b c)
        end; lia. }
    apply IH; rewrite swap_length; lia.
Qed.

(** The reads of [bubbleUp] are in range: [enqueue] calls it on the last
    index, and a turn leaves the length as it is and moves to the parent. *)
Lemma bubbleUp_reads h index :
  (index < length h)%nat →
  is_Some (h !! ((index - 1) / 2)%nat) ∧ is_Some (h !! index).
Proof.
  intros Hlt. split; apply lookup_lt_is_Some; [|done].
  assert ((index - 1) / 2 ≤ index - 1)%nat
    by (apply Nat.Div0.div_le_upper_bound; lia).
  lia.
Qed.

Lemma isEmpty_dequeue h : isEmpty h = true ↔ dequeue h = None.
Proof.
  rewrite dequeue_None. unfold isEmpty. rewrite Nat.eqb_eq.
  by destruct h.
Qed.

End HeapFuel.

(** ** The cost of an edge *)

(** The inner loop of a pass of [bellmanFord] over the list of one edge. *)
Lemma bellmanFord_relax_flat (isEmergency : bool) (from : string) (edge : Edge)
    (st : BellmanFordState) :
  fold_left bellmanFord_relax (flat_edge isEmergency from edge) st =
  match effective_weight edge isEmergency with
  | None => st
  | Some w =>
      let newDist := (JS.num (Map.get (bf_distances st) from) + w)%float in
      if PrimFloat.ltb newDist
           (JS.num (Map.get (bf_distances st) (edge_to edge)))
      then
        mkBellmanFordState (bf_graph st)
          (Map.set (bf_distances st) (edge_to edge) newDist)
          (Map.set (bf_previous st) (edge_to edge) (Some from))
      else st
  end.
Proof.
  unfold flat_edge, effective_weight, bellmanFord_relax.
  destruct isEmergency, (edge_blocked edge); simpl; done.
Qed.

Lemma allEdges_by_rule (graph : Graph) (isEmergency : bool) :
  allEdges graph isEmergency =
  flat_map
    (fun '(from, es) =>
       flat_map
         (fun e =>
            match effective_weight e isEmergency with
            | None => []
            | Some w => [mkFlatEdge from (edge_to e) w]
            end) es)
    (edges graph).
Proof.
  unfold allEdges.
  induction (edges graph) as [|[from es] m IH]; simpl; [done|].
  rewrite IH. f_equal.
  induction es as [|e es IHes]; simpl; [done|].
  rewrite IHes. f_equal.
  unfold flat_edge, effective_weight.
  destruct isEmergency, (edge_blocked e); simpl; done.
Qed.

Lemma bellmanFord_pass_by_rule (graph : Graph) (isEmergency : bool)
    (st : BellmanFordState) :
  bellmanFord_pass (allEdges graph isEmergency) st =
  fold_left
    (fun st '(from, es) =>
       fold_left
         (fun st e =>
            match effective_weight e isEmergency with
            | None => st
            | Some w =>
                let newDist :=
                  (JS.num (Map.get (bf_distances st) from) + w)%float in
                if PrimFloat.ltb newDist
                     (JS.num (Map.get (bf_distances st) (edge_to e)))
                then
                  mkBellmanFordState (bf_graph st)
                    (Map.set (bf_distances st) (edge_to e) newDist)
                    (Map.set (bf_previous st) (edge_to e) (Some from))
                else st
            end) es st)
    (edges graph) st.
Proof.
  unfold bellmanFord_pass, allEdges. revert st.
  induction (edges graph) as [|[from es] m IH]; intros st; simpl; [done|].
  rewrite fold_left_app, IH. f_equal.
  clear IH. revert st.
  induction es as [|e es IHes]; intros st; simpl; [done|].
  rewrite fold_left_app, IHes. f_equal.
  apply bellmanFord_relax_flat.
Qed.

(** C4: the three searches relax an edge by one and the same cost rule,
    [effective_weight].  An edge the rule does not let through leaves the
    state of [dijkstra] and of [aStar] as it is and adds nothing to
    [allEdges] of [bellmanFord]; an edge it lets through at cost [w] is
    relaxed with [w] by [dijkstra] and by [aStar], and enters [allEdges]
    with weight [w].  [allEdges] is the list of these entries, for every
    edge of the graph in the order of [graph.edges]; [bellmanFord] relaxes
    an entry with the weight it carries, from the distance of its [from]
    id; so a pass of [bellmanFord] relaxes every edge of the graph by the
    rule: not at all where the rule does not let it through, with cost [w]
    where it does. *)
Theorem C4_one_cost_rule (edge : Edge) (isEmergency : bool) :
  (∀ current st,
     dijkstra_relax isEmergency current st edge =
     match effective_weight edge isEmergency with
     | None => st
     | Some w =>
         let distance := (JS.num (Map.get (dj_distances st) current) + w)%float in
         if PrimFloat.ltb distance
              (JS.num (Map.get (dj_distances st) (edge_to edge)))
         then
           mkDijkstraState (dj_graph st)
             (Map.set (dj_distances st) (edge_to edge) distance)
             (Map.set (dj_previous st) (edge_to edge) (Some current))
             (dj_visited st)
             (enqueue (dj_pq st) (edge_to edge) distance)
         else st
     end)
  ∧ (∀ endNode current st,
     aStar_relax endNode isEmergency current st edge =
     match effective_weight edge isEmergency with
     | None => st
     | Some w =>
         let g := (JS.num (Map.get (as_gScore st) current) + w)%float in
         if PrimFloat.ltb g (JS.num (Map.get (as_gScore st) (edge_to edge)))
         then
           let fScore :=
             Map.set (as_fScore st) (edge_to edge)
               (g + heuristic (as_graph st) endNode (edge_to edge))%float in
           mkAStarState (as_graph st)
             (Map.set (as_gScore st) (edge_to edge) g)
             fScore
             (Map.set (as_previous st) (edge_to edge) (Some current))
             (as_visited st)
             (enqueue (as_pq st) (edge_to edge)
                (JS.num (Map.get fScore (edge_to edge))))
         else st
     end)
  ∧ (∀ from,
     flat_edge isEmergency from edge =
     match effective_weight edge isEmergency with
     | None => []
     | Some w => [mkFlatEdge from (edge_to edge) w]
     end)
  ∧ (∀ graph,
     allEdges graph isEmergency =
     flat_map
       (fun '(from, es) =>
          flat_map
            (fun e =>
               match effective_weight e isEmergency with
               | None => []
               | Some w => [mkFlatEdge from (edge_to e) w]
               end) es)
       (edges graph))
  ∧ (∀ st flatEdge,
     bellmanFord_relax st flatEdge =
     let newDist :=
       (JS.num (Map.get (bf_distances st) (fe_from flatEdge)) + fe_weight flatEdge)%float in
     if PrimFloat.ltb newDist
          (JS.num (Map.get (bf_distances st) (fe_to flatEdge)))
     then
       mkBellmanFordState (bf_graph st)
         (Map.set (bf_distances st) (fe_to flatEdge) newDist)
         (Map.set (bf_previous st) (fe_to flatEdge) (Some (fe_from flatEdge)))
     else st)
  ∧ (∀ from st,
     fold_left bellmanFord_relax (flat_edge isEmergency from edge) st =
     match effective_weight edge isEmergency with
     | None => st
     | Some w =>
         let newDist := (JS.num (Map.get (bf_distances st) from) + w)%float in
         if PrimFloat.ltb newDist
              (JS.num (Map.get (bf_distances st) (edge_to edge)))
         then
           mkBellmanFordState (bf_graph st)
             (Map.set (bf_distances st) (edge_to edge) newDist)
             (Map.set (bf_previous st) (edge_to edge) (Some from))
         else st
     end)
  ∧ (∀ graph st,
     bellmanFord_pass (allEdges graph isEmergency) st =
     fold_left
       (fun st '(from, es) =>
          fold_left
            (fun st e =>
               match effective_weight e isEmergency with
               | None => st
               | Some w =>
                   let newDist :=
                     (JS.num (Map.get (bf_distances st) from) + w)%float in
                   if PrimFloat.ltb newDist
                        (JS.num (Map.get (bf_distances st) (edge_to e)))
                   then
                     mkBellmanFordState (bf_graph st)
                       (Map.set (bf_distances st) (edge_to e) newDist)
                       (Map.set (bf_previous st) (edge_to e) (Some from))
                   else st
               end) es st)
       (edges graph) st).
Proof.
  split; [|split; [|split; [|split; [|split; [|split]]]]].
  - unfold dijkstra_relax, effective_weight.
    destruct isEmergency, (edge_blocked edge); simpl; done.
  - unfold aStar_relax, effective_weight.
    destruct isEmergency, (edge_blocked edge); simpl; done.
  - unfold flat_edge, effective_weight.
    destruct isEmergency, (edge_blocked edge); simpl; done.
  - intros graph. apply allEdges_by_rule.
  - done.
  - intros from st. apply bellmanFord_relax_flat.
  - intros graph st. apply bellmanFord_pass_by_rule.
Qed.

(** ** The graph is only read *)

(** The three ways through a relaxation of [dijkstra] or of [aStar]: the
    edge is blocked, the new distance is not better, or it is. *)
Ltac relax_cases :=
  unfold dijkstra_relax, aStar_relax;
  destruct (_ && _); [done|];
  destruct (PrimFloat.ltb _ _) eqn:?.

Lemma dijkstra_relax_graph isEmergency current st edge :
  dj_graph (dijkstra_relax isEmergency current st edge) = dj_graph st.
Proof.
  by relax_cases.
Qed.

Lemma dijkstra_relax_all_graph isEmergency current es st :
  dj_graph (fold_left (dijkstra_relax isEmergency current) es st) = dj_graph st.
Proof.
  revert st. induction es as [|e es IH]; intros st; simpl; [done|].
  by rewrite IH, dijkstra_relax_graph.
Qed.

Lemma dijkstra_loop_graph fuel endId isEmergency st st' :
  dijkstra_loop fuel endId isEmergency st = Some st' →
  dj_graph st' = dj_graph st.
Proof.
  revert st. induction fuel as [|fuel IH]; intros st; simpl; [done|].
  destruct (dequeue (dj_pq st)) as [[current pq']|]; [|by intros [= <-]].
  destruct (JS.includes _ _).
  - intros H%IH. done.
  - destruct (String.eqb _ _); [by intros [= <-]|].
    intros H%IH. by rewrite H, dijkstra_relax_all_graph.
Qed.

Lemma aStar_relax_graph endNode isEmergency current st edge :
  as_graph (aStar_relax endNode isEmergency current st edge) = as_graph st.
Proof.
  by relax_cases.
Qed.

Lemma aStar_relax_all_graph endNode isEmergency current es st :
  as_graph (fold_left (aStar_relax endNode isEmergency current) es st)
  = as_graph st.
Proof.
  revert st. induction es as [|e es IH]; intros st; simpl; [done|].
  by rewrite IH, aStar_relax_graph.
Qed.

Lemma aStar_loop_graph fuel endNode endId isEmergency st st' :
  aStar_loop fuel endNode endId isEmergency st = Some st' →
  as_graph st' = as_graph st.
Proof.
  revert st. induction fuel as [|fuel IH]; intros st; simpl; [done|].
  destruct (dequeue (as_pq st)) as [[current pq']|]; [|by intros [= <-]].
  destruct (JS.includes _ _).
  - intros H%IH. done.
  - destruct (String.eqb _ _); [by intros [= <-]|].
    intros H%IH. by rewrite H, aStar_relax_all_graph.
Qed.

Lemma bellmanFord_relax_graph st edge :
  bf_graph (bellmanFord_relax st edge) = bf_graph st.
Proof. unfold bellmanFord_relax. by destruct (PrimFloat.ltb _ _). Qed.

Lemma bellmanFord_pass_graph flat st :
  bf_graph (bellmanFord_pass flat st) = bf_graph st.
Proof.
  unfold bellmanFord_pass. revert st.
  induction flat as [|e es IH]; intros st; simpl; [done|].
  by rewrite IH, bellmanFord_relax_graph.
Qed.

Lemma bellmanFord_passes_graph flat st :
  bf_graph (bellmanFord_passes flat st) = bf_graph st.
Proof.
  unfold bellmanFord_passes.
  induction (Map.size _ - 1) as [|n IH]; simpl; [done|].
  by rewrite bellmanFord_pass_graph.
Qed.

(** C9: a search leaves the graph it was given as it found it: the graph
    a call of [dijkstra], [aStar] or [bellmanFord] hands back (node map,
    edge lists, every field of every edge) is the graph it was called
    with. *)
Theorem C9_graph_not_mutated (fuel : nat) (graph : Graph)
    (startId endId : string) (isEmergency : bool) :
  (∀ r graph', dijkstra fuel graph startId endId isEmergency = Some (r, graph') →
               graph' = graph)
  ∧ (∀ r graph', aStar fuel graph startId endId isEmergency = Some (r, graph') →
                 graph' = graph)
  ∧ (∀ r graph', bellmanFord fuel graph startId endId isEmergency
                 = Some (r, graph') → graph' = graph).
Proof.
  split; [|split]; intros r graph'.
  - unfold dijkstra. intros H.
    destruct (dijkstra_loop _ _ _ _) as [st|] eqn:Hl; [|done]. simpl in H.
    destruct (reconstruct _ _ _ _); [|done]. simpl in H.
    injection H as _ <-. by apply dijkstra_loop_graph in Hl.
  - unfold aStar. intros H.
    destruct (Map.get _ startId); [|by injection H as _ <-].
    destruct (Map.get _ endId) as [endNode|]; [|by injection H as _ <-].
    destruct (aStar_loop _ _ _ _ _) as [st|] eqn:Hl; [|done]. simpl in H.
    destruct (reconstruct _ _ _ _); [|done]. simpl in H.
    injection H as _ <-. by apply aStar_loop_graph in Hl.
  - unfold bellmanFord. intros H.
    destruct (reconstruct _ _ _ _); [|done]. simpl in H.
    injection H as _ <-. by rewrite bellmanFord_passes_graph.
Qed.

(** ** The visited trace *)

Lemma includes_true (a : list string) (s : string) :
  JS.includes a s = true ↔ s ∈ a.
Proof.
  unfold JS.includes. rewrite existsb_exists. split.
  - intros (x & Hin & ->%String.eqb_eq). by apply list_elem_of_In.
  - intros Hin. exists s. split; [by apply list_elem_of_In|apply String.eqb_refl].
Qed.

Lemma includes_false (a : list string) (s : string) :
  JS.includes a s = false ↔ s ∉ a.
Proof.
  rewrite <-includes_true. by destruct (JS.includes a s).
Qed.

Lemma trace_ok_skip startId visited pq pq' :
  visited ≠ [] → trace_ok startId visited pq → trace_ok startId visited pq'.
Proof. intros Hne [Hnd Hhd]. split; [done|]. by destruct visited. Qed.

Lemma trace_ok_step startId visited pq current pq' pq'' :
  trace_ok startId visited pq →
  dequeue pq = Some (current, pq') →
  JS.includes visited current = false →
  trace_ok startId (visited ++ [current]) pq''.
Proof.
  intros [Hnd Hhd] Hdq Hinc%includes_false. split.
  - apply NoDup_app. split; [done|]. split; [|apply NoDup_singleton].
    intros x Hx ->%list_elem_of_singleton. done.
  - destruct visited as [|first rest]; [|done].
    destruct Hhd as [p ->]. by injection Hdq as <- _.
Qed.

Lemma dijkstra_relax_visited isEmergency current st edge :
  dj_visited (dijkstra_relax isEmergency current st edge) = dj_visited st.
Proof.
  by relax_cases.
Qed.

Lemma dijkstra_relax_all_visited isEmergency current es st :
  dj_visited (fold_left (dijkstra_relax isEmergency current) es st)
  = dj_visited st.
Proof.
  revert st. induction es as [|e es IH]; intros st; simpl; [done|].
  by rewrite IH, dijkstra_relax_visited.
Qed.

Lemma dijkstra_loop_trace fuel startId endId isEmergency st st' :
  trace_ok startId (dj_visited st) (dj_pq st) →
  dijkstra_loop fuel endId isEmergency st = Some st' →
  trace_ok startId (dj_visited st') (dj_pq st').
Proof.
  revert st. induction fuel as [|fuel IH]; intros st Hok; simpl; [done|].
  destruct (dequeue (dj_pq st)) as [[current pq']|] eqn:Hdq;
    [|by intros [= <-]].
  destruct (JS.includes _ _) eqn:Hinc.
  - apply IH. simpl. apply trace_ok_skip with (dj_pq st); [|done].
    apply includes_true in Hinc. intros E. rewrite E in Hinc.
    by apply elem_of_nil in Hinc.
  - destruct (String.eqb _ _).
    + intros [= <-]. simpl. by eapply trace_ok_step.
    + apply IH. rewrite dijkstra_relax_all_visited. simpl.
      by eapply trace_ok_step.
Qed.

Lemma aStar_relax_visited endNode isEmergency current st edge :
  as_visited (aStar_relax endNode isEmergency current st edge) = as_visited st.
Proof.
  by relax_cases.
Qed.

Lemma aStar_relax_all_visited endNode isEmergency current es st :
  as_visited (fold_left (aStar_relax endNode isEmergency current) es st)
  = as_visited st.
Proof.
  revert st. induction es as [|e es IH]; intros st; simpl; [done|].
  by rewrite IH, aStar_relax_visited.
Qed.

Lemma aStar_loop_trace fuel startId endNode endId isEmergency st st' :
  trace_ok startId (as_visited st) (as_pq st) →
  aStar_loop fuel endNode endId isEmergency st = Some st' →
  trace_ok startId (as_visited st') (as_pq st').
Proof.
  revert st. induction fuel as [|fuel IH]; intros st Hok; simpl; [done|].
  destruct (dequeue (as_pq st)) as [[current pq']|] eqn:Hdq;
    [|by intros [= <-]].
  destruct (JS.includes _ _) eqn:Hinc.
  - apply IH. simpl. apply trace_ok_skip with (as_pq st); [|done].
    apply includes_true in Hinc. intros E. rewrite E in Hinc.
    by apply elem_of_nil in Hinc.
  - destruct (String.eqb _ _).
    + intros [= <-]. simpl. by eapply trace_ok_step.
    + apply IH. rewrite aStar_relax_all_visited. simpl.
      by eapply trace_ok_step.
Qed.

Lemma trace_ok_result startId visited pq :
  trace_ok startId visited pq →
  NoDup visited ∧ (visited ≠ [] → head visited = Some startId).
Proof.
  intros [Hnd Hhd]. split; [done|]. destruct visited; [done|].
  intros _. simpl. by rewrite Hhd.
Qed.

(** C10: in every result of [dijkstra] and of [aStar] the visited trace
    holds each node id at most once, and a trace that is not empty starts
    with the source id. *)
Theorem C10_visited_trace (fuel : nat) (graph : Graph)
    (startId endId : string) (isEmergency : bool)
    (r : SearchResult) (graph' : Graph) :
  dijkstra fuel graph startId endId isEmergency = Some (r, graph')
  ∨ aStar fuel graph startId endId isEmergency = Some (r, graph') →
  NoDup (visited r) ∧ (visited r ≠ [] → head (visited r) = Some startId).
Proof.
  intros [H|H].
  - unfold dijkstra in H.
    destruct (dijkstra_loop _ _ _ _) as [st|] eqn:Hl; [|done]. simpl in H.
    destruct (reconstruct _ _ _ _); [|done]. simpl in H. injection H as <- _.
    simpl. apply trace_ok_result with (dj_pq st).
    eapply dijkstra_loop_trace; [|exact Hl].
    split; [apply NoDup_nil_2|]. by eexists.
  - unfold aStar in H.
    destruct (Map.get _ startId);
      [|injection H as <- _; split; [apply NoDup_nil_2|done]].
    destruct (Map.get _ endId) as [endNode|];
      [|injection H as <- _; split; [apply NoDup_nil_2|done]].
    destruct (aStar_loop _ _ _ _ _) as [st|] eqn:Hl; [|done]. simpl in H.
    destruct (reconstruct _ _ _ _); [|done]. simpl in H. injection H as <- _.
    simpl. apply trace_ok_result with (as_pq st).
    eapply aStar_loop_trace; [|exact Hl].
    split; [apply NoDup_nil_2|]. by eexists.
Qed.

Example line_graph_dijkstra :
  dijkstra 10 line_graph "A" "D" false
  = Some (mkSearchResult ["A"; "B"; "D"] 20 ["A"; "B"; "D"], line_graph).
Proof. vm_compute. reflexivity. Qed.

Example line_graph_aStar :
  aStar 10 line_graph "A" "D" false
  = Some (mkSearchResult ["A"; "B"; "D"] 20 ["A"; "B"; "D"], line_graph).
Proof. vm_compute. reflexivity. Qed.

Example line_graph_bellmanFord :
  bellmanFord 10 line_graph "A" "D" false
  = Some (mkBellmanFordResult ["A"; "B"; "D"] 20 false, line_graph).
Proof. vm_compute. reflexivity. Qed.

(** With the road A-B blocked the direct road is taken; in emergency mode
    the block is ignored. *)
Example line_graph_blocked_dijkstra :
  dijkstra 10 line_graph_blocked "A" "D" false
  = Some (mkSearchResult ["A"; "D"] 30 ["A"; "D"], line_graph_blocked)
  ∧ dijkstra 10 line_graph_blocked "A" "D" true
    = Some (mkSearchResult ["A"; "B"; "D"] 20 ["A"; "B"; "D"],
            line_graph_blocked).
Proof. split; vm_compute; reflexivity. Qed.

Lemma C10_visited_trace_witness :
  NoDup ["A"; "B"; "D"] ∧ (["A"; "B"; "D"] ≠ [] → head ["A"; "B"; "D"] = Some "A").
Proof.
  apply (C10_visited_trace 10 line_graph "A" "D" false
           (mkSearchResult ["A"; "B"; "D"] 20 ["A"; "B"; "D"]) line_graph).
  left. vm_compute. reflexivity.
Defined.

Lemma C9_graph_not_mutated_witness :
  ∃ r graph',
    dijkstra 10 line_graph "A" "D" false = Some (r, graph')
    ∧ graph' = line_graph.
Proof.
  eexists _, _. split; [apply line_graph_dijkstra|].
  eapply (proj1 (C9_graph_not_mutated 10 line_graph "A" "D" false)).
  apply line_graph_dijkstra.
Defined.

(** ** Emergency mode *)

Lemma clear_graph_nodes (g : Graph) : nodes (clear_graph g) = nodes g.
Proof. reflexivity. Qed.

Lemma clear_edges_get (m : Map.t (list Edge)) (k : string) :
  default [] (Map.get (map (fun '(k, es) => (k, map clear_edge es)) m) k)
  = map clear_edge (default [] (Map.get m k)).
Proof.
  induction m as [|[k' es] m IH]; simpl; [done|].
  by destruct (String.eqb k' k).
Qed.

Section Emergency.

Lemma dijkstra_relax_clear current st e :
  dijkstra_relax false current (dj_clear st) (clear_edge e)
  = dj_clear (dijkstra_relax true current st e).
Proof.
  unfold dijkstra_relax. simpl. rewrite andb_false_r, mul_no_traffic.
  by destruct (PrimFloat.ltb _ _).
Qed.

Lemma dijkstra_relax_all_clear current es st :
  fold_left (dijkstra_relax false current) (map clear_edge es) (dj_clear st)
  = dj_clear (fold_left (dijkstra_relax true current) es st).
Proof.
  revert st. induction es as [|e es IH]; intros st; simpl; [done|].
  by rewrite dijkstra_relax_clear, IH.
Qed.

Lemma dijkstra_loop_clear fuel endId st :
  dijkstra_loop fuel endId false (dj_clear st)
  = dj_clear <$> dijkstra_loop fuel endId true st.
Proof.
  revert st. induction fuel as [|fuel IH]; intros st; simpl; [done|].
  destruct (dequeue (dj_pq st)) as [[current pq']|]; [|done].
  destruct (JS.includes _ _); [by rewrite <-IH|].
  destruct (String.eqb _ _); [done|].
  rewrite clear_edges_get. rewrite <-IH. f_equal.
  by rewrite <-dijkstra_relax_all_clear.
Qed.

Lemma aStar_relax_clear endNode current st e :
  aStar_relax endNode false current (as_clear st) (clear_edge e)
  = as_clear (aStar_relax endNode true current st e).
Proof.
  unfold aStar_relax. simpl. rewrite andb_false_r, mul_no_traffic.
  by destruct (PrimFloat.ltb _ _).
Qed.

Lemma aStar_relax_all_clear endNode current es st :
  fold_left (aStar_relax endNode false current) (map clear_edge es)
    (as_clear st)
  = as_clear (fold_left (aStar_relax endNode true current) es st).
Proof.
  revert st. induction es as [|e es IH]; intros st; simpl; [done|].
  by rewrite aStar_relax_clear, IH.
Qed.

Lemma aStar_loop_clear fuel endNode endId st :
  aStar_loop fuel endNode endId false (as_clear st)
  = as_clear <$> aStar_loop fuel endNode endId true st.
Proof.
  revert st. induction fuel as [|fuel IH]; intros st; simpl; [done|].
  destruct (dequeue (as_pq st)) as [[current pq']|]; [|done].
  destruct (JS.includes _ _); [by rewrite <-IH|].
  destruct (String.eqb _ _); [done|].
  rewrite clear_edges_get. rewrite <-IH. f_equal.
  by rewrite <-aStar_relax_all_clear.
Qed.

Lemma all_edges_clear (g : Graph) :
  allEdges (clear_graph g) false = allEdges g true.
Proof.
  unfold allEdges, clear_graph. simpl.
  induction (edges g) as [|[k es] m IH]; simpl; [done|].
  rewrite IH. f_equal.
  induction es as [|e es IHes]; simpl; [done|].
  rewrite IHes. f_equal.
  unfold flat_edge. simpl. rewrite orb_true_r, mul_no_traffic. done.
Qed.

Lemma bellmanFord_pass_clear flat st :
  bellmanFord_pass flat (bf_clear st)
  = bf_clear (bellmanFord_pass flat st).
Proof.
  unfold bellmanFord_pass. revert st.
  induction flat as [|e es IH]; intros st; simpl; [done|].
  rewrite <-IH. f_equal. unfold bellmanFord_relax. simpl.
  by destruct (PrimFloat.ltb _ _).
Qed.

Lemma bellmanFord_passes_clear flat st :
  bellmanFord_passes flat (bf_clear st)
  = bf_clear (bellmanFord_passes flat st).
Proof.
  unfold bellmanFord_passes. simpl.
  induction (Map.size _ - 1) as [|n IH]; simpl; [done|].
  by rewrite IH, bellmanFord_pass_clear.
Qed.

End Emergency.

(** On the line with every road blocked: no route in normal mode, and in
    emergency mode the route of the open line without traffic. *)
Example line_graph_closed_emergency :
  clear_graph line_graph_closed = line_graph
  ∧ fst <$> dijkstra 10 line_graph_closed "A" "D" false
    = Some (mkSearchResult [] infinity ["A"])
  ∧ fst <$> dijkstra 10 line_graph_closed "A" "D" true
    = Some (mkSearchResult ["A"; "B"; "D"] 20 ["A"; "B"; "D"])
  ∧ fst <$> aStar 10 line_graph_closed "A" "D" true
    = Some (mkSearchResult ["A"; "B"; "D"] 20 ["A"; "B"; "D"])
  ∧ fst <$> bellmanFord 10 line_graph_closed "A" "D" true
    = Some (mkBellmanFordResult ["A"; "B"; "D"] 20 false).
Proof. repeat split; vm_compute; reflexivity. Qed.

(** C6: a search in emergency mode answers what the same search answers
    in normal mode on the graph with every edge unblocked and its traffic
    set to zero: the same path and distance (and trace, and negative-cycle
    flag), for [dijkstra], [aStar] and [bellmanFord], on every graph,
    fully blocked graphs among them.  That answer is not always the
    base-weight shortest path.  On the city graph with every edge blocked
    the edges from E to F and from F to G weigh 14 and 16; from E to G in
    emergency mode [dijkstra] and [bellmanFord] return E, F, G at distance
    30, and [aStar] returns E, J, K, G at distance 47, as it does in normal
    mode on the cleared graph. *)
Theorem C6_emergency_aStar_not_shortest :
  (∀ fuel graph startId endId,
     fst <$> dijkstra fuel graph startId endId true
     = fst <$> dijkstra fuel (clear_graph graph) startId endId false
     ∧ fst <$> aStar fuel graph startId endId true
       = fst <$> aStar fuel (clear_graph graph) startId endId false
     ∧ fst <$> bellmanFord fuel graph startId endId true
       = fst <$> bellmanFord fuel (clear_graph graph) startId endId false)
  ∧ (forallb (fun '(_, es) => forallb edge_blocked es)
       (edges city_graph_closed) = true
     ∧ default [] (Map.get (edges city_graph_closed) "E") !! 0%nat
       = Some (mkEdge "E" "F" 14 0.25 true)
     ∧ default [] (Map.get (edges city_graph_closed) "F") !! 1%nat
       = Some (mkEdge "F" "G" 16 0.25 true)
     ∧ fst <$> dijkstra 100 city_graph_closed "E" "G" true
       = Some (mkSearchResult ["E"; "F"; "G"] 30
                 ["E"; "I"; "A"; "F"; "J"; "M"; "B"; "N"; "G"])
     ∧ fst <$> bellmanFord 100 city_graph_closed "E" "G" true
       = Some (mkBellmanFordResult ["E"; "F"; "G"] 30 false)
     ∧ fst <$> aStar 100 city_graph_closed "E" "G" true
       = Some (mkSearchResult ["E"; "J"; "K"; "G"] 47 ["E"; "J"; "K"; "G"])
     ∧ fst <$> aStar 100 (clear_graph city_graph_closed) "E" "G" false
       = Some (mkSearchResult ["E"; "J"; "K"; "G"] 47 ["E"; "J"; "K"; "G"])).
Proof.
  split; [|repeat split; vm_compute; reflexivity].
  intros fuel graph startId endId. split; [|split].
  - unfold dijkstra.
    change (dijkstra_init (clear_graph graph) startId)
      with (dj_clear (dijkstra_init graph startId)).
    rewrite dijkstra_loop_clear.
    destruct (dijkstra_loop _ _ true _) as [st|]; [|done]. simpl.
    by destruct (reconstruct _ _ _ _).
  - unfold aStar. simpl.
    destruct (Map.get _ startId); [|done].
    destruct (Map.get _ endId) as [endNode|]; [|done].
    change (aStar_init (clear_graph graph) endNode startId)
      with (as_clear (aStar_init graph endNode startId)).
    rewrite aStar_loop_clear.
    destruct (aStar_loop _ _ _ true _) as [st|]; [|done]. simpl.
    by destruct (reconstruct _ _ _ _).
  - unfold bellmanFord. simpl. rewrite all_edges_clear.
    change (bellmanFord_init (clear_graph graph) startId)
      with (bf_clear (bellmanFord_init graph startId)).
    rewrite bellmanFord_passes_clear. simpl.
    by destruct (reconstruct _ _ _ _).
Qed.

(** ** What a search can reach *)

(** A comparison with a missing entry fails: an entry that wins a
    comparison is there. *)
Lemma ltb_num_Some (v : float) (o : option float) :
  PrimFloat.ltb v (JS.num o) = true → ∃ w, o = Some w.
Proof.
  destruct o as [w|]; [by exists w|]. simpl. by rewrite ltb_nan_r.
Qed.

Section SearchInvariant.

Variables (graph : Graph) (startId : string).

Lemma search_inv_init p :
  search_inv graph startId (init_distances graph startId) (init_previous graph) []
    (enqueue [] startId p).
Proof.
  split.
  - intros k Hk. unfold init_distances in Hk.
    apply fold_set_keys in Hk as [Hk|Hk]; [by apply elem_of_nil in Hk|done].
  - intros k Hk. unfold init_previous in Hk.
    apply (fold_set_keys (fun _ => None)) in Hk as [Hk|Hk];
      [by apply elem_of_nil in Hk|done].
  - intros k q Hq. rewrite init_previous_get in Hq. by destruct (decide _).
  - intros v Hv. by apply elem_of_nil in Hv.
  - apply NoDup_nil_2.
  - intros v Hv. apply enqueue_values in Hv as [->|Hv]; [by right|].
    by apply elem_of_nil in Hv.
Qed.

(** A successful relaxation towards [neighbor] from a known [current]. *)
Lemma search_inv_relax dist prev trace pq current neighbor d p w :
  search_inv graph startId dist prev trace pq →
  known graph startId current →
  Map.get dist neighbor = Some w →
  search_inv graph startId (Map.set dist neighbor d) (Map.set prev neighbor (Some current))
    trace (enqueue pq neighbor p).
Proof.
  intros [Hd Hp Hpv Ht Hn Hq] Hcur Hget.
  assert (Hnb : neighbor ∈ Map.keys (nodes graph))
    by (by eapply Hd, get_Some_keys).
  split; [| | |done|done|].
  - intros k [->|Hk]%keys_set; auto.
  - intros k [->|Hk]%keys_set; auto.
  - intros k q. rewrite get_set. destruct (decide _); [|by apply Hpv].
    by intros [= <-].
  - intros v [->|Hv]%enqueue_values; [by left|auto].
Qed.

Lemma search_inv_dequeue dist prev trace pq current pq' :
  search_inv graph startId dist prev trace pq →
  dequeue pq = Some (current, pq') →
  known graph startId current ∧ search_inv graph startId dist prev trace pq'.
Proof.
  intros [Hd Hp Hpv Ht Hn Hq] Hdq. split.
  - apply Hq. rewrite (dequeue_values _ _ _ _ Hdq). by left.
  - split; try done. intros v Hv. apply Hq.
    rewrite (dequeue_values _ _ _ _ Hdq). by right.
Qed.

Lemma search_inv_visit dist prev trace pq current :
  search_inv graph startId dist prev trace pq →
  known graph startId current →
  JS.includes trace current = false →
  search_inv graph startId dist prev (trace ++ [current]) pq.
Proof.
  intros [Hd Hp Hpv Ht Hn Hq] Hcur Hinc%includes_false.
  split; try done.
  - intros v [Hv| ->%list_elem_of_singleton]%elem_of_app; auto.
  - apply NoDup_app. split; [done|]. split; [|apply NoDup_singleton].
    intros x Hx ->%list_elem_of_singleton. done.
Qed.

End SearchInvariant.

(** ** The main loop of a search ends *)

Lemma visit_cost_bound graph startId trace :
  NoDup trace → (∀ v, v ∈ trace → known graph startId v) →
  (visit_cost graph trace
   ≤ visit_cost graph (startId :: Map.keys (nodes graph)))%nat.
Proof.
  intros Hnd Hsub.
  assert (Hms : trace ⊆+ startId :: Map.keys (nodes graph)).
  { apply NoDup_submseteq; [done|]. intros x [Hx| ->]%Hsub.
    - by apply elem_of_cons; right.
    - by apply elem_of_cons; left. }
  apply submseteq_Permutation in Hms as [k Hk].
  unfold visit_cost. rewrite Hk, sum_list_with_app. lia.
Qed.

Lemma visit_cost_snoc graph trace v :
  visit_cost graph (trace ++ [v])
  = visit_cost graph trace + S (out_degree graph v).
Proof. unfold visit_cost. rewrite sum_list_with_app. simpl. lia. Qed.

Section DijkstraInvariant.

Variables (graph : Graph) (startId : string).

Lemma dijkstra_init_inv : dj_inv graph startId (dijkstra_init graph startId).
Proof. split; [done|]. apply search_inv_init. Qed.

Lemma dijkstra_relax_inv isEmergency current st edge :
  dj_inv graph startId st → known graph startId current →
  dj_inv graph startId (dijkstra_relax isEmergency current st edge).
Proof.
  intros [Hg Hinv] Hcur. unfold dijkstra_relax.
  destruct (_ && _); [done|].
  destruct (PrimFloat.ltb _ _) eqn:Hlt; [|done].
  apply ltb_num_Some in Hlt as [w Hw].
  split; [done|]. simpl. by eapply search_inv_relax.
Qed.

Lemma dijkstra_relax_all_inv isEmergency current es st :
  dj_inv graph startId st → known graph startId current →
  dj_inv graph startId (fold_left (dijkstra_relax isEmergency current) es st).
Proof.
  revert st. induction es as [|e es IH]; intros st Hinv Hcur; simpl; [done|].
  apply IH; [|done]. by apply dijkstra_relax_inv.
Qed.

Lemma dijkstra_relax_all_pq isEmergency current es st :
  (length (dj_pq (fold_left (dijkstra_relax isEmergency current) es st))
   ≤ length es + length (dj_pq st))%nat.
Proof.
  revert st. induction es as [|e es IH]; intros st; simpl; [done|].
  etrans; [apply IH|]. unfold dijkstra_relax.
  destruct (_ && _); [lia|].
  destruct (PrimFloat.ltb _ _); [|lia]. simpl. rewrite enqueue_length. lia.
Qed.

Lemma dijkstra_loop_inv fuel endId isEmergency st st' :
  dj_inv graph startId st →
  dijkstra_loop fuel endId isEmergency st = Some st' →
  dj_inv graph startId st'.
Proof.
  revert st. induction fuel as [|fuel IH]; intros st [Hg Hinv]; simpl; [done|].
  destruct (dequeue (dj_pq st)) as [[current pq']|] eqn:Hdq;
    [|by intros [= <-]].
  destruct (search_inv_dequeue _ _ _ _ _ _ _ _ Hinv Hdq) as [Hcur Hinv'].
  destruct (JS.includes _ _) eqn:Hinc; [by apply IH|].
  assert (Hv : dj_inv graph startId
    (mkDijkstraState (dj_graph st) (dj_distances st) (dj_previous st)
       (dj_visited st ++ [current]) pq'))
    by (split; [done|]; by apply search_inv_visit).
  destruct (String.eqb _ _); [by intros [= <-]|].
  apply IH. by apply dijkstra_relax_all_inv.
Qed.

(** The loop ends within the turns that the queue and the ids not yet
    visited account for. *)
Lemma dijkstra_loop_ends fuel endId isEmergency st :
  dj_inv graph startId st →
  (length (dj_pq st)
    + (visit_cost graph (startId :: Map.keys (nodes graph))
       - visit_cost graph (dj_visited st)) < fuel)%nat →
  ∃ st', dijkstra_loop fuel endId isEmergency st = Some st'.
Proof.
  revert st. induction fuel as [|fuel IH]; intros st [Hg Hinv] Hfuel;
    [lia|]. simpl.
  destruct (dequeue (dj_pq st)) as [[current pq']|] eqn:Hdq; [|by eexists].
  destruct (search_inv_dequeue _ _ _ _ _ _ _ _ Hinv Hdq) as [Hcur Hinv'].
  apply dequeue_length in Hdq as Hlen.
  destruct (JS.includes _ _) eqn:Hinc.
  { apply IH; [done|]. cbn [dj_pq dj_visited]. lia. }
  pose proof (search_inv_visit _ _ _ _ _ _ _ Hinv' Hcur Hinc) as Hinv''.
  destruct (String.eqb _ _); [by eexists|].
  apply IH.
  - apply dijkstra_relax_all_inv; [|done]. by split.
  - pose proof (dijkstra_relax_all_pq isEmergency current
      (default [] (Map.get (edges (dj_graph st)) current))
      (mkDijkstraState (dj_graph st) (dj_distances st) (dj_previous st)
         (dj_visited st ++ [current]) pq')) as Hpq.
    rewrite dijkstra_relax_all_visited.
    cbn [dj_pq dj_visited dj_graph] in *.
    pose proof (visit_cost_bound graph startId _
      (inv_nodup _ _ _ _ _ _ Hinv'') (inv_trace _ _ _ _ _ _ Hinv'')) as Hb.
    rewrite visit_cost_snoc in *. unfold out_degree in *.
    rewrite Hg in *. lia.
Qed.

Lemma dijkstra_loop_total fuel endId isEmergency :
  (search_fuel graph startId ≤ fuel)%nat →
  ∃ st', dijkstra_loop fuel endId isEmergency (dijkstra_init graph startId)
         = Some st' ∧ dj_inv graph startId st'.
Proof.
  intros Hfuel.
  destruct (dijkstra_loop_ends fuel endId isEmergency
              (dijkstra_init graph startId) dijkstra_init_inv) as [st' Hst'].
  - unfold search_fuel in Hfuel. cbn [dijkstra_init dj_pq dj_visited].
    rewrite enqueue_length. simpl length. lia.
  - exists st'. split; [done|].
    eapply dijkstra_loop_inv; [apply dijkstra_init_inv|done].
Qed.

End DijkstraInvariant.

Section AStarInvariant.

Variables (graph : Graph) (startId : string).

Lemma aStar_init_inv endNode : as_inv graph startId (aStar_init graph endNode startId).
Proof. split; [done|]. apply search_inv_init. Qed.

Lemma aStar_relax_inv endNode isEmergency current st edge :
  as_inv graph startId st → known graph startId current →
  as_inv graph startId (aStar_relax endNode isEmergency current st edge).
Proof.
  intros [Hg Hinv] Hcur. unfold aStar_relax.
  destruct (_ && _); [done|].
  destruct (PrimFloat.ltb _ _) eqn:Hlt; [|done].
  apply ltb_num_Some in Hlt as [w Hw].
  split; [done|]. simpl. by eapply search_inv_relax.
Qed.

Lemma aStar_relax_all_inv endNode isEmergency current es st :
  as_inv graph startId st → known graph startId current →
  as_inv graph startId (fold_left (aStar_relax endNode isEmergency current) es st).
Proof.
  revert st. induction es as [|e es IH]; intros st Hinv Hcur; simpl; [done|].
  apply IH; [|done]. by apply aStar_relax_inv.
Qed.

Lemma aStar_relax_all_pq endNode isEmergency current es st :
  (length (as_pq (fold_left (aStar_relax endNode isEmergency current) es st))
   ≤ length es + length (as_pq st))%nat.
Proof.
  revert st. induction es as [|e es IH]; intros st; simpl; [done|].
  etrans; [apply IH|]. unfold aStar_relax.
  destruct (_ && _); [lia|].
  destruct (PrimFloat.ltb _ _); [|lia]. simpl. rewrite enqueue_length. lia.
Qed.

Lemma aStar_loop_inv fuel endNode endId isEmergency st st' :
  as_inv graph startId st →
  aStar_loop fuel endNode endId isEmergency st = Some st' →
  as_inv graph startId st'.
Proof.
  revert st. induction fuel as [|fuel IH]; intros st [Hg Hinv]; simpl; [done|].
  destruct (dequeue (as_pq st)) as [[current pq']|] eqn:Hdq;
    [|by intros [= <-]].
  destruct (search_inv_dequeue _ _ _ _ _ _ _ _ Hinv Hdq) as [Hcur Hinv'].
  destruct (JS.includes _ _) eqn:Hinc; [by apply IH|].
  assert (Hv : as_inv graph startId
    (mkAStarState (as_graph st) (as_gScore st) (as_fScore st)
       (as_previous st) (as_visited st ++ [current]) pq'))
    by (split; [done|]; by apply search_inv_visit).
  destruct (String.eqb _ _); [by intros [= <-]|].
  apply IH. by apply aStar_relax_all_inv.
Qed.

Lemma aStar_loop_ends fuel endNode endId isEmergency st :
  as_inv graph startId st →
  (length (as_pq st)
    + (visit_cost graph (startId :: Map.keys (nodes graph))
       - visit_cost graph (as_visited st)) < fuel)%nat →
  ∃ st', aStar_loop fuel endNode endId isEmergency st = Some st'.
Proof.
  revert st. induction fuel as [|fuel IH]; intros st [Hg Hinv] Hfuel;
    [lia|]. simpl.
  destruct (dequeue (as_pq st)) as [[current pq']|] eqn:Hdq; [|by eexists].
  destruct (search_inv_dequeue _ _ _ _ _ _ _ _ Hinv Hdq) as [Hcur Hinv'].
  apply dequeue_length in Hdq as Hlen.
  destruct (JS.includes _ _) eqn:Hinc.
  { apply IH; [done|]. cbn [as_pq as_visited]. lia. }
  pose proof (search_inv_visit _ _ _ _ _ _ _ Hinv' Hcur Hinc) as Hinv''.
  destruct (String.eqb _ _); [by eexists|].
  apply IH.
  - apply aStar_relax_all_inv; [|done]. by split.
  - pose proof (aStar_relax_all_pq endNode isEmergency current
      (default [] (Map.get (edges (as_graph st)) current))
      (mkAStarState (as_graph st) (as_gScore st) (as_fScore st)
         (as_previous st) (as_visited st ++ [current]) pq')) as Hpq.
    rewrite aStar_relax_all_visited.
    cbn [as_pq as_visited as_graph] in *.
    pose proof (visit_cost_bound graph startId _
      (inv_nodup _ _ _ _ _ _ Hinv'') (inv_trace _ _ _ _ _ _ Hinv'')) as Hb.
    rewrite visit_cost_snoc in *. unfold out_degree in *.
    rewrite Hg in *. lia.
Qed.

Lemma aStar_loop_total fuel endNode endId isEmergency :
  (search_fuel graph startId ≤ fuel)%nat →
  ∃ st', aStar_loop fuel endNode endId isEmergency
           (aStar_init graph endNode startId) = Some st' ∧ as_inv graph startId st'.
Proof.
  intros Hfuel.
  destruct (aStar_loop_ends fuel endNode endId isEmergency
              (aStar_init graph endNode startId) (aStar_init_inv endNode))
    as [st' Hst'].
  - unfold search_fuel in Hfuel. cbn [aStar_init as_pq as_visited].
    rewrite enqueue_length. simpl length. lia.
  - exists st'. split; [done|].
    eapply aStar_loop_inv; [apply aStar_init_inv|done].
Qed.

End AStarInvariant.

(** ** [bellmanFord] keeps to the node map *)

Section BellmanFordInvariant.

Variable graph : Graph.

Lemma bellmanFord_init_inv startId : bf_inv graph (bellmanFord_init graph startId).
Proof.
  split; simpl; [done| | |].
  - intros k Hk. unfold init_distances in Hk.
    apply fold_set_keys in Hk as [Hk|Hk]; [by apply elem_of_nil in Hk|done].
  - intros k Hk. unfold init_previous in Hk.
    apply (fold_set_keys (fun _ => None)) in Hk as [Hk|Hk];
      [by apply elem_of_nil in Hk|done].
  - intros k q Hq. rewrite init_previous_get in Hq. by destruct (decide _).
Qed.

Lemma bellmanFord_relax_inv st edge :
  bf_inv graph st → bf_inv graph (bellmanFord_relax st edge).
Proof.
  intros [Hg Hd Hp Hpv]. unfold bellmanFord_relax.
  destruct (PrimFloat.ltb _ _) eqn:Hlt; [|done].
  apply ltb_num_Some in Hlt as Hto. destruct Hto as [w Hw].
  assert (Hfrom : fe_from edge ∈ Map.keys (nodes graph)).
  { destruct (Map.get (bf_distances st) (fe_from edge)) as [d|] eqn:Hf.
    - by eapply Hd, get_Some_keys.
    - simpl in Hlt. by rewrite add_nan_l, ltb_nan_l in Hlt. }
  assert (Hto : fe_to edge ∈ Map.keys (nodes graph))
    by (by eapply Hd, get_Some_keys).
  split; simpl; [done| | |].
  - intros k [->|Hk]%keys_set; auto.
  - intros k [->|Hk]%keys_set; auto.
  - intros k q. rewrite get_set. destruct (decide _); [|by apply Hpv].
    by intros [= <-].
Qed.

Lemma bellmanFord_pass_inv flat st :
  bf_inv graph st → bf_inv graph (bellmanFord_pass flat st).
Proof.
  unfold bellmanFord_pass. revert st.
  induction flat as [|e es IH]; intros st Hinv; simpl; [done|].
  by apply IH, bellmanFord_relax_inv.
Qed.

Lemma bellmanFord_passes_inv flat st :
  bf_inv graph st → bf_inv graph (bellmanFord_passes flat st).
Proof.
  intros Hinv. unfold bellmanFord_passes.
  induction (Map.size _ - 1) as [|n IH]; simpl; [done|].
  by apply bellmanFord_pass_inv.
Qed.

End BellmanFordInvariant.

(** ** Path reconstruction *)

Lemma reconstruct_stop fuel previous c path :
  JS.or_null (Map.get previous c) = None →
  reconstruct (S fuel) previous (Some c) path = Some (c :: path).
Proof. intros H. simpl. rewrite H. by destruct fuel. Qed.

(** What is on a reconstructed path: the id it starts from and
    predecessors. *)
Lemma reconstruct_elems fuel previous current acc path x :
  reconstruct fuel previous current acc = Some path →
  x ∈ path →
  x ∈ acc ∨ current = Some x ∨ ∃ k, Map.get previous k = Some (Some x).
Proof.
  revert current acc. induction fuel as [|fuel IH]; intros current acc.
  - destruct current; [done|]. intros [= <-]. by left.
  - destruct current as [c|]; [|intros [= <-]; by left]. simpl.
    intros Hrec Hx. destruct (IH _ _ Hrec Hx) as [Hacc|[Hcur|Hprev]].
    + apply elem_of_cons in Hacc as [->|Hacc]; [|by left]. right. by left.
    + right. right. exists c.
      destruct (Map.get previous c) as [[p|]|]; simpl in Hcur; [|done|done].
      destruct (String.eqb p ""); [done|]. by injection Hcur as ->.
    + by right; right.
Qed.

(** More fuel does not change an answer. *)
Lemma reconstruct_more fuel fuel' previous current acc path :
  (fuel ≤ fuel')%nat →
  reconstruct fuel previous current acc = Some path →
  reconstruct fuel' previous current acc = Some path.
Proof.
  revert fuel' current acc. induction fuel as [|fuel IH];
    intros fuel' current acc Hle.
  - destruct current; [done|]. intros [= <-]. by destruct fuel'.
  - destruct current as [c|]; [|intros [= <-]; by destruct fuel'].
    destruct fuel' as [|fuel']; [lia|]. simpl. apply IH. lia.
Qed.

Lemma path_from_elem startId path x :
  x ∈ path_from startId path → x ∈ path ∧ head path = Some startId.
Proof.
  destruct path as [|first rest]; simpl; [by intros ?%elem_of_nil|].
  destruct (String.eqb first startId) eqn:E; [|by intros ?%elem_of_nil].
  apply String.eqb_eq in E as ->. done.
Qed.

(** A path rebuilt from an id [z] that is neither a key nor a predecessor
    does not hold [z], unless it is [[z]] itself. *)
Lemma reconstruct_absent fuel previous endId path z :
  z ∉ Map.keys previous →
  (∀ k, Map.get previous k ≠ Some (Some z)) →
  reconstruct fuel previous (Some endId) [] = Some path →
  z ∈ path → path = [z].
Proof.
  intros Hkey Hval Hrec Hz.
  destruct (reconstruct_elems _ _ _ _ _ _ Hrec Hz) as [Hnil|[[= ->]|[k Hk]]].
  - by apply elem_of_nil in Hnil.
  - apply get_None in Hkey. destruct fuel as [|fuel]; [done|].
    rewrite reconstruct_stop in Hrec by (by rewrite Hkey). by injection Hrec.
  - by apply Hval in Hk.
Qed.

(** ** Fuel *)

(** A loop that has ended ends the same way with more fuel. *)
Lemma dijkstra_loop_more fuel fuel' endId isEmergency st st' :
  (fuel ≤ fuel')%nat →
  dijkstra_loop fuel endId isEmergency st = Some st' →
  dijkstra_loop fuel' endId isEmergency st = Some st'.
Proof.
  revert fuel' st. induction fuel as [|fuel IH]; intros fuel' st Hle; [done|].
  destruct fuel' as [|fuel']; [lia|]. simpl.
  destruct (dequeue (dj_pq st)) as [[current pq']|]; [|done].
  destruct (JS.includes _ _); [apply IH; lia|].
  destruct (String.eqb _ _); [done|]. apply IH. lia.
Qed.

Lemma aStar_loop_more fuel fuel' endNode endId isEmergency st st' :
  (fuel ≤ fuel')%nat →
  aStar_loop fuel endNode endId isEmergency st = Some st' →
  aStar_loop fuel' endNode endId isEmergency st = Some st'.
Proof.
  revert fuel' st. induction fuel as [|fuel IH]; intros fuel' st Hle; [done|].
  destruct fuel' as [|fuel']; [lia|]. simpl.
  destruct (dequeue (as_pq st)) as [[current pq']|]; [|done].
  destruct (JS.includes _ _); [apply IH; lia|].
  destruct (String.eqb _ _); [done|]. apply IH. lia.
Qed.

(** So the answer of a call does not depend on the fuel it is given, once
    there is enough of it. *)
Lemma dijkstra_more fuel fuel' graph startId endId isEmergency x :
  (fuel ≤ fuel')%nat →
  dijkstra fuel graph startId endId isEmergency = Some x →
  dijkstra fuel' graph startId endId isEmergency = Some x.
Proof.
  intros Hle. unfold dijkstra.
  destruct (dijkstra_loop fuel _ _ _) as [st|] eqn:Hl; [|done].
  rewrite (dijkstra_loop_more _ _ _ _ _ _ Hle Hl). simpl.
  destruct (reconstruct fuel _ _ _) as [p|] eqn:Hp; [|done].
  by rewrite (reconstruct_more _ _ _ _ _ _ Hle Hp).
Qed.

Lemma aStar_more fuel fuel' graph startId endId isEmergency x :
  (fuel ≤ fuel')%nat →
  aStar fuel graph startId endId isEmergency = Some x →
  aStar fuel' graph startId endId isEmergency = Some x.
Proof.
  intros Hle. unfold aStar.
  destruct (Map.get _ startId); [|done].
  destruct (Map.get _ endId) as [endNode|]; [|done].
  destruct (aStar_loop fuel _ _ _ _) as [st|] eqn:Hl; [|done].
  rewrite (aStar_loop_more _ _ _ _ _ _ _ Hle Hl). simpl.
  destruct (reconstruct fuel _ _ _) as [p|] eqn:Hp; [|done].
  by rewrite (reconstruct_more _ _ _ _ _ _ Hle Hp).
Qed.

Lemma bellmanFord_more fuel fuel' graph startId endId isEmergency x :
  (fuel ≤ fuel')%nat →
  bellmanFord fuel graph startId endId isEmergency = Some x →
  bellmanFord fuel' graph startId endId isEmergency = Some x.
Proof.
  intros Hle. unfold bellmanFord. cbv zeta.
  destruct (reconstruct fuel _ _ _) as [p|] eqn:Hp; [|done].
  by rewrite (reconstruct_more _ _ _ _ _ _ Hle Hp).
Qed.

(** ** An edge to an id that is no node *)

Lemma dijkstra_result fuel graph startId endId isEmergency r graph' :
  dijkstra fuel graph startId endId isEmergency = Some (r, graph') →
  ∃ st p,
    dijkstra_loop fuel endId isEmergency (dijkstra_init graph startId) = Some st
    ∧ reconstruct fuel (dj_previous st) (Some endId) [] = Some p
    ∧ r = mkSearchResult (path_from startId p)
            (JS.or_infinity (Map.get (dj_distances st) endId)) (dj_visited st).
Proof.
  unfold dijkstra. intros H.
  destruct (dijkstra_loop _ _ _ _) as [st|]; [|done]. simpl in H.
  destruct (reconstruct _ _ _ _) as [p|] eqn:Hp; [|done]. simpl in H.
  injection H as <- _. by exists st, p.
Qed.

Lemma aStar_result fuel graph startId endId isEmergency r graph' :
  aStar fuel graph startId endId isEmergency = Some (r, graph') →
  r = mkSearchResult [] infinity [] ∨
  ∃ endNode st p,
    aStar_loop fuel endNode endId isEmergency (aStar_init graph endNode startId)
      = Some st
    ∧ reconstruct fuel (as_previous st) (Some endId) [] = Some p
    ∧ r = mkSearchResult (path_from startId p)
            (JS.or_infinity (Map.get (as_gScore st) endId)) (as_visited st).
Proof.
  unfold aStar. intros H.
  destruct (Map.get _ startId); [|injection H as <- _; by left].
  destruct (Map.get _ endId) as [endNode|]; [|injection H as <- _; by left].
  destruct (aStar_loop _ _ _ _ _) as [st|] eqn:Hl; [|done]. simpl in H.
  destruct (reconstruct _ _ _ _) as [p|] eqn:Hp; [|done]. simpl in H.
  injection H as <- _. right. by exists endNode, st, p.
Qed.

Section Dangling.

Variables (graph : Graph) (startId z : string).
Hypothesis Hz : z ∉ Map.keys (nodes graph).
Hypothesis Hsrc : z ≠ startId.

Lemma unknown_z : ¬ known graph startId z.
Proof. by intros [?|?]. Qed.

Lemma search_inv_no_entry dist prev trace pq :
  search_inv graph startId dist prev trace pq →
  Map.get dist z = None ∧ Map.get prev z = None ∧ (z ∉ trace)
  ∧ ∀ k, Map.get prev k ≠ Some (Some z).
Proof.
  intros [Hd Hp Hpv Ht Hn Hq]. repeat split.
  - apply get_None. intros ?%Hd. done.
  - apply get_None. intros ?%Hp. done.
  - intros ?%Ht. by apply unknown_z.
  - intros k ?%Hpv. by apply unknown_z.
Qed.

Lemma search_inv_path dist prev trace pq fuel endId p :
  search_inv graph startId dist prev trace pq →
  reconstruct fuel prev (Some endId) [] = Some p →
  z ∉ path_from startId p.
Proof.
  intros Hinv Hrec [Hin Hhd]%path_from_elem.
  destruct (search_inv_no_entry _ _ _ _ Hinv) as (_ & Hprev & _ & Hval).
  apply get_None in Hprev.
  rewrite (reconstruct_absent _ _ _ _ _ Hprev Hval Hrec Hin) in Hhd.
  by injection Hhd.
Qed.

Lemma bf_inv_path st fuel endId p :
  bf_inv graph st →
  reconstruct fuel (bf_previous st) (Some endId) [] = Some p →
  z ∉ path_from startId p.
Proof.
  intros [Hg Hd Hp Hpv] Hrec [Hin Hhd]%path_from_elem.
  assert (Hkey : z ∉ Map.keys (bf_previous st)) by (by intros ?%Hp).
  assert (Hval : ∀ k, Map.get (bf_previous st) k ≠ Some (Some z))
    by (by intros k ?%Hpv).
  rewrite (reconstruct_absent _ _ _ _ _ Hkey Hval Hrec Hin) in Hhd.
  by injection Hhd.
Qed.

End Dangling.

(** ** The graph without its dangling edges *)

Section Prune.

Variables (graph : Graph) (startId : string).

Lemma has_false_get {V : Type} (m : Map.t V) (k : string) :
  Map.has m k = false → Map.get m k = None.
Proof. unfold Map.has. by destruct (Map.get m k). Qed.

Lemma prune_edges_get (ns : Map.t Node) (m : Map.t (list Edge)) (k : string) :
  default []
    (Map.get
       (map (fun '(k, es) =>
               (k, List.filter (fun e => Map.has ns (edge_to e)) es)) m) k)
  = List.filter (fun e => Map.has ns (edge_to e)) (default [] (Map.get m k)).
Proof.
  induction m as [|[k' es] m IH]; simpl; [done|].
  by destruct (String.eqb k' k).
Qed.

(** No entry of the maps of a search is for an id that is no node. *)
Lemma search_inv_no_key dist prev trace pq z :
  search_inv graph startId dist prev trace pq →
  z ∉ Map.keys (nodes graph) →
  Map.get dist z = None ∧ Map.get prev z = None.
Proof.
  intros [Hd Hp _ _ _ _] Hz. split; apply get_None; intros H; auto.
Qed.

Lemma search_inv_dangling dist prev trace pq z :
  search_inv graph startId dist prev trace pq →
  Map.has (nodes graph) z = false →
  Map.get dist z = None.
Proof.
  intros Hinv Hz. eapply search_inv_no_key; [done|].
  by apply get_None, has_false_get.
Qed.

Lemma dijkstra_relax_dangling isEmergency current st edge :
  Map.get (dj_distances st) (edge_to edge) = None →
  dijkstra_relax isEmergency current st edge = st.
Proof.
  intros Hnone. unfold dijkstra_relax.
  destruct (_ && _); [done|]. rewrite Hnone. simpl. by rewrite ltb_nan_r.
Qed.

Lemma aStar_relax_dangling endNode isEmergency current st edge :
  Map.get (as_gScore st) (edge_to edge) = None →
  aStar_relax endNode isEmergency current st edge = st.
Proof.
  intros Hnone. unfold aStar_relax.
  destruct (_ && _); [done|]. rewrite Hnone. simpl. by rewrite ltb_nan_r.
Qed.

Lemma bellmanFord_relax_dangling st edge :
  Map.get (bf_distances st) (fe_to edge) = None →
  bellmanFord_relax st edge = st.
Proof.
  intros Hnone. unfold bellmanFord_relax.
  rewrite Hnone. simpl. by rewrite ltb_nan_r.
Qed.

Lemma dijkstra_relax_prune isEmergency current st e :
  dijkstra_relax isEmergency current (dj_prune st) e
  = dj_prune (dijkstra_relax isEmergency current st e).
Proof.
  unfold dijkstra_relax. simpl. destruct (_ && _); [done|].
  by destruct (PrimFloat.ltb _ _).
Qed.

Lemma dijkstra_relax_all_prune isEmergency current es st :
  dj_inv graph startId st → known graph startId current →
  fold_left (dijkstra_relax isEmergency current)
    (List.filter (fun e => Map.has (nodes graph) (edge_to e)) es) (dj_prune st)
  = dj_prune (fold_left (dijkstra_relax isEmergency current) es st).
Proof.
  revert st. induction es as [|e es IH]; intros st Hinv Hcur; simpl; [done|].
  destruct (Map.has (nodes graph) (edge_to e)) eqn:Hhas; simpl.
  - rewrite dijkstra_relax_prune. apply IH; [|done].
    by apply dijkstra_relax_inv.
  - rewrite (dijkstra_relax_dangling _ _ st e); [by apply IH|].
    destruct Hinv as [_ Hinv]. by eapply search_inv_dangling.
Qed.

Lemma dijkstra_loop_prune fuel endId isEmergency st :
  dj_inv graph startId st →
  dijkstra_loop fuel endId isEmergency (dj_prune st)
  = dj_prune <$> dijkstra_loop fuel endId isEmergency st.
Proof.
  revert st. induction fuel as [|fuel IH]; intros st Hst; [done|].
  destruct st as [g dist prev trace pq]. destruct Hst as [Hg Hinv].
  simpl in Hg, Hinv. subst g. simpl.
  destruct (dequeue pq) as [[current pq']|] eqn:Hdq; [|done].
  destruct (search_inv_dequeue _ _ _ _ _ _ _ _ Hinv Hdq) as [Hcur Hinv'].
  destruct (JS.includes _ _) eqn:Hinc.
  { rewrite <-IH; [done|]. by split. }
  assert (Hv : dj_inv graph startId
    (mkDijkstraState graph dist prev (trace ++ [current]) pq'))
    by (split; [done|]; by apply search_inv_visit).
  destruct (String.eqb _ _); [done|].
  rewrite prune_edges_get, <-IH by (by apply dijkstra_relax_all_inv).
  f_equal. by rewrite <-dijkstra_relax_all_prune.
Qed.

Lemma aStar_relax_prune endNode isEmergency current st e :
  aStar_relax endNode isEmergency current (as_prune st) e
  = as_prune (aStar_relax endNode isEmergency current st e).
Proof.
  unfold aStar_relax. simpl. destruct (_ && _); [done|].
  by destruct (PrimFloat.ltb _ _).
Qed.

Lemma aStar_relax_all_prune endNode isEmergency current es st :
  as_inv graph startId st → known graph startId current →
  fold_left (aStar_relax endNode isEmergency current)
    (List.filter (fun e => Map.has (nodes graph) (edge_to e)) es) (as_prune st)
  = as_prune (fold_left (aStar_relax endNode isEmergency current) es st).
Proof.
  revert st. induction es as [|e es IH]; intros st Hinv Hcur; simpl; [done|].
  destruct (Map.has (nodes graph) (edge_to e)) eqn:Hhas; simpl.
  - rewrite aStar_relax_prune. apply IH; [|done].
    by apply aStar_relax_inv.
  - rewrite (aStar_relax_dangling _ _ _ st e); [by apply IH|].
    destruct Hinv as [_ Hinv]. by eapply search_inv_dangling.
Qed.

Lemma aStar_loop_prune fuel endNode endId isEmergency st :
  as_inv graph startId st →
  aStar_loop fuel endNode endId isEmergency (as_prune st)
  = as_prune <$> aStar_loop fuel endNode endId isEmergency st.
Proof.
  revert st. induction fuel as [|fuel IH]; intros st Hst; [done|].
  destruct st as [g gScore fScore prev trace pq]. destruct Hst as [Hg Hinv].
  simpl in Hg, Hinv. subst g. simpl.
  destruct (dequeue pq) as [[current pq']|] eqn:Hdq; [|done].
  destruct (search_inv_dequeue _ _ _ _ _ _ _ _ Hinv Hdq) as [Hcur Hinv'].
  destruct (JS.includes _ _) eqn:Hinc.
  { rewrite <-IH; [done|]. by split. }
  assert (Hv : as_inv graph startId
    (mkAStarState graph gScore fScore prev (trace ++ [current]) pq'))
    by (split; [done|]; by apply search_inv_visit).
  destruct (String.eqb _ _); [done|].
  rewrite prune_edges_get, <-IH by (by apply aStar_relax_all_inv).
  f_equal. by rewrite <-aStar_relax_all_prune.
Qed.

Lemma all_edges_prune isEmergency :
  allEdges (prune_graph graph) isEmergency
  = List.filter (fun fe => Map.has (nodes graph) (fe_to fe))
      (allEdges graph isEmergency).
Proof.
  unfold allEdges, prune_graph. simpl.
  induction (edges graph) as [|[k es] m IH]; simpl; [done|].
  rewrite List.filter_app, IH. f_equal.
  induction es as [|e es IHes]; simpl; [done|].
  rewrite List.filter_app, <-IHes.
  destruct (Map.has (nodes graph) (edge_to e)) eqn:Hhas; simpl.
  - f_equal. unfold flat_edge. destruct (_ || _); simpl; [|done].
    by rewrite Hhas.
  - unfold flat_edge. destruct (_ || _); simpl; [|done].
    by rewrite Hhas.
Qed.

Lemma bellmanFord_pass_dangling flat st :
  bf_inv graph st →
  bellmanFord_pass
    (List.filter (fun fe => Map.has (nodes graph) (fe_to fe)) flat) st
  = bellmanFord_pass flat st.
Proof.
  unfold bellmanFord_pass. revert st.
  induction flat as [|e es IH]; intros st Hinv; simpl; [done|].
  destruct (Map.has (nodes graph) (fe_to e)) eqn:Hhas; simpl.
  - by apply IH, bellmanFord_relax_inv.
  - rewrite (bellmanFord_relax_dangling st e); [by apply IH|].
    apply get_None. intros Hk%(bf_inv_dist _ _ Hinv).
    apply has_false_get, get_None in Hhas. done.
Qed.

Lemma bellmanFord_pass_prune flat st :
  bellmanFord_pass flat (bf_prune st) = bf_prune (bellmanFord_pass flat st).
Proof.
  unfold bellmanFord_pass. revert st.
  induction flat as [|e es IH]; intros st; simpl; [done|].
  rewrite <-IH. f_equal. unfold bellmanFord_relax. simpl.
  by destruct (PrimFloat.ltb _ _).
Qed.

Lemma bellmanFord_passes_prune isEmergency st :
  bf_inv graph st →
  bellmanFord_passes (allEdges (prune_graph graph) isEmergency) (bf_prune st)
  = bf_prune (bellmanFord_passes (allEdges graph isEmergency) st).
Proof.
  intros Hinv. unfold bellmanFord_passes. simpl.
  induction (Map.size _ - 1)%nat as [|n IH]; simpl; [done|].
  rewrite IH, bellmanFord_pass_prune. f_equal.
  rewrite all_edges_prune. apply bellmanFord_pass_dangling.
  clear IH. induction n as [|n IH]; simpl; [done|].
  by apply bellmanFord_pass_inv.
Qed.

Lemma still_relaxes_prune isEmergency st :
  bf_inv graph st →
  existsb (still_relaxes (bf_distances st))
    (allEdges (prune_graph graph) isEmergency)
  = existsb (still_relaxes (bf_distances st)) (allEdges graph isEmergency).
Proof.
  intros Hinv. rewrite all_edges_prune.
  induction (allEdges graph isEmergency) as [|e es IH]; simpl; [done|].
  destruct (Map.has (nodes graph) (fe_to e)) eqn:Hhas; simpl.
  - by rewrite IH.
  - rewrite IH. unfold still_relaxes at 2.
    assert (Hnone : Map.get (bf_distances st) (fe_to e) = None).
    { apply get_None. intros Hk%(bf_inv_dist _ _ Hinv).
      apply has_false_get, get_None in Hhas. done. }
    rewrite Hnone. simpl. by rewrite ltb_nan_r.
Qed.

End Prune.

(** Each search answers on a graph what it answers on the graph without
    its dangling edges. *)
Lemma dijkstra_prune fuel graph startId endId isEmergency :
  fst <$> dijkstra fuel (prune_graph graph) startId endId isEmergency
  = fst <$> dijkstra fuel graph startId endId isEmergency.
Proof.
  unfold dijkstra.
  change (dijkstra_init (prune_graph graph) startId)
    with (dj_prune (dijkstra_init graph startId)).
  rewrite (dijkstra_loop_prune graph startId) by apply dijkstra_init_inv.
  destruct (dijkstra_loop _ _ _ _) as [st|]; [|done]. simpl.
  by destruct (reconstruct _ _ _ _).
Qed.

Lemma aStar_prune fuel graph startId endId isEmergency :
  fst <$> aStar fuel (prune_graph graph) startId endId isEmergency
  = fst <$> aStar fuel graph startId endId isEmergency.
Proof.
  unfold aStar. simpl.
  destruct (Map.get _ startId); [|done].
  destruct (Map.get _ endId) as [endNode|]; [|done].
  change (aStar_init (prune_graph graph) endNode startId)
    with (as_prune (aStar_init graph endNode startId)).
  rewrite (aStar_loop_prune graph startId) by apply aStar_init_inv.
  destruct (aStar_loop _ _ _ _ _) as [st|]; [|done]. simpl.
  by destruct (reconstruct _ _ _ _).
Qed.

Lemma bellmanFord_prune fuel graph startId endId isEmergency :
  fst <$> bellmanFord fuel (prune_graph graph) startId endId isEmergency
  = fst <$> bellmanFord fuel graph startId endId isEmergency.
Proof.
  unfold bellmanFord. cbn zeta.
  change (bf_graph (bellmanFord_init (prune_graph graph) startId))
    with (prune_graph graph).
  change (bf_graph (bellmanFord_init graph startId)) with graph.
  change (bellmanFord_init (prune_graph graph) startId)
    with (bf_prune (bellmanFord_init graph startId)).
  rewrite (bellmanFord_passes_prune graph) by apply bellmanFord_init_inv.
  cbn [bf_prune bf_previous bf_distances].
  rewrite (still_relaxes_prune graph)
    by apply bellmanFord_passes_inv, bellmanFord_init_inv.
  by destruct (reconstruct _ _ _ _).
Qed.

Lemma dangling_graph_Z : "Z" ∉ Map.keys (nodes dangling_graph).
Proof.
  intros H. repeat (apply elem_of_cons in H as [H|H]; [done|]).
  by apply elem_of_nil in H.
Qed.

(** ** The source id in the trace of [dijkstra] *)

Lemma dijkstra_loop_visited fuel endId isEmergency st st' :
  dijkstra_loop fuel endId isEmergency st = Some st' →
  dj_visited st' ≠ [] ∨ dj_pq st' = [].
Proof.
  revert st. induction fuel as [|fuel IH]; intros st; simpl; [done|].
  destruct (dequeue (dj_pq st)) as [[current pq']|] eqn:Hdq.
  - destruct (JS.includes _ _); [apply IH|].
    destruct (String.eqb _ _); [|apply IH].
    intros [= <-]. left. simpl. by destruct (dj_visited st).
  - intros [= <-]. right. by apply dequeue_None.
Qed.

(** The first turn of the loop of [dijkstra] visits the source id, a node
    of the graph or not. *)
Lemma dijkstra_visits_start fuel graph startId endId isEmergency r graph' :
  dijkstra fuel graph startId endId isEmergency = Some (r, graph') →
  startId ∈ visited r.
Proof.
  unfold dijkstra. intros H.
  destruct (dijkstra_loop _ _ _ _) as [st|] eqn:Hl; [|done]. simpl in H.
  destruct (reconstruct _ _ _ _); [|done]. simpl in H. injection H as <- _.
  simpl.
  assert (Hok : trace_ok startId (dj_visited st) (dj_pq st)).
  { eapply dijkstra_loop_trace; [|exact Hl].
    split; [apply NoDup_nil_2|]. by eexists. }
  destruct (dijkstra_loop_visited _ _ _ _ _ Hl) as [Hne|Hpq].
  - destruct Hok as [_ Hhd]. destruct (dj_visited st) as [|first rest]; [done|].
    subst first. by apply elem_of_cons; left.
  - destruct Hok as [_ Hhd]. destruct (dj_visited st) as [|first rest].
    + destruct Hhd as [p Hp]. by rewrite Hpq in Hp.
    + subst first. by apply elem_of_cons; left.
Qed.

(** [aStar] answers a query from an id that is no node with the empty
    result, so an id that is no node is never in its path or trace. *)
Lemma aStar_result_known fuel graph startId endId isEmergency r graph' z :
  z ∉ Map.keys (nodes graph) →
  aStar fuel graph startId endId isEmergency = Some (r, graph') →
  (z ∉ path r) ∧ (z ∉ visited r).
Proof.
  intros Hz H.
  assert (Hsrc : r = mkSearchResult [] infinity [] ∨ z ≠ startId).
  { unfold aStar in H.
    destruct (Map.get (nodes graph) startId) eqn:Hs;
      [|injection H as <- _; by left].
    right. intros ->. by apply get_Some_keys in Hs. }
  destruct Hsrc as [->|Hsrc]; [split; apply not_elem_of_nil|].
  apply aStar_result in H as [->|(endNode & st & p & Hloop & Hrec & ->)].
  { split; apply not_elem_of_nil. }
  apply aStar_loop_inv with (graph := graph) (startId := startId)
    in Hloop as [_ Hinv]; [|apply aStar_init_inv].
  simpl. split; [by eapply search_inv_path|].
  by destruct (search_inv_no_entry _ _ _ Hz Hsrc _ _ _ _ Hinv)
    as (_ & _ & ? & _).
Qed.

(** C8: an edge whose [to] id is no node is passed over by the three
    searches, but the id itself is kept out of the result by [aStar]
    only.

    What goes wrong.  In [dangling_graph] the edge from A to ["Z"] has a
    target that is no node.  Asked for a route from ["Z"], [dijkstra]
    returns ["Z"] in its visited trace, and also as its path when the
    destination is ["Z"] too, as [bellmanFord] does; [aStar], which tests
    [!startNode || !endNode] first, returns the empty path and the empty
    trace.  So it is not true of [dijkstra] that the [to] id of a dangling
    edge is never in the visited trace; its trace holds the source id on
    every graph, whether the id is a node or not.

    What holds, for every graph and every edge whose [to] id is no node.
    Relaxing the edge changes nothing wherever its target has no distance
    entry; with [search_fuel] turns the main loop of [dijkstra] and of
    [aStar] ends, and it and the passes of [bellmanFord] leave no distance
    entry and no predecessor entry for the id, whatever the source; in a
    result of [aStar] the id is neither on the path nor in the trace; in a
    result of [dijkstra] and of [bellmanFord] it is not either when it is
    not the source id.

    And no search fails for a dangling edge: each of the three answers on
    a graph what it answers on the graph without its dangling edges, and
    returns on the one when it returns on the other. *)
Theorem C8_dangling_id_in_trace :
  (default [] (Map.get (edges dangling_graph) "A") !! 0%nat
   = Some (mkEdge "A" "Z" 1 0 false)
   ∧ ("Z" ∉ Map.keys (nodes dangling_graph))
   ∧ dijkstra 10 dangling_graph "Z" "B" false
     = Some (mkSearchResult [] infinity ["Z"], dangling_graph)
   ∧ dijkstra 10 dangling_graph "Z" "Z" false
     = Some (mkSearchResult ["Z"] infinity ["Z"], dangling_graph)
   ∧ bellmanFord 10 dangling_graph "Z" "Z" false
     = Some (mkBellmanFordResult ["Z"] infinity false, dangling_graph)
   ∧ aStar 10 dangling_graph "Z" "B" false
     = Some (mkSearchResult [] infinity [], dangling_graph)
   ∧ aStar 10 dangling_graph "Z" "Z" false
     = Some (mkSearchResult [] infinity [], dangling_graph)
   ∧ ¬ (∀ graph from edge startId endId isEmergency fuel r graph',
          edge ∈ default [] (Map.get (edges graph) from) →
          edge_to edge ∉ Map.keys (nodes graph) →
          dijkstra fuel graph startId endId isEmergency = Some (r, graph') →
          edge_to edge ∉ visited r))
  ∧ (∀ fuel graph startId endId isEmergency r graph',
       dijkstra fuel graph startId endId isEmergency = Some (r, graph') →
       startId ∈ visited r)
  ∧ (∀ graph edge isEmergency,
       edge_to edge ∉ Map.keys (nodes graph) →
       (* relaxation *)
       (∀ current st,
          Map.get (dj_distances st) (edge_to edge) = None →
          dijkstra_relax isEmergency current st edge = st)
       ∧ (∀ endNode current st,
          Map.get (as_gScore st) (edge_to edge) = None →
          aStar_relax endNode isEmergency current st edge = st)
       ∧ (∀ from st,
          Map.get (bf_distances st) (edge_to edge) = None →
          fold_left bellmanFord_relax (flat_edge isEmergency from edge) st
          = st)
       (* the maps *)
       ∧ (∀ startId endId fuel,
          (search_fuel graph startId ≤ fuel)%nat →
          ∃ st,
            dijkstra_loop fuel endId isEmergency (dijkstra_init graph startId)
            = Some st
            ∧ Map.get (dj_distances st) (edge_to edge) = None
            ∧ Map.get (dj_previous st) (edge_to edge) = None)
       ∧ (∀ startId endNode endId fuel,
          (search_fuel graph startId ≤ fuel)%nat →
          ∃ st,
            aStar_loop fuel endNode endId isEmergency
              (aStar_init graph endNode startId) = Some st
            ∧ Map.get (as_gScore st) (edge_to edge) = None
            ∧ Map.get (as_previous st) (edge_to edge) = None)
       ∧ (∀ startId,
          let st :=
            bellmanFord_passes (allEdges graph isEmergency)
              (bellmanFord_init graph startId) in
          Map.get (bf_distances st) (edge_to edge) = None
          ∧ Map.get (bf_previous st) (edge_to edge) = None)
       (* the results *)
       ∧ (∀ startId endId fuel r graph',
          aStar fuel graph startId endId isEmergency = Some (r, graph') →
          (edge_to edge ∉ path r) ∧ (edge_to edge ∉ visited r))
       ∧ (∀ startId endId fuel r graph',
          edge_to edge ≠ startId →
          dijkstra fuel graph startId endId isEmergency = Some (r, graph') →
          (edge_to edge ∉ path r) ∧ (edge_to edge ∉ visited r))
       ∧ (∀ startId endId fuel r graph',
          edge_to edge ≠ startId →
          bellmanFord fuel graph startId endId isEmergency
          = Some (r, graph') →
          edge_to edge ∉ bf_path r))
  ∧ (∀ fuel graph startId endId isEmergency,
       fst <$> dijkstra fuel (prune_graph graph) startId endId isEmergency
       = fst <$> dijkstra fuel graph startId endId isEmergency
       ∧ fst <$> aStar fuel (prune_graph graph) startId endId isEmergency
         = fst <$> aStar fuel graph startId endId isEmergency
       ∧ fst <$> bellmanFord fuel (prune_graph graph) startId endId isEmergency
         = fst <$> bellmanFord fuel graph startId endId isEmergency).
Proof.
  split; [|split; [|split]].
  - assert (Hrun : dijkstra 10 dangling_graph "Z" "B" false
                   = Some (mkSearchResult [] infinity ["Z"], dangling_graph))
      by (vm_compute; reflexivity).
    split; [done|]. split; [apply dangling_graph_Z|]. split; [done|].
    do 4 (split; [vm_compute; reflexivity|]).
    intros H.
    apply (H dangling_graph "A" (mkEdge "A" "Z" 1 0 false) "Z" "B" false 10
             (mkSearchResult [] infinity ["Z"]) dangling_graph);
      [by apply elem_of_cons; left|apply dangling_graph_Z|done|].
    simpl. by apply elem_of_cons; left.
  - intros fuel graph startId endId isEmergency r graph'.
    apply dijkstra_visits_start.
  - intros graph edge isEmergency Hz.
    split; [|split; [|split; [|split; [|split; [|split; [|split; [|split]]]]]]].
    + intros current st. apply dijkstra_relax_dangling.
    + intros endNode current st. apply aStar_relax_dangling.
    + intros from st Hnone. unfold flat_edge.
      destruct (_ || _); [|done]. simpl.
      by apply bellmanFord_relax_dangling.
    + intros startId endId fuel Hfuel.
      destruct (dijkstra_loop_total graph startId fuel endId isEmergency Hfuel)
        as (st & Hst & _ & Hinv).
      exists st. split; [done|]. by eapply search_inv_no_key.
    + intros startId endNode endId fuel Hfuel.
      destruct (aStar_loop_total graph startId fuel endNode endId isEmergency
                  Hfuel) as (st & Hst & _ & Hinv).
      exists st. split; [done|]. by eapply search_inv_no_key.
    + intros startId.
      pose proof (bellmanFord_passes_inv graph (allEdges graph isEmergency) _
                    (bellmanFord_init_inv graph startId)) as [Hg Hd Hp Hpv].
      simpl. split; apply get_None; [by intros ?%Hd|by intros ?%Hp].
    + intros startId endId fuel r graph'. by apply aStar_result_known.
    + intros startId endId fuel r graph' Hsrc
        (st & p & Hloop & Hrec & ->)%dijkstra_result.
      apply dijkstra_loop_inv with (graph := graph) (startId := startId)
        in Hloop as [_ Hinv]; [|apply dijkstra_init_inv].
      simpl. split; [by eapply search_inv_path|].
      by destruct (search_inv_no_entry _ _ _ Hz Hsrc _ _ _ _ Hinv)
        as (_ & _ & ? & _).
    + intros startId endId fuel r graph' Hsrc. unfold bellmanFord. intros H.
      destruct (reconstruct _ _ _ _) as [p|] eqn:Hrec; [|done]. simpl in H.
      injection H as <- _. simpl.
      eapply bf_inv_path; [done|done| |done].
      apply bellmanFord_passes_inv, bellmanFord_init_inv.
  - intros fuel graph startId endId isEmergency. split; [|split].
    + apply dijkstra_prune.
    + apply aStar_prune.
    + apply bellmanFord_prune.
Qed.

Lemma C8_dangling_id_in_trace_witness :
  ∃ r graph',
    dijkstra 10 dangling_graph "A" "B" false = Some (r, graph')
    ∧ ("Z" ∉ path r) ∧ ("Z" ∉ visited r).
Proof.
  pose (edge := mkEdge "A" "Z" 1 0 false).
  assert (Hsrc : edge_to edge ≠ "A") by done.
  destruct (proj1 (proj2 (proj2 C8_dangling_id_in_trace))
              dangling_graph edge false dangling_graph_Z)
    as (_ & _ & _ & _ & _ & _ & _ & Hres & _).
  exists (mkSearchResult ["A"; "B"] 5 ["A"; "B"]), dangling_graph.
  assert (Hrun : dijkstra 10 dangling_graph "A" "B" false
                 = Some (mkSearchResult ["A"; "B"] 5 ["A"; "B"], dangling_graph))
    by (vm_compute; reflexivity).
  split; [exact Hrun|]. exact (Hres "A" "B" 10 _ _ Hsrc Hrun).
Defined.

(** ** Queries whose ids are no nodes *)

Lemma dijkstra_loop_first fuel graph startId isEmergency :
  dijkstra_loop (S fuel) startId isEmergency (dijkstra_init graph startId)
  = Some (mkDijkstraState graph (init_distances graph startId)
            (init_previous graph) [startId] []).
Proof. simpl. by rewrite String.eqb_refl. Qed.

Lemma aStar_loop_first fuel graph endNode startId isEmergency :
  aStar_loop (S fuel) endNode startId isEmergency
    (aStar_init graph endNode startId)
  = Some (mkAStarState graph (init_distances graph startId)
            (init_fScore graph endNode startId) (init_previous graph)
            [startId] []).
Proof. simpl. by rewrite String.eqb_refl. Qed.

Lemma path_from_single startId : path_from startId [startId] = [startId].
Proof. simpl. by rewrite String.eqb_refl. Qed.

(** C7: what the searches answer when source and destination are one id
    [z] that is not in the node map.  [aStar] gives the unreachable result,
    an empty path and the infinite distance; [dijkstra] and [bellmanFord]
    give the path [[z]]. *)
Theorem C7_unknown_id_query (graph : Graph) (z : string)
    (isEmergency : bool) (fuel : nat) :
  z ∉ Map.keys (nodes graph) →
  dijkstra (S fuel) graph z z isEmergency
    = Some (mkSearchResult [z] infinity [z], graph)
  ∧ (∃ flag, bellmanFord (S fuel) graph z z isEmergency
             = Some (mkBellmanFordResult [z] infinity flag, graph))
  ∧ aStar (S fuel) graph z z isEmergency
    = Some (mkSearchResult [] infinity [], graph).
Proof.
  intros Hz. split; [|split].
  - unfold dijkstra. rewrite dijkstra_loop_first. cbn [mbind option_bind dj_previous].
    rewrite reconstruct_stop
      by (by rewrite init_previous_get, decide_False).
    cbn [mbind option_bind dj_distances dj_visited dj_graph].
    by rewrite path_from_single, init_distances_get, decide_False.
  - pose proof (bellmanFord_passes_inv graph (allEdges graph isEmergency) _
                  (bellmanFord_init_inv graph z)) as [Hg Hd Hp Hpv].
    eexists. unfold bellmanFord. cbn zeta.
    change (bf_graph (bellmanFord_init graph z)) with graph.
    assert (Hprev : Map.get (bf_previous (bellmanFord_passes
              (allEdges graph isEmergency) (bellmanFord_init graph z))) z = None)
      by (apply get_None; by intros ?%Hp).
    assert (Hdist : Map.get (bf_distances (bellmanFord_passes
              (allEdges graph isEmergency) (bellmanFord_init graph z))) z = None)
      by (apply get_None; by intros ?%Hd).
    rewrite reconstruct_stop by (by rewrite Hprev).
    cbn [mbind option_bind]. by rewrite path_from_single, Hdist, Hg.
  - unfold aStar. apply get_None in Hz. by rewrite Hz.
Qed.

Lemma C7_unknown_id_query_witness :
  dijkstra 1 line_graph "Z" "Z" false
    = Some (mkSearchResult ["Z"] infinity ["Z"], line_graph)
  ∧ (∃ flag, bellmanFord 1 line_graph "Z" "Z" false
             = Some (mkBellmanFordResult ["Z"] infinity flag, line_graph))
  ∧ aStar 1 line_graph "Z" "Z" false
    = Some (mkSearchResult [] infinity [], line_graph).
Proof.
  apply (C7_unknown_id_query line_graph "Z" false 0).
  intros H. repeat (apply elem_of_cons in H as [H|H]; [done|]).
  by apply elem_of_nil in H.
Defined.

(** ** Unknown ids that differ *)

Section UnknownIds.

Local Open Scope float_scope.

(** From a node without a distance entry nothing is relaxed. *)
Lemma dijkstra_relax_no_source isEmergency current es st :
  Map.get (dj_distances st) current = None →
  fold_left (dijkstra_relax isEmergency current) es st = st.
Proof.
  intros Hnone. induction es as [|e es IH]; simpl; [done|].
  replace (dijkstra_relax isEmergency current st e) with st; [done|].
  unfold dijkstra_relax. destruct (_ && _); [done|].
  rewrite Hnone. simpl. by rewrite add_nan_l, ltb_nan_l.
Qed.

Lemma dijkstra_loop_no_source fuel graph startId endId isEmergency :
  startId ∉ Map.keys (nodes graph) → startId ≠ endId →
  dijkstra_loop (S (S fuel)) endId isEmergency (dijkstra_init graph startId)
  = Some (mkDijkstraState graph (init_distances graph startId)
            (init_previous graph) [startId] []).
Proof.
  intros Hs Hne. cbn [dijkstra_loop dijkstra_init dj_pq].
  change (dequeue (enqueue [] startId 0)) with (Some (startId, @nil (item string))).
  cbn [dj_visited JS.includes existsb app].
  apply String.eqb_neq in Hne as ->.
  rewrite dijkstra_relax_no_source; [done|].
  simpl. by rewrite init_distances_get, decide_False.
Qed.

Lemma bellmanFord_relax_infinite st edge :
  all_infinite (bf_distances st) → bellmanFord_relax st edge = st.
Proof.
  intros Hinf. unfold bellmanFord_relax.
  destruct (Map.get (bf_distances st) (fe_to edge)) as [v|] eqn:Hto;
    [|simpl; by rewrite ltb_nan_r].
  apply Hinf in Hto as ->.
  destruct (Map.get (bf_distances st) (fe_from edge)) as [v|] eqn:Hfrom.
  - apply Hinf in Hfrom as ->. simpl. by rewrite ltb_infinity_add.
  - simpl. by rewrite add_nan_l, ltb_nan_l.
Qed.

Lemma bellmanFord_passes_infinite flat st :
  all_infinite (bf_distances st) → bellmanFord_passes flat st = st.
Proof.
  intros Hinf. unfold bellmanFord_passes.
  induction (Map.size _ - 1)%nat as [|n IH]; simpl; [done|].
  rewrite IH. clear IH. unfold bellmanFord_pass.
  induction flat as [|e es IHes]; simpl; [done|].
  by rewrite bellmanFord_relax_infinite.
Qed.

Lemma init_distances_infinite graph startId :
  startId ∉ Map.keys (nodes graph) →
  all_infinite (init_distances graph startId).
Proof.
  intros Hs k v. rewrite init_distances_get.
  destruct (decide _) as [Hk|]; [|done].
  destruct (String.eqb k startId) eqn:E; [|by intros [= <-]].
  by apply String.eqb_eq in E as ->.
Qed.

End UnknownIds.

(** X9: when source and destination differ and one of them is not in the
    node map, each search returns, within the turns of [search_fuel], the
    unreachable result: an empty path and the infinite distance. *)
Lemma unknown_id_unreachable (graph : Graph) (startId endId : string)
    (isEmergency : bool) (fuel : nat) :
  startId ≠ endId →
  startId ∉ Map.keys (nodes graph) ∨ endId ∉ Map.keys (nodes graph) →
  (search_fuel graph startId ≤ fuel)%nat →
  (∃ trace, dijkstra fuel graph startId endId isEmergency
            = Some (mkSearchResult [] infinity trace, graph))
  ∧ aStar fuel graph startId endId isEmergency
    = Some (mkSearchResult [] infinity [], graph)
  ∧ (∃ flag, bellmanFord fuel graph startId endId isEmergency
             = Some (mkBellmanFordResult [] infinity flag, graph)).
Proof.
  intros Hne Habs Hfuel.
  assert (Hpath : path_from startId [endId] = []).
  { simpl. destruct (String.eqb endId startId) eqn:E; [|done].
    by apply String.eqb_eq in E. }
  destruct fuel as [|[|fuel]]; [unfold search_fuel in Hfuel; lia..|].
  split; [|split].
  - destruct (decide (endId ∈ Map.keys (nodes graph))) as [Hd|Hd].
    + destruct Habs as [Hs|?]; [|done]. exists [startId].
      unfold dijkstra. rewrite dijkstra_loop_no_source by done.
      cbn [mbind option_bind dj_previous dj_distances dj_visited dj_graph].
      rewrite reconstruct_stop by (by rewrite init_previous_get, decide_True).
      cbn [mbind option_bind]. rewrite Hpath, init_distances_get, decide_True by done.
      apply String.eqb_neq in Hne. rewrite String.eqb_sym in Hne.
      by rewrite Hne.
    + destruct (dijkstra_loop_total graph startId (S (S fuel)) endId
                  isEmergency Hfuel) as (st & Hst & Hg & Hinv).
      exists (dj_visited st). unfold dijkstra. rewrite Hst.
      cbn [mbind option_bind].
      destruct (search_inv_no_entry graph startId endId Hd (not_eq_sym Hne)
                  _ _ _ _ Hinv) as (Hdist & Hprev & _).
      rewrite reconstruct_stop by (by rewrite Hprev).
      cbn [mbind option_bind]. by rewrite Hpath, Hdist, Hg.
  - unfold aStar. destruct Habs as [H|H]; apply get_None in H; rewrite H;
      [done|by destruct (Map.get _ startId)].
  - pose proof (bellmanFord_passes_inv graph (allEdges graph isEmergency) _
                  (bellmanFord_init_inv graph startId)) as [Hg Hdk Hpk Hpv].
    destruct (decide (endId ∈ Map.keys (nodes graph))) as [Hd|Hd];
      eexists; unfold bellmanFord; cbv zeta;
      change (bf_graph (bellmanFord_init graph startId)) with graph.
    + destruct Habs as [Hs|?]; [|done].
      rewrite bellmanFord_passes_infinite
        by (by apply init_distances_infinite).
      cbn [bellmanFord_init bf_previous bf_distances bf_graph].
      rewrite reconstruct_stop by (by rewrite init_previous_get, decide_True).
      cbn [mbind option_bind]. rewrite Hpath, init_distances_get, decide_True by done.
      apply String.eqb_neq in Hne. rewrite String.eqb_sym in Hne.
      by rewrite Hne.
    + assert (Hprev : Map.get (bf_previous (bellmanFord_passes
                (allEdges graph isEmergency) (bellmanFord_init graph startId)))
                endId = None) by (apply get_None; by intros ?%Hpk).
      assert (Hdist : Map.get (bf_distances (bellmanFord_passes
                (allEdges graph isEmergency) (bellmanFord_init graph startId)))
                endId = None) by (apply get_None; by intros ?%Hdk).
      rewrite reconstruct_stop by (by rewrite Hprev).
      cbn [mbind option_bind]. by rewrite Hpath, Hdist, Hg.
Qed.

(** ** A distance of zero *)

(** [v || Infinity] is never 0, and never NaN. *)
Lemma or_infinity_truthy (o : option float) :
  JS.falsy (JS.or_infinity o) = false.
Proof.
  destruct o as [v|]; [|reflexivity]. unfold JS.or_infinity.
  by destruct (JS.falsy v) eqn:E.
Qed.

Lemma or_infinity_not_zero (o : option float) :
  PrimFloat.eqb (JS.or_infinity o) 0 = false.
Proof.
  pose proof (or_infinity_truthy o) as H. unfold JS.falsy in H.
  by apply orb_false_elim in H as [H _].
Qed.

(** So no search ever answers the distance 0. *)
Lemma dijkstra_distance_not_zero fuel graph startId endId isEmergency r graph' :
  dijkstra fuel graph startId endId isEmergency = Some (r, graph') →
  PrimFloat.eqb (distance r) 0 = false.
Proof.
  intros (st & p & _ & _ & ->)%dijkstra_result. apply or_infinity_not_zero.
Qed.

Lemma aStar_distance_not_zero fuel graph startId endId isEmergency r graph' :
  aStar fuel graph startId endId isEmergency = Some (r, graph') →
  PrimFloat.eqb (distance r) 0 = false.
Proof.
  intros [->|(endNode & st & p & _ & _ & ->)]%aStar_result; [reflexivity|].
  apply or_infinity_not_zero.
Qed.

Lemma bellmanFord_distance_not_zero fuel graph startId endId isEmergency
    r graph' :
  bellmanFord fuel graph startId endId isEmergency = Some (r, graph') →
  PrimFloat.eqb (bf_distance r) 0 = false.
Proof.
  unfold bellmanFord. intros H.
  destruct (reconstruct _ _ _ _); [|done]. simpl in H. injection H as <- _.
  apply or_infinity_not_zero.
Qed.

(** C3: asked for a route from a node [s] to itself, [dijkstra] and
    [aStar] answer the path [[s]] and, for the distance, [0 || Infinity],
    which is the infinite sentinel and not 0; and whatever [bellmanFord]
    answers, its distance is not 0. *)
Theorem C3_same_node_query (graph : Graph) (s : string)
    (isEmergency : bool) (fuel : nat) :
  s ∈ Map.keys (nodes graph) →
  dijkstra (S fuel) graph s s isEmergency
    = Some (mkSearchResult [s] infinity [s], graph)
  ∧ aStar (S fuel) graph s s isEmergency
    = Some (mkSearchResult [s] infinity [s], graph)
  ∧ (∀ r graph',
       bellmanFord fuel graph s s isEmergency = Some (r, graph') →
       PrimFloat.eqb (bf_distance r) 0 = false).
Proof.
  intros Hs. split; [|split].
  - unfold dijkstra. rewrite dijkstra_loop_first.
    cbn [mbind option_bind dj_previous].
    rewrite reconstruct_stop
      by (by rewrite init_previous_get, decide_True).
    cbn [mbind option_bind dj_distances dj_visited dj_graph].
    rewrite path_from_single, init_distances_get, decide_True by done.
    by rewrite String.eqb_refl.
  - unfold aStar.
    destruct (Map.get (nodes graph) s) as [node|] eqn:Hn;
      [|by apply get_None in Hn].
    rewrite aStar_loop_first. cbn [mbind option_bind as_previous].
    rewrite reconstruct_stop
      by (by rewrite init_previous_get, decide_True).
    cbn [mbind option_bind as_gScore as_visited as_graph].
    rewrite path_from_single, init_distances_get, decide_True by done.
    by rewrite String.eqb_refl.
  - intros r graph'. apply bellmanFord_distance_not_zero.
Qed.

Lemma C3_same_node_query_witness :
  dijkstra 1 line_graph "A" "A" false
    = Some (mkSearchResult ["A"] infinity ["A"], line_graph)
  ∧ aStar 1 line_graph "A" "A" false
    = Some (mkSearchResult ["A"] infinity ["A"], line_graph)
  ∧ bellmanFord 1 line_graph "A" "A" false
    = Some (mkBellmanFordResult ["A"] infinity false, line_graph).
Proof.
  destruct (C3_same_node_query line_graph "A" false 0) as (Hd & Ha & _).
  { by apply elem_of_cons; left. }
  split; [exact Hd|]. split; [exact Ha|]. vm_compute. reflexivity.
Defined.

(** C1: where the cheapest route costs 0, [dijkstra] finds the route and
    reports the infinite sentinel as its distance: the edge from A to B of
    [free_road_graph] is traversable at cost 0, the path found is A, B and
    the distance returned is infinite.  No call of [dijkstra] returns the
    distance 0. *)
Theorem C1_zero_cost_route_reported_infinite :
  effective_weight (mkEdge "A" "B" 0 0 false) false = Some 0%float
  ∧ dijkstra 3 free_road_graph "A" "B" false
    = Some (mkSearchResult ["A"; "B"] infinity ["A"; "B"], free_road_graph)
  ∧ (∀ fuel graph startId endId isEmergency r graph',
       dijkstra fuel graph startId endId isEmergency = Some (r, graph') →
       PrimFloat.eqb (distance r) 0 = false).
Proof.
  split; [reflexivity|]. split; [vm_compute; reflexivity|].
  intros fuel graph startId endId isEmergency r graph'.
  apply dijkstra_distance_not_zero.
Qed.

Lemma C1_zero_cost_route_reported_infinite_witness :
  PrimFloat.eqb (distance (mkSearchResult ["A"; "B"; "D"] 20 ["A"; "B"; "D"])) 0
  = false.
Proof.
  apply (proj2 (proj2 C1_zero_cost_route_reported_infinite)
           10 line_graph "A" "D" false _ line_graph).
  vm_compute. reflexivity.
Defined.

(** ** The heuristic of [aStar] on the city graph *)

(** C2: on the city graph [aStar] and [dijkstra] disagree.  From E to G
    [dijkstra] finds E, F, G at distance 45; [aStar], led by straight-line
    distances of a hundred and more between nodes whose roads weigh under
    thirty, settles G through J and K at distance 70.5.  The same with
    mixed traffic: 39 against 73.75. *)
Theorem C2_aStar_longer_than_dijkstra :
  (fst <$> dijkstra 100 city_graph "E" "G" false
     = Some (mkSearchResult ["E"; "F"; "G"] 45
               ["E"; "I"; "A"; "F"; "J"; "M"; "B"; "N"; "G"])
   ∧ fst <$> aStar 100 city_graph "E" "G" false
     = Some (mkSearchResult ["E"; "J"; "K"; "G"] 70.5 ["E"; "J"; "K"; "G"]))
  ∧ (fst <$> dijkstra 100 city_graph_mixed "E" "G" false
     = Some (mkSearchResult ["E"; "F"; "G"] 39
               ["E"; "I"; "A"; "F"; "J"; "M"; "N"; "B"; "G"])
   ∧ fst <$> aStar 100 city_graph_mixed "E" "G" false
     = Some (mkSearchResult ["E"; "J"; "K"; "G"] 73.75 ["E"; "J"; "K"; "G"])).
Proof. repeat split; vm_compute; reflexivity. Qed.

(** It is so between 64 of the 256 pairs of nodes of the city graph, and
    between 61 with the mixed traffic. *)
Example city_graph_aStar_longer :
  length (aStar_longer_pairs city_graph) = 64%nat
  ∧ length (aStar_longer_pairs city_graph_mixed) = 61%nat.
Proof. split; vm_compute; reflexivity. Qed.

(** ** Negative cycles *)

(** The flag of a call that returns is the test of the last loop, made on
    the distances the passes leave. *)
Lemma bellmanFord_flag fuel graph startId endId isEmergency r graph' :
  bellmanFord fuel graph startId endId isEmergency = Some (r, graph') →
  hasNegativeCycle r = true ↔
  ∃ edge, edge ∈ allEdges graph isEmergency
    ∧ still_relaxes
        (bf_distances (bellmanFord_passes (allEdges graph isEmergency)
                         (bellmanFord_init graph startId))) edge = true.
Proof.
  unfold bellmanFord. intros H.
  destruct (reconstruct _ _ _ _); [|done]. simpl in H. injection H as <- _.
  simpl. rewrite existsb_exists. split.
  - intros (e & Hin & He). exists e. by rewrite list_elem_of_In.
  - intros (e & Hin & He). exists e. by rewrite <-list_elem_of_In.
Qed.

Lemma negative_cycle_reconstruct fuel c path :
  c ∈ ["A"; "B"; "C"] →
  reconstruct fuel negative_cycle_previous (Some c) path = None.
Proof.
  revert c path. induction fuel as [|fuel IH]; intros c path Hc; [done|].
  simpl. repeat (apply elem_of_cons in Hc as [->|Hc]);
    [| | |by apply elem_of_nil in Hc]; simpl; apply IH.
  - by do 2 (apply elem_of_cons; right); apply elem_of_cons; left.
  - by apply elem_of_cons; left.
  - by apply elem_of_cons; right; apply elem_of_cons; left.
Qed.

(** C5: the flag [bellmanFord] returns is true exactly when, after the
    passes, an edge of [allEdges] still relaxes.  On the cycle of three
    edges of weight -5, from A, the two passes leave such an edge, so the
    flag is computed as true; they also leave every node the predecessor of
    another, and for a destination among the three nodes the loop that
    rebuilds the path has no end: the call returns nothing, whatever the
    fuel.  For a destination that is no node the flag is returned. *)
Theorem C5_negative_cycle_no_result :
  (∀ fuel graph startId endId isEmergency r graph',
     bellmanFord fuel graph startId endId isEmergency = Some (r, graph') →
     hasNegativeCycle r = true ↔
     ∃ edge, edge ∈ allEdges graph isEmergency
       ∧ still_relaxes
           (bf_distances (bellmanFord_passes (allEdges graph isEmergency)
                            (bellmanFord_init graph startId))) edge = true)
  ∧ (let flat := allEdges negative_cycle_graph false in
     let st := bellmanFord_passes flat
                 (bellmanFord_init negative_cycle_graph "A") in
     existsb (still_relaxes (bf_distances st)) flat = true
     ∧ bf_previous st = negative_cycle_previous)
  ∧ (∀ fuel endId, endId ∈ ["A"; "B"; "C"] →
       bellmanFord fuel negative_cycle_graph "A" endId false = None)
  ∧ bellmanFord 1 negative_cycle_graph "A" "Z" false
    = Some (mkBellmanFordResult [] infinity true, negative_cycle_graph).
Proof.
  split; [|split; [|split]].
  - intros fuel graph startId endId isEmergency r graph'.
    apply bellmanFord_flag.
  - split; vm_compute; reflexivity.
  - intros fuel endId HendId. unfold bellmanFord. cbn zeta.
    change (bf_previous _) with negative_cycle_previous.
    by rewrite negative_cycle_reconstruct.
  - vm_compute. reflexivity.
Qed.

Lemma C5_negative_cycle_no_result_witness :
  bellmanFord 1000 negative_cycle_graph "A" "C" false = None.
Proof.
  apply (proj1 (proj2 (proj2 C5_negative_cycle_no_result)) 1000 "C").
  by do 2 (apply elem_of_cons; right); apply elem_of_cons; left.
Defined.

(** ** The order of the numbers *)

Section FloatOrder.

Lemma SFcompare_key x y :
  match SFcompare x y, sf_key x, sf_key y with
  | Some Lt, Some a, Some b => key_lt a b
  | Some Eq, Some a, Some b => key_le a b ∧ key_le b a
  | Some Gt, Some a, Some b => key_lt b a
  | None, None, _ | None, _, None => True
  | _, _, _ => False
  end.
Proof.
  destruct x as [sx|sx| |sx mx ex], y as [sy|sy| |sy my ey]; simpl;
    try done; try (destruct sx; simpl; lia); try (destruct sy; simpl; lia);
    try (destruct sx, sy; simpl; lia).
  destruct sx, sy; simpl; try lia.
  - destruct (Z.compare_spec ex ey); simpl; try lia.
    change (Pos.compare_cont Eq mx my) with (Pos.compare mx my).
    destruct (Pos.compare_spec mx my); simpl; lia.
  - destruct (Z.compare_spec ex ey); simpl; try lia.
    change (Pos.compare_cont Eq mx my) with (Pos.compare mx my).
    destruct (Pos.compare_spec mx my); simpl; lia.
Qed.

Lemma leb_key a b :
  PrimFloat.leb a b = true ↔
  ∃ ka kb, fkey a = Some ka ∧ fkey b = Some kb ∧ key_le ka kb.
Proof.
  rewrite leb_spec. unfold SFleb, fkey.
  pose proof (SFcompare_key (Prim2SF a) (Prim2SF b)) as H.
  destruct (SFcompare _ _) as [[| |]|], (sf_key (Prim2SF a)) as [[[a1 a2] a3]|],
    (sf_key (Prim2SF b)) as [[[b1 b2] b3]|]; simpl in *; try done;
    try (split; [intros _; eexists _, _; repeat split; simpl; lia
                |done]);
    try (split; [done|intros (ka & kb & [= <-] & [= <-] & Hle); simpl in *; lia]);
    try (split; [done|intros (ka & kb & ? & ? & _); done]).
Qed.

Lemma ltb_key a b :
  PrimFloat.ltb a b = true ↔
  ∃ ka kb, fkey a = Some ka ∧ fkey b = Some kb ∧ key_lt ka kb.
Proof.
  rewrite ltb_spec. unfold SFltb, fkey.
  pose proof (SFcompare_key (Prim2SF a) (Prim2SF b)) as H.
  destruct (SFcompare _ _) as [[| |]|], (sf_key (Prim2SF a)) as [[[a1 a2] a3]|],
    (sf_key (Prim2SF b)) as [[[b1 b2] b3]|]; simpl in *; try done;
    try (split; [intros _; eexists _, _; repeat split; simpl; lia
                |done]);
    try (split; [done|intros (ka & kb & [= <-] & [= <-] & Hle); simpl in *; lia]);
    try (split; [done|intros (ka & kb & ? & ? & _); done]).
Qed.

Lemma is_num_key a : is_num a = true ↔ ∃ k, fkey a = Some k.
Proof.
  unfold is_num. rewrite eqb_spec. unfold SFeqb, fkey.
  pose proof (SFcompare_key (Prim2SF a) (Prim2SF a)) as H.
  destruct (SFcompare _ _) as [[| |]|], (sf_key (Prim2SF a)) as [[[a1 a2] a3]|];
    simpl in *; try done; try lia;
    try (split; [by eexists|done]);
    try (split; [done|by intros [? ?]]).
Qed.

Lemma leb_trans a b c :
  PrimFloat.leb a b = true → PrimFloat.leb b c = true → PrimFloat.leb a c = true.
Proof.
  rewrite !leb_key.
  intros ([[a1 a2] a3] & [[b1 b2] b3] & Ha & Hb & H1)
         ([[b1' b2'] b3'] & [[c1 c2] c3] & Hb' & Hc & H2).
  rewrite Hb in Hb'. injection Hb' as <- <- <-.
  eexists _, _. repeat split; [done..|]. simpl in *. lia.
Qed.

Lemma ltb_leb a b : PrimFloat.ltb a b = true → PrimFloat.leb a b = true.
Proof.
  rewrite ltb_key, leb_key.
  intros ([[a1 a2] a3] & [[b1 b2] b3] & Ha & Hb & H1).
  eexists _, _. repeat split; [done..|]. simpl in *. lia.
Qed.

Lemma not_ltb_leb a b :
  is_num a = true → is_num b = true →
  PrimFloat.ltb a b = false → PrimFloat.leb b a = true.
Proof.
  rewrite !is_num_key. intros [[[a1 a2] a3] Ha] [[[b1 b2] b3] Hb] Hlt.
  apply leb_key. eexists _, _. repeat split; [done..|].
  destruct (decide (key_lt (a1, a2, a3) (b1, b2, b3))) as [H|H].
  - assert (PrimFloat.ltb a b = true) by (apply ltb_key; by eexists _, _).
    congruence.
  - simpl in *. lia.
Qed.

Lemma not_leb_leb a b :
  is_num a = true → is_num b = true →
  PrimFloat.leb a b = false → PrimFloat.leb b a = true.
Proof.
  rewrite !is_num_key. intros [[[a1 a2] a3] Ha] [[[b1 b2] b3] Hb] Hle.
  apply leb_key. eexists _, _. repeat split; [done..|].
  destruct (decide (key_le (a1, a2, a3) (b1, b2, b3))) as [H|H].
  - assert (PrimFloat.leb a b = true) by (apply leb_key; by eexists _, _).
    congruence.
  - simpl in *. lia.
Qed.

Lemma leb_refl a : is_num a = true → PrimFloat.leb a a = true.
Proof.
  rewrite is_num_key. intros [[[a1 a2] a3] Ha].
  apply leb_key. eexists _, _. repeat split; [done..|]. simpl. lia.
Qed.

Lemma leb_num a b :
  PrimFloat.leb a b = true → is_num a = true ∧ is_num b = true.
Proof.
  rewrite leb_key, !is_num_key. intros (ka & kb & Ha & Hb & _).
  split; by eexists.
Qed.

End FloatOrder.

(** ** The priority queue is a heap *)

Section HeapOrderFacts.

Context {T : Type}.
Implicit Types (h : heap T) (a b p c g x : item T) (i j k : nat).

Lemma parent_lt i : (0 < i)%nat → (parent i < i)%nat.
Proof.
  intros Hi. unfold parent.
  assert ((i - 1) / 2 ≤ i - 1)%nat by (apply Nat.Div0.div_le_upper_bound; lia).
  lia.
Qed.

Lemma parent_child k j :
  (0 < k)%nat → parent k = j ↔ k = (2 * j + 1)%nat ∨ k = (2 * j + 2)%nat.
Proof.
  intros Hc. unfold parent.
  pose proof (Nat.div_mod_eq (k - 1) 2) as Hdm.
  pose proof (Nat.mod_upper_bound (k - 1) 2) as Hm.
  split.
  - intros <-. lia.
  - intros [-> | ->].
    + replace (2 * j + 1 - 1)%nat with (j * 2)%nat by lia.
      by rewrite Nat.div_mul.
    + replace (2 * j + 2 - 1)%nat with (1 + j * 2)%nat by lia.
      rewrite Nat.div_add by done. done.
Qed.

Lemma parent_cases k j :
  (0 < k)%nat → parent k = j → k = (2 * j + 1)%nat ∨ k = (2 * j + 2)%nat.
Proof. intros Hk. by apply parent_child. Qed.

Lemma all_num_lookup h i a : all_num h → h !! i = Some a → is_num (priority a) = true.
Proof. intros Hn Hi. by eapply (Forall_lookup_1 _ _ _ _ Hn). Qed.

Lemma all_num_perm h h' : h ≡ₚ h' → all_num h → all_num h'.
Proof. intros Hp. unfold all_num. by rewrite Hp. Qed.

Lemma item_le_trans a b x : item_le a b → item_le b x → item_le a x.
Proof. apply leb_trans. Qed.

Lemma swap_lookup h i j a b k :
  h !! i = Some a → h !! j = Some b →
  swap h i j !! k
  = if decide (k = j) then Some a else if decide (k = i) then Some b else h !! k.
Proof.
  intros Hi Hj. unfold swap. rewrite Hi, Hj. unfold heap in *.
  apply lookup_lt_Some in Hi as Hli. apply lookup_lt_Some in Hj as Hlj.
  destruct (decide (k = j)) as [->|Hkj].
  - by rewrite list_lookup_insert_eq by (by rewrite length_insert).
  - rewrite list_lookup_insert_ne by done.
    destruct (decide (k = i)) as [->|Hki].
    + by rewrite list_lookup_insert_eq.
    + by rewrite list_lookup_insert_ne.
Qed.

Lemma up_ok_swap h j p c :
  all_num h → (0 < j)%nat →
  h !! parent j = Some p → h !! j = Some c →
  PrimFloat.leb (priority p) (priority c) = false →
  up_ok h j → up_ok (swap h (parent j) j) (parent j).
Proof.
  intros Hnum Hj Hp Hc Hle [Hord Hgrand].
  pose proof (parent_lt j Hj) as Hlt.
  assert (Hcp : item_le c p).
  { apply not_leb_leb; [by eapply all_num_lookup..|done]. }
  split.
  - intros i x y Hi Hne. rewrite !(swap_lookup h _ _ p c) by done.
    destruct (decide (i = j)) as [->|Hij].
    + rewrite decide_False by lia. rewrite (decide_True (P := parent j = parent j)) by done.
      by intros [= <-] [= <-].
    + rewrite (decide_False (P := i = parent j)) by done.
      destruct (decide (parent i = j)) as [Hpi|Hpi].
      * intros [= <-] Hy. by eapply (Hgrand i).
      * destruct (decide (parent i = parent j)) as [Hpp|Hpp].
        -- intros [= <-] Hy. eapply item_le_trans; [exact Hcp|].
           eapply (Hord i); [done|done| |done]. by rewrite Hpp.
        -- intros Hx Hy. by eapply (Hord i).
  - intros k g x Hpj Hk Hpk. rewrite !(swap_lookup h _ _ p c) by done.
    pose proof (parent_lt _ Hpj). pose proof (parent_lt _ Hk).
    rewrite (decide_False (P := parent (parent j) = j)) by lia.
    rewrite (decide_False (P := parent (parent j) = parent j)) by lia.
    intros Hg.
    assert (Hgp : item_le g p) by (eapply (Hord (parent j)); [done|lia|done|done]).
    destruct (decide (k = j)) as [->|Hkj]; [by intros [= <-]|].
    rewrite decide_False by lia. intros Hx.
    eapply item_le_trans; [exact Hgp|].
    eapply (Hord k); [done|done| |done]. by rewrite Hpk.
Qed.

Lemma bubbleUp_ordered fuel h j :
  all_num h → (j ≤ fuel)%nat → up_ok h j → heap_ordered (bubbleUp fuel h j).
Proof.
  revert h j. induction fuel as [|fuel IH]; intros h j Hnum Hfuel Hup.
  { assert (j = 0)%nat as -> by lia. intros i p c Hi. apply (proj1 Hup); lia. }
  cbn [bubbleUp]. fold (parent j).
  destruct (0 <? j)%nat eqn:Hj.
  2:{ apply Nat.ltb_ge in Hj. assert (j = 0)%nat as -> by lia.
      intros i p c Hi. apply (proj1 Hup); lia. }
  apply Nat.ltb_lt in Hj.
  destruct (h !! parent j) as [p|] eqn:Hp.
  2:{ intros i x y Hi Hx Hy. destruct (decide (i = j)) as [->|Hne].
      - congruence.
      - by eapply (proj1 Hup i). }
  destruct (h !! j) as [c|] eqn:Hc.
  2:{ intros i x y Hi Hx Hy. destruct (decide (i = j)) as [->|Hne].
      - congruence.
      - by eapply (proj1 Hup i). }
  destruct (PrimFloat.leb (priority p) (priority c)) eqn:Hle.
  - intros i x y Hi Hx Hy. destruct (decide (i = j)) as [->|Hne].
    + rewrite Hp in Hx. rewrite Hc in Hy. injection Hx as <-. by injection Hy as <-.
    + by eapply (proj1 Hup i).
  - apply IH.
    + eapply all_num_perm; [|done]. symmetry. apply swap_perm.
    + pose proof (parent_lt j Hj). lia.
    + by apply (up_ok_swap h j p c).
Qed.

Lemma bubbleDown_step fuel h j :
  bubbleDown (S fuel) h j
  = if (smallest_of h j =? j)%nat then h
    else bubbleDown fuel (swap h (smallest_of h j) j) (smallest_of h j).
Proof. reflexivity. Qed.

Lemma priority_lt_false h i j a b :
  all_num h → h !! i = Some a → h !! j = Some b →
  priority_lt h i j = false → item_le b a.
Proof.
  intros Hnum Hi Hj. unfold priority_lt. rewrite Hi, Hj.
  apply not_ltb_leb; by eapply all_num_lookup.
Qed.

Lemma priority_lt_true h i j :
  priority_lt h i j = true →
  ∃ a b, h !! i = Some a ∧ h !! j = Some b ∧ item_le a b.
Proof.
  unfold priority_lt. destruct (h !! i) as [a|]; [|done].
  destruct (h !! j) as [b|]; [|done]. intros H%ltb_leb. by exists a, b.
Qed.

Lemma smallest_spec h j :
  all_num h →
  let s := smallest_of h j in
  (s = j ∧ ∀ k p x, (0 < k)%nat → parent k = j →
             h !! j = Some p → h !! k = Some x → item_le p x)
  ∨ (s ≠ j ∧ (0 < s)%nat ∧ parent s = j ∧
     ∃ x y, h !! s = Some x ∧ h !! j = Some y ∧ item_le x y ∧
       ∀ k z, (0 < k)%nat → parent k = j → h !! k = Some z → item_le x z).
Proof.
  intros Hnum. unfold smallest_of. cbv zeta.
  assert (Hsame : ∀ i u v, h !! i = Some u → h !! i = Some v → u = v)
    by (intros; congruence).
  assert (Hrefl : ∀ i u, h !! i = Some u → item_le u u)
    by (intros i u Hu; apply leb_refl; by eapply all_num_lookup).
  destruct (Nat.ltb_spec (2 * j + 1) (length h)) as [Hl|Hl].
  2:{ rewrite (proj2 (Nat.ltb_ge (2 * j + 2) (length h))) by lia. simpl.
      left. split; [done|]. intros k p x Hk Hpk _ Hx.
      apply lookup_lt_Some in Hx. apply parent_cases in Hpk; [|done]. lia. }
  destruct (lookup_lt_is_Some_2 h (2 * j + 1)%nat Hl) as [xl Hxl].
  destruct (lookup_lt_is_Some_2 h j) as [xj Hxj]; [lia|].
  assert (Hp : parent (2 * j + 1) = j) by (apply parent_child; lia).
  assert (Hp' : parent (2 * j + 2) = j) by (apply parent_child; lia).
  destruct (Nat.ltb_spec (2 * j + 2) (length h)) as [Hr|Hr]; cbn [andb].
  - destruct (lookup_lt_is_Some_2 h (2 * j + 2)%nat Hr) as [xr Hxr].
    destruct (priority_lt h (2 * j + 1) j) eqn:E1.
    + apply priority_lt_true in E1 as (a & b & Ha & Hb & Hab).
      rewrite (Hsame _ _ _ Ha Hxl), (Hsame _ _ _ Hb Hxj) in Hab. clear a b Ha Hb.
      destruct (priority_lt h (2 * j + 2) (2 * j + 1)) eqn:E2.
      * apply priority_lt_true in E2 as (a & b & Ha & Hb & Hab2).
        rewrite (Hsame _ _ _ Ha Hxr), (Hsame _ _ _ Hb Hxl) in Hab2. clear a b Ha Hb.
        right. split; [lia|]. split; [lia|]. split; [done|].
        exists xr, xj. split; [done|]. split; [done|].
        split; [eapply item_le_trans; eassumption|].
        intros k z Hk Hpk Hz; destruct (parent_cases k j Hk Hpk) as [-> | ->].
        -- by rewrite <- (Hsame _ _ _ Hxl Hz).
        -- rewrite <- (Hsame _ _ _ Hxr Hz). by eapply Hrefl.
      * apply (priority_lt_false _ _ _ xr xl) in E2; [|done..].
        right. split; [lia|]. split; [lia|]. split; [done|].
        exists xl, xj. split; [done|]. split; [done|]. split; [done|].
        intros k z Hk Hpk Hz; destruct (parent_cases k j Hk Hpk) as [-> | ->].
        -- rewrite <- (Hsame _ _ _ Hxl Hz). by eapply Hrefl.
        -- by rewrite <- (Hsame _ _ _ Hxr Hz).
    + apply (priority_lt_false _ _ _ xl xj) in E1; [|done..].
      destruct (priority_lt h (2 * j + 2) j) eqn:E2.
      * apply priority_lt_true in E2 as (a & b & Ha & Hb & Hab2).
        rewrite (Hsame _ _ _ Ha Hxr), (Hsame _ _ _ Hb Hxj) in Hab2. clear a b Ha Hb.
        right. split; [lia|]. split; [lia|]. split; [done|].
        exists xr, xj. split; [done|]. split; [done|]. split; [done|].
        intros k z Hk Hpk Hz; destruct (parent_cases k j Hk Hpk) as [-> | ->].
        -- rewrite <- (Hsame _ _ _ Hxl Hz). eapply item_le_trans; eassumption.
        -- rewrite <- (Hsame _ _ _ Hxr Hz). by eapply Hrefl.
      * apply (priority_lt_false _ _ _ xr xj) in E2; [|done..].
        left. split; [done|].
        intros k p x Hk Hpk Hpj Hx; destruct (parent_cases k j Hk Hpk) as [-> | ->].
        -- by rewrite <- (Hsame _ _ _ Hxl Hx), <- (Hsame _ _ _ Hxj Hpj).
        -- by rewrite <- (Hsame _ _ _ Hxr Hx), <- (Hsame _ _ _ Hxj Hpj).
  - destruct (priority_lt h (2 * j + 1) j) eqn:E1.
    + apply priority_lt_true in E1 as (a & b & Ha & Hb & Hab).
      rewrite (Hsame _ _ _ Ha Hxl), (Hsame _ _ _ Hb Hxj) in Hab. clear a b Ha Hb.
      right. split; [lia|]. split; [lia|]. split; [done|].
      exists xl, xj. split; [done|]. split; [done|]. split; [done|].
      intros k z Hk Hpk Hz; destruct (parent_cases k j Hk Hpk) as [-> | ->].
      * rewrite <- (Hsame _ _ _ Hxl Hz). by eapply Hrefl.
      * apply lookup_lt_Some in Hz. lia.
    + apply (priority_lt_false _ _ _ xl xj) in E1; [|done..].
      left. split; [done|].
      intros k p x Hk Hpk Hpj Hx; destruct (parent_cases k j Hk Hpk) as [-> | ->].
      * by rewrite <- (Hsame _ _ _ Hxl Hx), <- (Hsame _ _ _ Hxj Hpj).
      * apply lookup_lt_Some in Hx. lia.
Qed.

Lemma down_ok_swap h j :
  all_num h → smallest_of h j ≠ j → down_ok h j →
  down_ok (swap h (smallest_of h j) j) (smallest_of h j).
Proof.
  intros Hnum Hne [Hord Hgrand].
  destruct (smallest_spec h j Hnum) as [[? _]|(_ & Hs & Hps & x & y & Hx & Hy & Hxy & Hmin)];
    [done|].
  set (s := smallest_of h j) in *.
  pose proof (parent_lt s Hs) as Hlt. rewrite Hps in Hlt.
  split.
  - intros i p c Hi Hpi. rewrite !(swap_lookup h _ _ x y) by done.
    destruct (decide (parent i = j)) as [Hpj|Hpj].
    + intros [= <-].
      destruct (decide (i = j)) as [->|Hij].
      { pose proof (parent_lt j Hi). lia. }
      destruct (decide (i = s)) as [->|His]; [by intros [= <-]|].
      intros Hc. by eapply (Hmin i).
    + rewrite (decide_False (P := parent i = s)) by done. intros Hp.
      destruct (decide (i = j)) as [->|Hij].
      * intros [= <-]. eapply (Hgrand s); [lia|done|done|done|done].
      * destruct (decide (i = s)) as [->|His]; [done|].
        intros Hc. by eapply (Hord i).
  - intros k g w _ Hk Hpk. rewrite !(swap_lookup h _ _ x y) by done.
    pose proof (parent_lt k Hk).
    rewrite Hps. rewrite (decide_True (P := j = j)) by done. intros [= <-].
    rewrite (decide_False (P := k = j)) by lia.
    rewrite (decide_False (P := k = s)) by lia. intros Hw.
    eapply (Hord k); [done|lia| |done]. by rewrite Hpk.
Qed.

Lemma smallest_of_gt h j : smallest_of h j ≠ j → (j < smallest_of h j)%nat.
Proof.
  unfold smallest_of. cbv zeta.
  repeat match goal with |- context [if ?b then _ else _] => destruct b end; lia.
Qed.

Lemma bubbleDown_ordered fuel h j :
  all_num h → (length h ≤ fuel + j)%nat → down_ok h j →
  heap_ordered (bubbleDown fuel h j).
Proof.
  revert h j. induction fuel as [|fuel IH]; intros h j Hnum Hfuel Hdown.
  { cbn [bubbleDown]. intros i p c Hi Hp Hc. apply (proj1 Hdown i); [done| |done|done].
    apply lookup_lt_Some in Hp. unfold heap in *. lia. }
  rewrite bubbleDown_step.
  destruct (Nat.eqb_spec (smallest_of h j) j) as [Heq|Hne].
  - destruct (smallest_spec h j Hnum) as [[_ Hmin]|[? _]]; [|done].
    intros i p c Hi Hp Hc. destruct (decide (parent i = j)) as [Hpi|Hpi].
    + eapply (Hmin i); [done|done| |done]. by rewrite <- Hpi.
    + by eapply (proj1 Hdown i).
  - apply IH.
    + eapply all_num_perm; [|done]. symmetry. apply swap_perm.
    + rewrite swap_length. pose proof (smallest_of_gt h j Hne). lia.
    + by apply down_ok_swap.
Qed.

Lemma root_min h m :
  heap_ok h → h !! 0%nat = Some m → ∀ x, x ∈ h → item_le m x.
Proof.
  intros [Hnum Hord] Hm x [i Hi]%list_elem_of_lookup_1. unfold heap in *.
  revert x Hi. induction (lt_wf i) as [i _ IH]. intros x Hi.
  destruct (decide (i = 0)%nat) as [->|Hne].
  { assert (x = m) as -> by congruence. apply leb_refl. by eapply all_num_lookup. }
  assert (Hpi : (parent i < i)%nat) by (apply parent_lt; lia).
  destruct (lookup_lt_is_Some_2 h (parent i)) as [p Hp].
  { apply lookup_lt_Some in Hi. lia. }
  eapply item_le_trans; [by apply (IH (parent i))|].
  eapply (Hord i); [lia|done|done].
Qed.

Lemma heap_ok_nil : heap_ok (@nil (item T)).
Proof. split; [constructor|]. by intros i p c _ ?. Qed.

Lemma enqueue_heap_ok h (v : T) (pr : float) :
  heap_ok h → is_num pr = true → heap_ok (enqueue h v pr).
Proof.
  intros [Hnum Hord] Hp. unfold enqueue. cbv zeta.
  assert (Hnum' : all_num (h ++ [mkItem pr v])).
  { apply Forall_app. split; [done|]. by repeat constructor. }
  rewrite length_app. cbn [length]. replace (length h + 1 - 1)%nat with (length h) by lia.
  split.
  - eapply all_num_perm; [|exact Hnum']. symmetry. apply bubbleUp_perm.
  - apply bubbleUp_ordered; [done|done|]. split.
    + intros i x y Hi Hne Hx Hy. unfold heap in *.
      assert (i < length h)%nat.
      { apply lookup_lt_Some in Hy. rewrite length_app in Hy. simpl in Hy. lia. }
      pose proof (parent_lt i Hi).
      rewrite lookup_app_l in Hx by lia. rewrite lookup_app_l in Hy by lia.
      by eapply (Hord i).
    + intros k g x _ Hk Hpk _ Hx. pose proof (parent_lt k Hk).
      apply lookup_lt_Some in Hx. rewrite length_app in Hx. simpl in Hx. lia.
Qed.

Lemma removelast_lookup {A} (l : list A) i :
  (i < length (removelast l))%nat → removelast l !! i = l !! i.
Proof.
  destruct l as [|a l]; [simpl; lia|]. intros Hi.
  rewrite (app_removelast_last a (l := a :: l)) at 2 by done.
  by rewrite lookup_app_l.
Qed.

Lemma dequeue_heap_ok h v h' :
  heap_ok h → dequeue h = Some (v, h') →
  heap_ok h' ∧
  ∃ m, head h = Some m ∧ value m = v ∧ h ≡ₚ m :: h' ∧ ∀ x, x ∈ h → item_le m x.
Proof.
  intros Hok Hd.
  assert (Hleast : ∀ m, head h = Some m → ∀ x, x ∈ h → item_le m x).
  { intros m Hm. apply root_min; [done|]. by destruct h. }
  destruct Hok as [Hnum Hord].
  destruct h as [|min [|x t]]; [done| |].
  - injection Hd as <- <-. split; [apply heap_ok_nil|].
    exists min. split; [done|]. split; [done|]. split; [done|]. by apply Hleast.
  - rewrite dequeue_cons in Hd.
    set (new := List.last (x :: t) min :: removelast (x :: t)) in *.
    set (bd := bubbleDown _ _ _) in Hd.
    assert (Hperm : new ≡ₚ x :: t).
    { unfold new. rewrite (app_removelast_last min (l := x :: t)) at 3 by done.
      apply Permutation_cons_append. }
    assert (Hnum' : all_num new).
    { eapply all_num_perm; [symmetry; exact Hperm|]. by inversion Hnum. }
    assert (Hbd : heap_ok bd).
    { split.
      - eapply all_num_perm; [|exact Hnum']. symmetry. apply bubbleDown_perm.
      - apply bubbleDown_ordered; [done|simpl; lia|]. split.
        + intros i p c Hi Hpi Hp Hc.
          assert (0 < parent i)%nat by lia.
          pose proof (parent_lt i Hi).
          eapply (Hord i); [done| |].
          * rewrite <- Hp. unfold new.
            destruct (parent i) as [|k] eqn:Hk; [lia|]. simpl.
            symmetry. apply (removelast_lookup (x :: t)).
            apply lookup_lt_Some in Hp. unfold new in Hp. simpl in Hp. simpl. lia.
          * rewrite <- Hc. unfold new.
            destruct i as [|k]; [lia|]. simpl.
            symmetry. apply (removelast_lookup (x :: t)).
            apply lookup_lt_Some in Hc. unfold new in Hc. simpl in Hc. simpl. lia.
        + intros k g w Hlt. lia. }
    assert (Hbp : bd ≡ₚ new) by apply bubbleDown_perm.
    clearbody bd. injection Hd as <- <-. split; [done|].
    exists min. split; [done|]. split; [done|]. split; [|by apply Hleast].
    by rewrite Hbp, Hperm.
Qed.

(** No number is at or below NaN, so [bubbleUp] never stops at an item
    whose priority is NaN. *)
Lemma leb_nan_r (v : float) : PrimFloat.leb v nan = false.
Proof.
  rewrite leb_spec. unfold SFleb.
  change (Prim2SF nan) with S754_nan.
  by destruct (Prim2SF v).
Qed.

Lemma bubbleUp_nan fuel h j c :
  (j ≤ fuel)%nat → h !! j = Some c → priority c = nan →
  bubbleUp fuel h j !! 0%nat = Some c.
Proof.
  revert h j. induction fuel as [|fuel IH]; intros h j Hfuel Hc Hnan.
  { by assert (j = 0)%nat as -> by lia. }
  cbn [bubbleUp]. fold (parent j).
  destruct (Nat.ltb_spec 0 j) as [Hj|Hj].
  2:{ by assert (j = 0)%nat as -> by lia. }
  pose proof (parent_lt j Hj) as Hlt.
  destruct (lookup_lt_is_Some_2 h (parent j)) as [p Hp].
  { apply lookup_lt_Some in Hc. lia. }
  unfold heap in *. rewrite Hp, Hc, Hnan, leb_nan_r.
  apply IH; [lia| |done].
  rewrite (swap_lookup h _ _ p c) by done.
  rewrite decide_False by lia. by rewrite decide_True.
Qed.

End HeapOrderFacts.


(** X1: on a queue that is a heap, [enqueue] with a priority that is not
    NaN gives a heap again, which holds the new item and the items of the
    queue, each as often as before. *)
Theorem PriorityQueue_enqueue_heap {T : Type} (h : heap T) (v : T)
    (p : float) :
  heap_ok h → is_num p = true →
  heap_ok (enqueue h v p) ∧ enqueue h v p ≡ₚ mkItem p v :: h.
Proof.
  intros Hok Hp. split; [by apply enqueue_heap_ok|apply enqueue_perm].
Qed.

Lemma sample_heap_ok : heap_ok sample_heap.
Proof. repeat apply enqueue_heap_ok; [apply heap_ok_nil|done..]. Qed.

Lemma PriorityQueue_enqueue_heap_witness :
  heap_ok (enqueue sample_heap "D" 0%float)
  ∧ enqueue sample_heap "D" 0%float ≡ₚ mkItem 0%float "D" :: sample_heap.
Proof.
  apply (PriorityQueue_enqueue_heap sample_heap "D" 0%float);
    [apply sample_heap_ok|reflexivity].
Defined.

(** X2: on a queue that is a heap, [dequeue] returns the value of the item
    at the root, no item of the queue has a priority below that item's, and
    what is left is a heap that holds the other items, each as often as
    before. *)
Theorem PriorityQueue_dequeue_least {T : Type} (h : heap T) (v : T)
    (h' : heap T) :
  heap_ok h → dequeue h = Some (v, h') →
  ∃ m, head h = Some m ∧ value m = v
       ∧ (∀ x, x ∈ h → PrimFloat.leb (priority m) (priority x) = true)
       ∧ h ≡ₚ m :: h' ∧ heap_ok h'.
Proof.
  intros Hok Hd.
  destruct (dequeue_heap_ok h v h' Hok Hd) as (Hok' & m & Hm & Hv & Hp & Hle).
  by exists m.
Qed.

Lemma PriorityQueue_dequeue_least_witness :
  ∃ m, head sample_heap = Some m ∧ value m = "B"
       ∧ (∀ x, x ∈ sample_heap →
            PrimFloat.leb (priority m) (priority x) = true)
       ∧ sample_heap ≡ₚ m :: [mkItem 2%float "C"; mkItem 3%float "A"]
       ∧ heap_ok [mkItem 2%float "C"; mkItem 3%float "A"].
Proof.
  apply (PriorityQueue_dequeue_least sample_heap "B");
    [apply sample_heap_ok|reflexivity].
Defined.

(** X3: an item enqueued with the priority NaN goes to the root of the
    queue, whatever the queue holds, and is what the next [dequeue]
    returns. *)
Theorem PriorityQueue_enqueue_nan {T : Type} (h : heap T) (v : T) :
  head (enqueue h v nan) = Some (mkItem nan v)
  ∧ ∃ h', dequeue (enqueue h v nan) = Some (v, h').
Proof.
  assert (Hroot : head (enqueue h v nan) = Some (mkItem nan v)).
  { rewrite head_lookup. unfold enqueue. cbv zeta.
    apply bubbleUp_nan; [done| |done].
    rewrite length_app. cbn [length].
    replace (length h + 1 - 1)%nat with (length h) by lia.
    unfold heap. by rewrite lookup_app_r, Nat.sub_diag. }
  split; [done|].
  destruct (enqueue h v nan) as [|m t] eqn:E; [done|].
  injection Hroot as ->. unfold dequeue.
  destruct (0 <? _)%nat; by eexists.
Qed.

(** ** Roads and walks *)

Lemma get_entry {V : Type} (m : Map.t V) (k : string) (v : V) :
  Map.get m k = Some v → (k, v) ∈ m.
Proof.
  induction m as [|[k' v'] m IH]; simpl; [done|].
  destruct (String.eqb k' k) eqn:E.
  - intros [= ->]. apply String.eqb_eq in E as ->. by left.
  - intros H. right. by apply IH.
Qed.

Lemma traversable_spec (isEmergency : bool) (edge : Edge) :
  traversable isEmergency edge = negb (edge_blocked edge && negb isEmergency).
Proof. unfold traversable. by destruct (edge_blocked edge), isEmergency. Qed.

Lemma road_edge graph isEmergency a b es e :
  (a, es) ∈ edges graph → e ∈ es →
  traversable isEmergency e = true → edge_to e = b →
  road graph isEmergency a b = true.
Proof.
  intros Hes He Ht Hb. unfold road. apply existsb_exists.
  exists (a, es). split; [by apply list_elem_of_In|].
  rewrite String.eqb_refl. simpl. apply existsb_exists. exists e.
  split; [by apply list_elem_of_In|]. rewrite Ht. simpl.
  by apply String.eqb_eq.
Qed.

Lemma road_inv graph isEmergency a b :
  road graph isEmergency a b = true →
  ∃ es e, (a, es) ∈ edges graph ∧ e ∈ es
          ∧ traversable isEmergency e = true ∧ edge_to e = b.
Proof.
  unfold road. intros ([from es] & Hin & H)%existsb_exists.
  apply andb_prop in H as [->%String.eqb_eq (e & He & H)%existsb_exists].
  apply andb_prop in H as [Ht Hb%String.eqb_eq].
  exists es, e. by rewrite !list_elem_of_In.
Qed.

Lemma is_walk_cons graph isEmergency a b rest :
  is_walk graph isEmergency (a :: b :: rest)
  = road graph isEmergency a b && is_walk graph isEmergency (b :: rest).
Proof. reflexivity. Qed.

Lemma is_walk_snoc graph isEmergency p u v :
  last p = Some u → is_walk graph isEmergency p = true →
  road graph isEmergency u v = true →
  is_walk graph isEmergency (p ++ [v]) = true.
Proof.
  intros Hl Hw Hr. induction p as [|a [|b p] IH]; [done| |].
  - injection Hl as ->. simpl. by rewrite Hr.
  - rewrite is_walk_cons in Hw. apply andb_prop in Hw as [H1 H2].
    change ((a :: b :: p) ++ [v]) with (a :: b :: (p ++ [v])).
    rewrite is_walk_cons, H1. simpl. by apply IH.
Qed.

Lemma reach_refl graph isEmergency s : reach graph isEmergency s s.
Proof. by exists [s]. Qed.

Lemma reach_step graph isEmergency s u v :
  reach graph isEmergency s u → road graph isEmergency u v = true →
  reach graph isEmergency s v.
Proof.
  intros (p & Hh & Hl & Hw) Hr. exists (p ++ [v]).
  split; [by destruct p|]. split; [by rewrite last_snoc|].
  by eapply is_walk_snoc.
Qed.

(** ** Predecessors follow roads *)

Section RouteInvariant.

Variables (graph : Graph) (startId : string) (isEmergency : bool).

Lemma route_inv_init p :
  route_inv graph startId isEmergency (init_distances graph startId)
    (init_previous graph) [] (enqueue [] startId p).
Proof.
  split.
  - by intros v ?%elem_of_nil.
  - intros v [->|Hv]%enqueue_values; [apply reach_refl|].
    by apply elem_of_nil in Hv.
  - intros v u. rewrite init_previous_get. by destruct (decide _).
  - intros v u. rewrite init_previous_get. by destruct (decide _).
  - left. apply enqueue_values. by left.
  - done.
Qed.

(** A relaxation along a road from an id of the trace. *)
Lemma route_inv_relax dist prev trace pq current neighbor d p :
  route_inv graph startId isEmergency dist prev trace pq →
  current ∈ trace → road graph isEmergency current neighbor = true →
  route_inv graph startId isEmergency (Map.set dist neighbor d)
    (Map.set prev neighbor (Some current)) trace (enqueue pq neighbor p).
Proof.
  intros [Ht Hq Hp Hs Hst Hd] Hcur Hroad. split.
  - done.
  - intros v [->|Hv]%enqueue_values; [|by apply Hq].
    eapply reach_step; [by apply Ht|done].
  - intros v u. rewrite get_set. destruct (decide _) as [<-|]; [|by apply Hp].
    by intros [= <-].
  - intros v u. rewrite get_set, enqueue_values.
    destruct (decide _) as [<-|]; [by left; left|].
    intros [?|?]%Hs; [by left; right|by right].
  - rewrite enqueue_values. destruct Hst; [by left; right|by right].
  - intros v Hv. rewrite get_set in Hv. rewrite get_set.
    destruct (decide _) as [<-|]; [by destruct (Hv current)|by apply Hd].
Qed.

(** An id taken from the queue that is in the trace already. *)
Lemma route_inv_skip dist prev trace pq current pq' :
  route_inv graph startId isEmergency dist prev trace pq →
  dequeue pq = Some (current, pq') → current ∈ trace →
  route_inv graph startId isEmergency dist prev trace pq'.
Proof.
  intros [Ht Hq Hp Hs Hst Hd] Hdq Hcur.
  assert (Hv : ∀ x, x ∈ map value pq ↔ x = current ∨ x ∈ map value pq')
    by (intros x; by apply dequeue_values).
  split; try done.
  - intros v Hin. apply Hq, Hv. by right.
  - intros v u [[->|?]%Hv|?]%Hs; [by right|by left|by right].
  - destruct Hst as [[->|?]%Hv|?]; [by right|by left|by right].
Qed.

(** An id taken from the queue that goes to the trace. *)
Lemma route_inv_visit dist prev trace pq current pq' :
  route_inv graph startId isEmergency dist prev trace pq →
  dequeue pq = Some (current, pq') →
  route_inv graph startId isEmergency dist prev (trace ++ [current]) pq'.
Proof.
  intros [Ht Hq Hp Hs Hst Hd] Hdq.
  assert (Hv : ∀ x, x ∈ map value pq ↔ x = current ∨ x ∈ map value pq')
    by (intros x; by apply dequeue_values).
  split; try done.
  - intros v [?| ->%list_elem_of_singleton]%elem_of_app; [by apply Ht|].
    apply Hq, Hv. by left.
  - intros v Hin. apply Hq, Hv. by right.
  - intros v u [Hu Hr]%Hp. split; [|done]. apply elem_of_app. by left.
  - intros v u [[->|?]%Hv|?]%Hs; rewrite elem_of_app, list_elem_of_singleton;
      [by right; right|by left|by right; left].
  - destruct Hst as [[->|?]%Hv|?]; rewrite elem_of_app, list_elem_of_singleton;
      [by right; right|by left|by right; left].
Qed.

Lemma dijkstra_init_route :
  dj_route graph startId isEmergency (dijkstra_init graph startId).
Proof. split; [done|]. apply route_inv_init. Qed.

Lemma dijkstra_relax_route current st es edge :
  dj_route graph startId isEmergency st → current ∈ dj_visited st →
  (current, es) ∈ edges graph → edge ∈ es →
  dj_route graph startId isEmergency
    (dijkstra_relax isEmergency current st edge).
Proof.
  intros [Hg Hinv] Hcur Hes He. unfold dijkstra_relax.
  destruct (_ && _) eqn:Hb; [done|].
  destruct (PrimFloat.ltb _ _); [|done].
  split; [done|]. simpl. apply route_inv_relax; [done..|].
  eapply road_edge; [done..| |done]. by rewrite traversable_spec, Hb.
Qed.

Lemma dijkstra_relax_all_route current st es es' :
  dj_route graph startId isEmergency st → current ∈ dj_visited st →
  (current, es') ∈ edges graph → es ⊆ es' →
  dj_route graph startId isEmergency
    (fold_left (dijkstra_relax isEmergency current) es st).
Proof.
  revert st. induction es as [|e es IH]; intros st Hinv Hcur Hes Hsub;
    simpl; [done|].
  apply IH; [|by rewrite dijkstra_relax_visited|done|].
  - eapply dijkstra_relax_route; [done..|]. apply Hsub. by left.
  - intros x Hx. apply Hsub. by right.
Qed.

Lemma dijkstra_loop_route fuel endId st st' :
  dj_route graph startId isEmergency st →
  dijkstra_loop fuel endId isEmergency st = Some st' →
  dj_route graph startId isEmergency st'
  ∧ (dj_pq st' = [] ∨ endId ∈ dj_visited st').
Proof.
  revert st. induction fuel as [|fuel IH]; intros st [Hg Hinv]; simpl; [done|].
  destruct (dequeue (dj_pq st)) as [[current pq']|] eqn:Hdq.
  2:{ intros [= <-]. split; [done|]. left. by apply dequeue_None. }
  destruct (JS.includes _ _) eqn:Hinc.
  { apply IH. split; [done|]. simpl.
    eapply route_inv_skip; [done..|]. by apply includes_true. }
  pose proof (route_inv_visit _ _ _ _ _ _ Hinv Hdq) as Hinv'.
  destruct (String.eqb current endId) eqn:Heq.
  { intros [= <-]. split; [by split|]. right. simpl.
    apply String.eqb_eq in Heq as ->. apply elem_of_app. right. by left. }
  apply IH. cbn [dj_graph].
  destruct (Map.get (edges (dj_graph st)) current) as [es|] eqn:Hes;
    [|by split].
  simpl. eapply (dijkstra_relax_all_route _ _ es es).
  - by split.
  - simpl. apply elem_of_app. right. by left.
  - rewrite <- Hg. by apply get_entry.
  - done.
Qed.

Lemma aStar_init_route endNode :
  as_route graph startId isEmergency (aStar_init graph endNode startId).
Proof. split; [done|]. apply route_inv_init. Qed.

Lemma aStar_relax_route endNode current st es edge :
  as_route graph startId isEmergency st → current ∈ as_visited st →
  (current, es) ∈ edges graph → edge ∈ es →
  as_route graph startId isEmergency
    (aStar_relax endNode isEmergency current st edge).
Proof.
  intros [Hg Hinv] Hcur Hes He. unfold aStar_relax.
  destruct (_ && _) eqn:Hb; [done|].
  destruct (PrimFloat.ltb _ _); [|done].
  split; [done|]. simpl. apply route_inv_relax; [done..|].
  eapply road_edge; [done..| |done]. by rewrite traversable_spec, Hb.
Qed.

Lemma aStar_relax_all_route endNode current st es es' :
  as_route graph startId isEmergency st → current ∈ as_visited st →
  (current, es') ∈ edges graph → es ⊆ es' →
  as_route graph startId isEmergency
    (fold_left (aStar_relax endNode isEmergency current) es st).
Proof.
  revert st. induction es as [|e es IH]; intros st Hinv Hcur Hes Hsub;
    simpl; [done|].
  apply IH; [|by rewrite aStar_relax_visited|done|].
  - eapply aStar_relax_route; [done..|]. apply Hsub. by left.
  - intros x Hx. apply Hsub. by right.
Qed.

Lemma aStar_loop_route fuel endNode endId st st' :
  as_route graph startId isEmergency st →
  aStar_loop fuel endNode endId isEmergency st = Some st' →
  as_route graph startId isEmergency st'
  ∧ (as_pq st' = [] ∨ endId ∈ as_visited st').
Proof.
  revert st. induction fuel as [|fuel IH]; intros st [Hg Hinv]; simpl; [done|].
  destruct (dequeue (as_pq st)) as [[current pq']|] eqn:Hdq.
  2:{ intros [= <-]. split; [done|]. left. by apply dequeue_None. }
  destruct (JS.includes _ _) eqn:Hinc.
  { apply IH. split; [done|]. simpl.
    eapply route_inv_skip; [done..|]. by apply includes_true. }
  pose proof (route_inv_visit _ _ _ _ _ _ Hinv Hdq) as Hinv'.
  destruct (String.eqb current endId) eqn:Heq.
  { intros [= <-]. split; [by split|]. right. simpl.
    apply String.eqb_eq in Heq as ->. apply elem_of_app. right. by left. }
  apply IH. cbn [as_graph].
  destruct (Map.get (edges (as_graph st)) current) as [es|] eqn:Hes;
    [|by split].
  simpl. eapply (aStar_relax_all_route _ _ _ es es).
  - by split.
  - simpl. apply elem_of_app. right. by left.
  - rewrite <- Hg. by apply get_entry.
  - done.
Qed.

End RouteInvariant.

(** ** The path a search returns *)

Lemma or_null_Some (o : option (option string)) (c : string) :
  JS.or_null o = Some c → o = Some (Some c).
Proof.
  destruct o as [[s|]|]; simpl; try done.
  destruct (String.eqb s ""); [done|]. by intros [= ->].
Qed.

(** The path is built from the end: each id put in front is the
    predecessor of the one it is put in front of. *)
Lemma reconstruct_linked fuel previous current acc p :
  reconstruct fuel previous current acc = Some p →
  linked previous acc →
  (∀ c a, current = Some c → head acc = Some a →
          Map.get previous a = Some (Some c)) →
  linked previous p ∧ ∃ pre, p = pre ++ acc.
Proof.
  revert current acc. induction fuel as [|fuel IH]; intros current acc.
  - destruct current; [done|]. intros [= <-] Hl _. split; [done|]. by exists [].
  - destruct current as [c|];
      [|intros [= <-] Hl _; split; [done|by exists []]].
    simpl. intros Hrec Hl Hlink.
    destruct (IH _ _ Hrec) as [Hp [pre ->]].
    + destruct acc as [|a acc]; [done|]. split; [|done]. by apply Hlink.
    + intros c' a Hc' [= <-]. by apply or_null_Some.
    + split; [done|]. exists (pre ++ [c]). by rewrite <- app_assoc.
Qed.

Lemma linked_walk graph isEmergency previous p :
  (∀ v u, Map.get previous v = Some (Some u) →
          road graph isEmergency u v = true) →
  linked previous p → is_walk graph isEmergency p = true.
Proof.
  intros Hr. induction p as [|a [|b p] IH]; [done..|]. intros [H1 H2].
  rewrite is_walk_cons, (Hr _ _ H1). simpl. by apply IH.
Qed.

Lemma linked_elems previous p x :
  linked previous p → x ∈ p →
  (∃ b, Map.get previous b = Some (Some x)) ∨ last p = Some x.
Proof.
  induction p as [|a [|b p] IH].
  - by intros _ ?%elem_of_nil.
  - intros _ ->%list_elem_of_singleton. by right.
  - intros [H1 H2] [->|Hx]%elem_of_cons; [left; by exists b|].
    destruct (IH H2 Hx) as [?|?]; [by left|by right].
Qed.

Lemma path_from_nonempty startId p :
  path_from startId p ≠ [] → path_from startId p = p ∧ head p = Some startId.
Proof.
  destruct p as [|first rest]; simpl; [done|].
  destruct (String.eqb first startId) eqn:E; [|done].
  apply String.eqb_eq in E as ->. done.
Qed.

(** A path that is returned, when predecessors follow roads. *)
Lemma reconstruct_walk graph isEmergency previous fuel startId endId p :
  (∀ v u, Map.get previous v = Some (Some u) →
          road graph isEmergency u v = true) →
  reconstruct fuel previous (Some endId) [] = Some p →
  path_from startId p ≠ [] →
  path_from startId p = p ∧ head p = Some startId ∧ last p = Some endId
  ∧ is_walk graph isEmergency p = true ∧ linked previous p.
Proof.
  intros Hr Hrec [Hp Hh]%path_from_nonempty.
  destruct fuel as [|fuel]; [done|]. simpl in Hrec.
  destruct (reconstruct_linked _ _ _ _ _ Hrec) as [Hl [pre ->]].
  - done.
  - intros c a Hc [= <-]. by apply or_null_Some.
  - repeat split; [done..|by rewrite last_snoc|by eapply linked_walk|done].
Qed.

Section RoutePath.

Variables (graph : Graph) (startId : string) (isEmergency : bool).

(** The ids of a path that is returned are in the trace. *)
Lemma route_path_visited dist prev trace pq fuel endId p :
  route_inv graph startId isEmergency dist prev trace pq →
  pq = [] ∨ endId ∈ trace →
  reconstruct fuel prev (Some endId) [] = Some p →
  path_from startId p ≠ [] →
  ∀ x, x ∈ p → x ∈ trace.
Proof.
  intros Hinv Hpost Hrec Hne.
  destruct (reconstruct_walk graph isEmergency prev fuel startId endId p)
    as (_ & Hh & Hl & _ & Hlk); [by intros v u [_ ?]%(rt_prev _ _ _ _ _ _ _ Hinv)|done..|].
  assert (Hq : endId ∈ map value pq ∨ endId ∈ trace → endId ∈ trace).
  { intros [Hv|?]; [|done].
    destruct Hpost as [->|?]; [by apply elem_of_nil in Hv|done]. }
  assert (Hend : endId ∈ trace).
  { destruct fuel as [|fuel]; [done|]. simpl in Hrec.
    destruct (JS.or_null (Map.get prev endId)) as [c|] eqn:E.
    - apply or_null_Some in E. by eapply Hq, (rt_seen _ _ _ _ _ _ _ Hinv).
    - assert (p = [endId]) as -> by (destruct fuel; by injection Hrec).
      injection Hh as ->. apply Hq, (rt_start _ _ _ _ _ _ _ Hinv). }
  intros x Hx. destruct (linked_elems _ _ _ Hlk Hx) as [[b Hb]|Hlast].
  - by apply (rt_prev _ _ _ _ _ _ _ Hinv) in Hb as [? _].
  - rewrite Hl in Hlast. by injection Hlast as <-.
Qed.

End RoutePath.

Lemma dijkstra_path_walk fuel graph startId endId isEmergency r graph' :
  dijkstra fuel graph startId endId isEmergency = Some (r, graph') →
  path r ≠ [] →
  head (path r) = Some startId ∧ last (path r) = Some endId
  ∧ is_walk graph isEmergency (path r) = true
  ∧ ∀ x, x ∈ path r → x ∈ visited r.
Proof.
  intros H Hne.
  apply dijkstra_result in H as (st & p & Hloop & Hrec & ->).
  simpl in *.
  destruct (dijkstra_loop_route graph startId isEmergency _ _ _ _
              (dijkstra_init_route graph startId isEmergency) Hloop)
    as [[Hg Hinv] Hpost].
  destruct (reconstruct_walk graph isEmergency _ _ startId endId p
              (λ v u H, proj2 (rt_prev _ _ _ _ _ _ _ Hinv v u H)) Hrec Hne)
    as (Hp & Hh & Hl & Hw & _).
  rewrite Hp. repeat split; [done..|].
  by eapply route_path_visited.
Qed.

Lemma aStar_path_walk fuel graph startId endId isEmergency r graph' :
  aStar fuel graph startId endId isEmergency = Some (r, graph') →
  path r ≠ [] →
  head (path r) = Some startId ∧ last (path r) = Some endId
  ∧ is_walk graph isEmergency (path r) = true
  ∧ ∀ x, x ∈ path r → x ∈ visited r.
Proof.
  intros H Hne.
  apply aStar_result in H as [->|(endNode & st & p & Hloop & Hrec & ->)];
    [done|]. simpl in *.
  destruct (aStar_loop_route graph startId isEmergency _ _ _ _ _
              (aStar_init_route graph startId isEmergency endNode) Hloop)
    as [[Hg Hinv] Hpost].
  destruct (reconstruct_walk graph isEmergency _ _ startId endId p
              (λ v u H, proj2 (rt_prev _ _ _ _ _ _ _ Hinv v u H)) Hrec Hne)
    as (Hp & Hh & Hl & Hw & _).
  rewrite Hp. repeat split; [done..|].
  by eapply route_path_visited.
Qed.

(** X4: a path that [dijkstra] or [aStar] returns, when it is not empty,
    starts at [startId], ends at [endId], goes from each of its ids to the
    next along an edge of the graph that the search may follow (any edge in
    emergency mode, an edge that is not blocked otherwise), and holds ids
    of the visited trace only. *)
Theorem search_path_is_walk (fuel : nat) (graph : Graph)
    (startId endId : string) (isEmergency : bool)
    (r : SearchResult) (graph' : Graph) :
  dijkstra fuel graph startId endId isEmergency = Some (r, graph')
  ∨ aStar fuel graph startId endId isEmergency = Some (r, graph') →
  path r ≠ [] →
  head (path r) = Some startId ∧ last (path r) = Some endId
  ∧ is_walk graph isEmergency (path r) = true
  ∧ ∀ x, x ∈ path r → x ∈ visited r.
Proof.
  intros [H|H]; [by eapply dijkstra_path_walk|by eapply aStar_path_walk].
Qed.

Lemma search_path_is_walk_witness :
  head ["A"; "B"; "D"] = Some "A" ∧ last ["A"; "B"; "D"] = Some "D"
  ∧ is_walk line_graph false ["A"; "B"; "D"] = true
  ∧ ∀ x, x ∈ ["A"; "B"; "D"] → x ∈ ["A"; "B"; "D"].
Proof.
  apply (search_path_is_walk 10 line_graph "A" "D" false
           (mkSearchResult ["A"; "B"; "D"] 20 ["A"; "B"; "D"]) line_graph);
    [left; reflexivity|done].
Defined.

(** ** [bellmanFord]: predecessors follow roads *)

Section BellmanFordRoute.

Variables (graph : Graph) (startId : string) (isEmergency : bool).

Lemma ltb_infinity_l (x : float) : PrimFloat.ltb infinity x = false.
Proof.
  rewrite ltb_spec. change (Prim2SF infinity) with (S754_infinity false).
  by destruct (Prim2SF x) as [|[|]| |].
Qed.

Lemma allEdges_road fe :
  fe ∈ allEdges graph isEmergency →
  road graph isEmergency (fe_from fe) (fe_to fe) = true.
Proof.
  unfold allEdges. rewrite list_elem_of_In, in_flat_map.
  intros ([from es] & Hin & H). apply in_flat_map in H as (e & He & Hfe).
  unfold flat_edge in Hfe.
  destruct (negb (edge_blocked e) || isEmergency) eqn:Ht; [|done].
  destruct Hfe as [<-|[]]. simpl.
  eapply road_edge; [by apply list_elem_of_In|by apply list_elem_of_In|done..].
Qed.

Lemma bellmanFord_init_route :
  bf_route graph startId isEmergency (bellmanFord_init graph startId).
Proof.
  split; [done| |done].
  intros v u. simpl. rewrite init_previous_get. by destruct (decide _).
Qed.

Lemma bellmanFord_relax_route st fe :
  bf_route graph startId isEmergency st →
  fe ∈ allEdges graph isEmergency →
  bf_route graph startId isEmergency (bellmanFord_relax st fe).
Proof.
  intros [Hg Hp Hd] Hfe. unfold bellmanFord_relax.
  destruct (PrimFloat.ltb _ _) eqn:Hlt; [|done].
  assert (Hreach : reach graph isEmergency startId (fe_from fe)).
  { destruct (Map.get (bf_previous st) (fe_from fe)) as [[u|]|] eqn:Hpf.
    - destruct (Hp _ _ Hpf) as [Hu Hr]. by eapply reach_step.
    - rewrite Hd in Hlt by (intros u; congruence).
      rewrite init_distances_get in Hlt.
      destruct (decide _); simpl in Hlt;
        [|by rewrite add_nan_l, ltb_nan_l in Hlt].
      destruct (String.eqb (fe_from fe) startId) eqn:E.
      + apply String.eqb_eq in E as ->. apply reach_refl.
      + destruct (add_infinity_l (fe_weight fe)) as [Hi|Hi];
          rewrite Hi in Hlt; [by rewrite ltb_infinity_l in Hlt
                             |by rewrite ltb_nan_l in Hlt].
    - rewrite Hd in Hlt by (intros u; congruence).
      rewrite init_distances_get in Hlt.
      destruct (decide _); simpl in Hlt;
        [|by rewrite add_nan_l, ltb_nan_l in Hlt].
      destruct (String.eqb (fe_from fe) startId) eqn:E.
      + apply String.eqb_eq in E as ->. apply reach_refl.
      + destruct (add_infinity_l (fe_weight fe)) as [Hi|Hi];
          rewrite Hi in Hlt; [by rewrite ltb_infinity_l in Hlt
                             |by rewrite ltb_nan_l in Hlt]. }
  split; simpl; [done| |].
  - intros v u. rewrite get_set. destruct (decide _) as [<-|]; [|by apply Hp].
    intros [= <-]. split; [done|by apply allEdges_road].
  - intros v Hv. rewrite get_set in Hv. rewrite get_set.
    destruct (decide _) as [<-|]; [by destruct (Hv (fe_from fe))|by apply Hd].
Qed.

Lemma bellmanFord_pass_route flat st :
  bf_route graph startId isEmergency st →
  flat ⊆ allEdges graph isEmergency →
  bf_route graph startId isEmergency (bellmanFord_pass flat st).
Proof.
  unfold bellmanFord_pass. revert st.
  induction flat as [|e es IH]; intros st Hinv Hsub; simpl; [done|].
  apply IH.
  - apply bellmanFord_relax_route; [done|]. apply Hsub. by left.
  - intros x Hx. apply Hsub. by right.
Qed.

Lemma bellmanFord_passes_route st :
  bf_route graph startId isEmergency st →
  bf_route graph startId isEmergency
    (bellmanFord_passes (allEdges graph isEmergency) st).
Proof.
  intros Hinv. unfold bellmanFord_passes.
  induction (Map.size _ - 1)%nat as [|n IH]; simpl; [done|].
  by apply bellmanFord_pass_route.
Qed.

End BellmanFordRoute.

Lemma bellmanFord_path_walk (fuel : nat) (graph : Graph)
    (startId endId : string) (isEmergency : bool)
    (r : BellmanFordResult) (graph' : Graph) :
  bellmanFord fuel graph startId endId isEmergency = Some (r, graph') →
  bf_path r ≠ [] →
  head (bf_path r) = Some startId ∧ last (bf_path r) = Some endId
  ∧ is_walk graph isEmergency (bf_path r) = true.
Proof.
  unfold bellmanFord. cbv zeta.
  change (bf_graph (bellmanFord_init graph startId)) with graph.
  destruct (reconstruct _ _ _ _) as [p|] eqn:Hrec; [|done].
  simpl. intros [= <- _] Hne. simpl in *.
  pose proof (bellmanFord_passes_route graph startId isEmergency _
                (bellmanFord_init_route graph startId isEmergency))
    as [_ Hp _].
  destruct (reconstruct_walk graph isEmergency _ _ startId endId p
              (λ v u H, proj2 (Hp v u H)) Hrec Hne)
    as (Hpp & Hh & Hl & Hw & _).
  by rewrite Hpp.
Qed.

(** X5: a path that [bellmanFord] returns, when it is not empty, starts at
    [startId], ends at [endId] and goes from each of its ids to the next
    along an edge of the graph that the search may follow. *)
Theorem bellmanFord_path_is_walk (fuel : nat) (graph : Graph)
    (startId endId : string) (isEmergency : bool)
    (r : BellmanFordResult) (graph' : Graph) :
  bellmanFord fuel graph startId endId isEmergency = Some (r, graph') →
  bf_path r ≠ [] →
  head (bf_path r) = Some startId ∧ last (bf_path r) = Some endId
  ∧ is_walk graph isEmergency (bf_path r) = true.
Proof. apply bellmanFord_path_walk. Qed.

Lemma bellmanFord_path_is_walk_witness :
  head ["A"; "B"; "D"] = Some "A" ∧ last ["A"; "B"; "D"] = Some "D"
  ∧ is_walk line_graph false ["A"; "B"; "D"] = true.
Proof.
  apply (bellmanFord_path_is_walk 10 line_graph "A" "D" false
           (mkBellmanFordResult ["A"; "B"; "D"] 20 false) line_graph);
    [reflexivity|done].
Defined.

(** ** A destination that no walk leads to *)

Section Unreachable.

Variables (graph : Graph) (startId endId : string) (isEmergency : bool).

Hypothesis no_walk : ¬ reach graph isEmergency startId endId.

Lemma no_walk_ne : endId ≠ startId.
Proof. intros ->. apply no_walk, reach_refl. Qed.

Lemma no_walk_path : path_from startId [endId] = [].
Proof.
  simpl. destruct (String.eqb endId startId) eqn:E; [|done].
  apply String.eqb_eq in E. by apply no_walk_ne in E.
Qed.

Lemma no_walk_init :
  JS.or_infinity (Map.get (init_distances graph startId) endId) = infinity.
Proof.
  rewrite init_distances_get. destruct (decide _); [|done].
  destruct (String.eqb endId startId) eqn:E; [|done].
  apply String.eqb_eq in E. by apply no_walk_ne in E.
Qed.

Lemma route_inv_no_walk dist prev trace pq :
  route_inv graph startId isEmergency dist prev trace pq →
  JS.or_null (Map.get prev endId) = None
  ∧ JS.or_infinity (Map.get dist endId) = infinity
  ∧ endId ∉ trace.
Proof.
  intros [Ht Hq Hp Hs Hst Hd].
  assert (Hnone : ∀ u, Map.get prev endId ≠ Some (Some u)).
  { intros u [Hu Hr]%Hp. apply no_walk. eapply reach_step; [by apply Ht|done]. }
  split; [|split].
  - destruct (JS.or_null _) as [c|] eqn:E; [|done].
    apply or_null_Some in E. by apply Hnone in E.
  - rewrite Hd by done. apply no_walk_init.
  - by intros ?%Ht.
Qed.

Lemma bf_route_no_walk st :
  bf_route graph startId isEmergency st →
  JS.or_null (Map.get (bf_previous st) endId) = None
  ∧ JS.or_infinity (Map.get (bf_distances st) endId) = infinity.
Proof.
  intros [Hg Hp Hd].
  assert (Hnone : ∀ u, Map.get (bf_previous st) endId ≠ Some (Some u)).
  { intros u [Hu Hr]%Hp. apply no_walk. by eapply reach_step. }
  split.
  - destruct (JS.or_null _) as [c|] eqn:E; [|done].
    apply or_null_Some in E. by apply Hnone in E.
  - rewrite Hd by done. apply no_walk_init.
Qed.

End Unreachable.

(** X6: when no walk along edges that the search may follow leads from
    [startId] to [endId], each of the three searches returns, within the
    turns of [search_fuel], the unreachable result: an empty path and the
    infinite distance; the trace of [dijkstra] and of [aStar] does not
    hold [endId]. *)
Theorem no_walk_no_path (graph : Graph) (startId endId : string)
    (isEmergency : bool) (fuel : nat) :
  ¬ reach graph isEmergency startId endId →
  (search_fuel graph startId ≤ fuel)%nat →
  (∃ trace, dijkstra fuel graph startId endId isEmergency
            = Some (mkSearchResult [] infinity trace, graph)
            ∧ endId ∉ trace)
  ∧ (∃ trace, aStar fuel graph startId endId isEmergency
              = Some (mkSearchResult [] infinity trace, graph)
              ∧ endId ∉ trace)
  ∧ (∃ flag, bellmanFord fuel graph startId endId isEmergency
             = Some (mkBellmanFordResult [] infinity flag, graph)).
Proof.
  intros Hno Hfuel.
  pose proof (no_walk_path graph startId endId isEmergency Hno) as Hpath.
  split; [|split].
  - destruct (dijkstra_loop_total graph startId fuel endId isEmergency Hfuel)
      as (st & Hst & Hg & _).
    destruct (dijkstra_loop_route graph startId isEmergency _ _ _ _
                (dijkstra_init_route graph startId isEmergency) Hst)
      as [[_ Hinv] _].
    destruct (route_inv_no_walk graph startId endId isEmergency Hno
                _ _ _ _ Hinv) as (Hprev & Hdist & Htrace).
    exists (dj_visited st). split; [|done].
    unfold dijkstra. rewrite Hst. cbn [mbind option_bind].
    destruct fuel as [|fuel]; [unfold search_fuel in Hfuel; lia|].
    rewrite reconstruct_stop by done. cbn [mbind option_bind].
    by rewrite Hpath, Hdist, Hg.
  - unfold aStar.
    destruct (Map.get (nodes graph) startId) as [startNode|];
      [|exists []; split; [done|apply not_elem_of_nil]].
    destruct (Map.get (nodes graph) endId) as [endNode|];
      [|exists []; split; [done|apply not_elem_of_nil]].
    destruct (aStar_loop_total graph startId fuel endNode endId isEmergency
                Hfuel) as (st & Hst & Hg & _).
    destruct (aStar_loop_route graph startId isEmergency _ _ _ _ _
                (aStar_init_route graph startId isEmergency endNode) Hst)
      as [[_ Hinv] _].
    destruct (route_inv_no_walk graph startId endId isEmergency Hno
                _ _ _ _ Hinv) as (Hprev & Hdist & Htrace).
    exists (as_visited st). split; [|done].
    rewrite Hst. cbn [mbind option_bind].
    destruct fuel as [|fuel]; [unfold search_fuel in Hfuel; lia|].
    rewrite reconstruct_stop by done. cbn [mbind option_bind].
    by rewrite Hpath, Hdist, Hg.
  - pose proof (bellmanFord_passes_route graph startId isEmergency _
                  (bellmanFord_init_route graph startId isEmergency)) as Hinv.
    destruct (bf_route_no_walk graph startId endId isEmergency Hno _ Hinv)
      as [Hprev Hdist].
    destruct Hinv as [Hg _ _].
    eexists. unfold bellmanFord. cbv zeta.
    change (bf_graph (bellmanFord_init graph startId)) with graph.
    destruct fuel as [|fuel]; [unfold search_fuel in Hfuel; lia|].
    rewrite reconstruct_stop by done. cbn [mbind option_bind].
    by rewrite Hpath, Hdist, Hg.
Qed.

Lemma line_graph_closed_no_walk : ¬ reach line_graph_closed false "A" "D".
Proof.
  assert (Hroad : ∀ a b, road line_graph_closed false a b = false).
  { intros a b. unfold road. simpl. by rewrite !andb_false_r. }
  intros ([|a [|b p]] & Hh & Hl & Hw); [done| |].
  - injection Hh as ->. by injection Hl.
  - rewrite is_walk_cons, Hroad in Hw. done.
Qed.

Lemma no_walk_no_path_witness :
  (∃ trace, dijkstra 20 line_graph_closed "A" "D" false
            = Some (mkSearchResult [] infinity trace, line_graph_closed)
            ∧ "D" ∉ trace)
  ∧ (∃ trace, aStar 20 line_graph_closed "A" "D" false
              = Some (mkSearchResult [] infinity trace, line_graph_closed)
              ∧ "D" ∉ trace)
  ∧ (∃ flag, bellmanFord 20 line_graph_closed "A" "D" false
             = Some (mkBellmanFordResult [] infinity flag, line_graph_closed)).
Proof.
  apply (no_walk_no_path line_graph_closed "A" "D" false 20);
    [apply line_graph_closed_no_walk|vm_compute; lia].
Defined.

(** X7: [dijkstra] and [aStar] visit only ids that a walk from [startId]
    leads to along edges the search may follow, and every id they visit is
    a key of the node map or [startId] itself. *)
Theorem search_visits_reachable (fuel : nat) (graph : Graph)
    (startId endId : string) (isEmergency : bool)
    (r : SearchResult) (graph' : Graph) :
  dijkstra fuel graph startId endId isEmergency = Some (r, graph')
  ∨ aStar fuel graph startId endId isEmergency = Some (r, graph') →
  ∀ x, x ∈ visited r →
    reach graph isEmergency startId x
    ∧ (x ∈ Map.keys (nodes graph) ∨ x = startId).
Proof.
  intros [H|H] x Hx.
  - apply dijkstra_result in H as (st & p & Hloop & _ & ->). simpl in Hx.
    destruct (dijkstra_loop_route graph startId isEmergency _ _ _ _
                (dijkstra_init_route graph startId isEmergency) Hloop)
      as [[_ Hinv] _].
    destruct (dijkstra_loop_inv graph startId _ _ _ _ _
                (dijkstra_init_inv graph startId) Hloop) as [_ Hs].
    split; [by apply (rt_trace _ _ _ _ _ _ _ Hinv)|].
    by apply (inv_trace _ _ _ _ _ _ Hs).
  - apply aStar_result in H as [->|(endNode & st & p & Hloop & _ & ->)];
      [by apply elem_of_nil in Hx|]. simpl in Hx.
    destruct (aStar_loop_route graph startId isEmergency _ _ _ _ _
                (aStar_init_route graph startId isEmergency endNode) Hloop)
      as [[_ Hinv] _].
    destruct (aStar_loop_inv graph startId _ _ _ _ _ _
                (aStar_init_inv graph startId endNode) Hloop) as [_ Hs].
    split; [by apply (rt_trace _ _ _ _ _ _ _ Hinv)|].
    by apply (inv_trace _ _ _ _ _ _ Hs).
Qed.

Lemma search_visits_reachable_witness :
  reach line_graph_blocked false "A" "D"
  ∧ ("D" ∈ Map.keys (nodes line_graph_blocked) ∨ "D" = "A").
Proof.
  apply (search_visits_reachable 10 line_graph_blocked "A" "D" false
           (mkSearchResult ["A"; "D"] 30 ["A"; "D"]) line_graph_blocked).
  - left. reflexivity.
  - simpl. apply elem_of_cons. right. apply elem_of_cons. by left.
Defined.

(** X8: the main loop of [dijkstra] and of [aStar] ends on every graph,
    whatever its weights (negative ones and NaN among them): two turns
    and, for [startId] and each node, one turn more than it has edges are
    enough. *)
Theorem search_loop_ends (graph : Graph) (startId endId : string)
    (isEmergency : bool) (endNode : Node) (fuel : nat) :
  (search_fuel graph startId ≤ fuel)%nat →
  (∃ st, dijkstra_loop fuel endId isEmergency (dijkstra_init graph startId)
         = Some st)
  ∧ (∃ st, aStar_loop fuel endNode endId isEmergency
             (aStar_init graph endNode startId) = Some st).
Proof.
  intros Hfuel. split.
  - destruct (dijkstra_loop_total graph startId fuel endId isEmergency Hfuel)
      as (st & Hst & _). by exists st.
  - destruct (aStar_loop_total graph startId fuel endNode endId isEmergency
                Hfuel) as (st & Hst & _). by exists st.
Qed.

Lemma search_loop_ends_witness :
  (∃ st, dijkstra_loop 11 "C" false (dijkstra_init negative_cycle_graph "A")
         = Some st)
  ∧ (∃ st, aStar_loop 11 (mkNode "C" 0 0 "C" normal) "C" false
             (aStar_init negative_cycle_graph (mkNode "C" 0 0 "C" normal) "A")
           = Some st).
Proof.
  apply (search_loop_ends negative_cycle_graph "A" "C" false
           (mkNode "C" 0 0 "C" normal) 11).
  vm_compute. lia.
Defined.

Lemma unknown_id_unreachable_witness :
  (∃ trace, dijkstra 20 line_graph "A" "Z" false
            = Some (mkSearchResult [] infinity trace, line_graph))
  ∧ aStar 20 line_graph "A" "Z" false
    = Some (mkSearchResult [] infinity [], line_graph)
  ∧ (∃ flag, bellmanFord 20 line_graph "A" "Z" false
             = Some (mkBellmanFordResult [] infinity flag, line_graph)).
Proof.
  apply (unknown_id_unreachable line_graph "A" "Z" false 20).
  - done.
  - right. intros H. repeat (apply elem_of_cons in H as [H|H]; [done|]).
    by apply elem_of_nil in H.
  - vm_compute. lia.
Defined.

(** ** A blocked edge is as good as none *)

Section Blocked.

Lemma open_edges_get (m : Map.t (list Edge)) (k : string) :
  default []
    (Map.get
       (map (fun '(k, es) =>
               (k, List.filter (fun e => negb (edge_blocked e)) es)) m) k)
  = List.filter (fun e => negb (edge_blocked e)) (default [] (Map.get m k)).
Proof.
  induction m as [|[k' es] m IH]; simpl; [done|].
  by destruct (String.eqb k' k).
Qed.

Lemma dijkstra_relax_open current st e :
  dijkstra_relax false current (dj_open st) e
  = dj_open (dijkstra_relax false current st e).
Proof.
  unfold dijkstra_relax. simpl. destruct (_ && _); [done|].
  by destruct (PrimFloat.ltb _ _).
Qed.

Lemma dijkstra_relax_all_open current es st :
  fold_left (dijkstra_relax false current)
    (List.filter (fun e => negb (edge_blocked e)) es) (dj_open st)
  = dj_open (fold_left (dijkstra_relax false current) es st).
Proof.
  revert st. induction es as [|e es IH]; intros st; simpl; [done|].
  destruct (edge_blocked e) eqn:Hb; simpl.
  - rewrite IH. do 2 f_equal. unfold dijkstra_relax. by rewrite Hb.
  - by rewrite dijkstra_relax_open, IH.
Qed.

Lemma dijkstra_loop_open fuel endId st :
  dijkstra_loop fuel endId false (dj_open st)
  = dj_open <$> dijkstra_loop fuel endId false st.
Proof.
  revert st. induction fuel as [|fuel IH]; intros st; simpl; [done|].
  destruct (dequeue (dj_pq st)) as [[current pq']|]; [|done].
  destruct (JS.includes _ _); [by rewrite <-IH|].
  destruct (String.eqb _ _); [done|].
  rewrite open_edges_get. rewrite <-IH. f_equal.
  by rewrite <-dijkstra_relax_all_open.
Qed.

Lemma aStar_relax_open endNode current st e :
  aStar_relax endNode false current (as_open st) e
  = as_open (aStar_relax endNode false current st e).
Proof.
  unfold aStar_relax. simpl. destruct (_ && _); [done|].
  by destruct (PrimFloat.ltb _ _).
Qed.

Lemma aStar_relax_all_open endNode current es st :
  fold_left (aStar_relax endNode false current)
    (List.filter (fun e => negb (edge_blocked e)) es) (as_open st)
  = as_open (fold_left (aStar_relax endNode false current) es st).
Proof.
  revert st. induction es as [|e es IH]; intros st; simpl; [done|].
  destruct (edge_blocked e) eqn:Hb; simpl.
  - rewrite IH. do 2 f_equal. unfold aStar_relax. by rewrite Hb.
  - by rewrite aStar_relax_open, IH.
Qed.

Lemma aStar_loop_open fuel endNode endId st :
  aStar_loop fuel endNode endId false (as_open st)
  = as_open <$> aStar_loop fuel endNode endId false st.
Proof.
  revert st. induction fuel as [|fuel IH]; intros st; simpl; [done|].
  destruct (dequeue (as_pq st)) as [[current pq']|]; [|done].
  destruct (JS.includes _ _); [by rewrite <-IH|].
  destruct (String.eqb _ _); [done|].
  rewrite open_edges_get. rewrite <-IH. f_equal.
  by rewrite <-aStar_relax_all_open.
Qed.

Lemma all_edges_open (g : Graph) :
  allEdges (open_graph g) false = allEdges g false.
Proof.
  unfold allEdges, open_graph. simpl.
  induction (edges g) as [|[k es] m IH]; simpl; [done|].
  rewrite IH. f_equal.
  induction es as [|e es IHes]; simpl; [done|].
  unfold flat_edge at 2. destruct (edge_blocked e) eqn:Hb; simpl; [done|].
  rewrite IHes. unfold flat_edge at 1. by rewrite Hb.
Qed.

Lemma bellmanFord_pass_open flat st :
  bellmanFord_pass flat (bf_open st) = bf_open (bellmanFord_pass flat st).
Proof.
  unfold bellmanFord_pass. revert st.
  induction flat as [|e es IH]; intros st; simpl; [done|].
  rewrite <-IH. f_equal. unfold bellmanFord_relax. simpl.
  by destruct (PrimFloat.ltb _ _).
Qed.

Lemma bellmanFord_passes_open flat st :
  bellmanFord_passes flat (bf_open st)
  = bf_open (bellmanFord_passes flat st).
Proof.
  unfold bellmanFord_passes. simpl.
  induction (Map.size _ - 1)%nat as [|n IH]; simpl; [done|].
  by rewrite IH, bellmanFord_pass_open.
Qed.

End Blocked.

(** X10: in normal mode a blocked edge is as good as none: each of the
    three searches answers on a graph what it answers on the graph without
    its blocked edges, the same path, distance, trace and negative-cycle
    flag, and returns on the one when it returns on the other. *)
Theorem blocked_edge_is_no_edge (fuel : nat) (graph : Graph)
    (startId endId : string) :
  fst <$> dijkstra fuel (open_graph graph) startId endId false
  = fst <$> dijkstra fuel graph startId endId false
  ∧ fst <$> aStar fuel (open_graph graph) startId endId false
    = fst <$> aStar fuel graph startId endId false
  ∧ fst <$> bellmanFord fuel (open_graph graph) startId endId false
    = fst <$> bellmanFord fuel graph startId endId false.
Proof.
  split; [|split].
  - unfold dijkstra.
    change (dijkstra_init (open_graph graph) startId)
      with (dj_open (dijkstra_init graph startId)).
    rewrite dijkstra_loop_open.
    destruct (dijkstra_loop _ _ false _) as [st|]; [|done]. simpl.
    by destruct (reconstruct _ _ _ _).
  - unfold aStar. simpl.
    destruct (Map.get _ startId); [|done].
    destruct (Map.get _ endId) as [endNode|]; [|done].
    change (aStar_init (open_graph graph) endNode startId)
      with (as_open (aStar_init graph endNode startId)).
    rewrite aStar_loop_open.
    destruct (aStar_loop _ _ _ false _) as [st|]; [|done]. simpl.
    by destruct (reconstruct _ _ _ _).
  - unfold bellmanFord. simpl. rewrite all_edges_open.
    change (bellmanFord_init (open_graph graph) startId)
      with (bf_open (bellmanFord_init graph startId)).
    rewrite bellmanFord_passes_open. simpl.
    by destruct (reconstruct _ _ _ _).
Qed.

(** ** The city graph *)

Lemma has_keys {V : Type} (m : Map.t V) (k : string) :
  Map.has m k = true ↔ k ∈ Map.keys m.
Proof.
  unfold Map.has. destruct (Map.get m k) as [v|] eqn:E.
  - split; [intros _; by eapply get_Some_keys|done].
  - apply get_None in E. by split.
Qed.

Lemma reach_within_sound n g isEmergency s t :
  reach_within n g isEmergency s t = true → reach g isEmergency s t.
Proof.
  revert s. induction n as [|n IH]; intros s; simpl.
  - destruct (String.eqb s t) eqn:E; [|done].
    apply String.eqb_eq in E as ->. intros _. apply reach_refl.
  - destruct (String.eqb s t) eqn:E.
    { apply String.eqb_eq in E as ->. intros _. apply reach_refl. }
    intros ([k es] & Hin & H)%existsb_exists.
    destruct (String.eqb k s) eqn:Ek; [|done].
    apply String.eqb_eq in Ek as ->.
    apply existsb_exists in H as (e & He & H).
    destruct (traversable isEmergency e) eqn:Ht; [|done].
    apply IH in H as (p & Hh & Hl & Hw).
    exists (s :: p). split; [done|]. split.
    + destruct p; [done|]. by rewrite last_cons_cons.
    + destruct p as [|b p]; [done|]. injection Hh as ->.
      rewrite is_walk_cons, Hw, andb_true_r.
      eapply road_edge; [by apply list_elem_of_In|by apply list_elem_of_In
                        |done..].
Qed.

Lemma graph_ok_edge g k es e :
  graph_ok g = true → Map.get (edges g) k = Some es → e ∈ es →
  edge_ok g k e = true.
Proof.
  unfold graph_ok. intros [_ H]%andb_prop Hes He.
  rewrite forallb_forall in H. apply get_entry, list_elem_of_In in Hes.
  apply H in Hes. apply andb_prop in Hes as [_ Hall].
  rewrite forallb_forall in Hall. by apply Hall, list_elem_of_In.
Qed.

Lemma graph_ok_node g k node :
  graph_ok g = true → Map.get (nodes g) k = Some node → node_id node = k.
Proof.
  unfold graph_ok. intros [Hn _]%andb_prop Hget.
  apply get_entry, list_elem_of_In in Hget.
  rewrite forallb_forall in Hn. apply Hn in Hget.
  by apply String.eqb_eq in Hget.
Qed.

Section CityGraph.

Variable random : nat → float.

Lemma city_nodes :
  Map.keys (nodes (generateCityGraph random))
  = ["A"; "B"; "C"; "D"; "E"; "F"; "G"; "H";
     "I"; "J"; "K"; "L"; "M"; "N"; "O"; "P"].
Proof. reflexivity. Qed.

Lemma city_graph_ok : graph_ok (generateCityGraph random) = true.
Proof. vm_compute. reflexivity. Qed.

Lemma city_connected s t :
  s ∈ Map.keys (nodes (generateCityGraph random)) →
  t ∈ Map.keys (nodes (generateCityGraph random)) →
  reach_within 6 (generateCityGraph random) false s t = true.
Proof.
  rewrite city_nodes. intros Hs Ht.
  repeat (apply elem_of_cons in Hs as [->|Hs]);
    [..|by apply elem_of_nil in Hs].
  all: repeat (apply elem_of_cons in Ht as [->|Ht]);
    try (by apply elem_of_nil in Ht).
  all: vm_compute; reflexivity.
Qed.

End CityGraph.

(** X11: whatever [Math.random()] answers, the graph of
    [generateCityGraph] has the sixteen nodes A to P, each under its own
    id, and a list of edges for each of them, 66 edges in all; every edge
    is in the list of the node it is from, leads to another node of the
    graph, is not blocked, has a weight above zero and has an edge of the
    same weight that leads back; and from every node a walk along edges
    leads to every node. *)
Theorem generateCityGraph_well_formed (random : nat → float) :
  let g := generateCityGraph random in
  Map.keys (nodes g)
  = ["A"; "B"; "C"; "D"; "E"; "F"; "G"; "H";
     "I"; "J"; "K"; "L"; "M"; "N"; "O"; "P"]
  ∧ Map.keys (edges g) = Map.keys (nodes g)
  ∧ (∀ k node, Map.get (nodes g) k = Some node → node_id node = k)
  ∧ length (concat (map snd (edges g))) = 66%nat
  ∧ (∀ k es e, Map.get (edges g) k = Some es → e ∈ es →
       edge_from e = k ∧ edge_to e ≠ k
       ∧ edge_to e ∈ Map.keys (nodes g)
       ∧ edge_blocked e = false
       ∧ PrimFloat.ltb 0 (edge_weight e) = true
       ∧ ∃ es' e', Map.get (edges g) (edge_to e) = Some es' ∧ e' ∈ es'
                   ∧ edge_to e' = k ∧ edge_weight e' = edge_weight e)
  ∧ (∀ s t, s ∈ Map.keys (nodes g) → t ∈ Map.keys (nodes g) →
       reach g false s t).
Proof.
  intros g.
  pose proof (city_nodes random) as Hkeys.
  pose proof (city_graph_ok random) as Hok.
  pose proof (city_connected random) as Hreach.
  assert (Hek : Map.keys (edges g) = Map.keys (nodes g))
    by (vm_compute; reflexivity).
  assert (Hlen : length (concat (map snd (edges g))) = 66%nat)
    by (vm_compute; reflexivity).
  fold g in Hkeys, Hok, Hreach. clearbody g.
  split; [exact Hkeys|]. split; [exact Hek|].
  split; [|split; [exact Hlen|split]].
  - intros k node. by apply graph_ok_node.
  - intros k es e Hes He.
    pose proof (graph_ok_edge g k es e Hok Hes He) as H. unfold edge_ok in H.
    apply andb_prop in H as [H Hmirror]. apply andb_prop in H as [H Hw].
    apply andb_prop in H as [H Hb%negb_true_iff].
    apply andb_prop in H as [H Hto%has_keys].
    apply andb_prop in H as [Hfrom%String.eqb_eq Hne%negb_true_iff].
    apply String.eqb_neq in Hne.
    split; [exact Hfrom|]. split; [exact Hne|]. split; [exact Hto|].
    split; [exact Hb|]. split; [exact Hw|].
    apply existsb_exists in Hmirror as (e' & He' & H).
    apply andb_prop in H as [Hback%String.eqb_eq Heq%Leibniz.eqb_spec].
    destruct (Map.get (edges g) (edge_to e)) as [es'|] eqn:E;
      [|by apply in_nil in He'].
    exists es', e'. split; [reflexivity|].
    split; [by apply list_elem_of_In|]. by split.
  - intros s t Hs Ht. apply (reach_within_sound 6). by apply Hreach.
Qed.

(** ** Edge keys *)

Lemma getEdgeKey_cons c from to :
  getEdgeKey (String c from) to = String c (getEdgeKey from to).
Proof. reflexivity. Qed.

Lemma getEdgeKey_nil to : getEdgeKey "" to = String dash to.
Proof. reflexivity. Qed.

(** X12: [getEdgeKey] tells two edges apart when the ids they are from
    hold no [-]: equal keys then come from equal ends.  With a [-] in an
    id two edges can share a key. *)
Theorem getEdgeKey_injective :
  (∀ from to from' to',
     has_dash from = false → has_dash from' = false →
     getEdgeKey from to = getEdgeKey from' to' →
     from = from' ∧ to = to')
  ∧ getEdgeKey "A-B" "C" = getEdgeKey "A" "B-C".
Proof.
  split; [|reflexivity].
  intros from. induction from as [|c from IH]; intros to [|c' from'] to'.
  - rewrite !getEdgeKey_nil. by intros _ _ [= ->].
  - rewrite getEdgeKey_nil, getEdgeKey_cons. simpl.
    intros _ [Hc _]%orb_false_elim [= <- _].
    by rewrite Ascii.eqb_refl in Hc.
  - rewrite getEdgeKey_nil, getEdgeKey_cons. simpl.
    intros [Hc _]%orb_false_elim _ [= -> _].
    by rewrite Ascii.eqb_refl in Hc.
  - rewrite !getEdgeKey_cons. simpl.
    intros [_ Hf]%orb_false_elim [_ Hf']%orb_false_elim [= -> Hk].
    destruct (IH _ _ _ Hf Hf' Hk) as [-> ->]. done.
Qed.

(** ** A search stops at the destination *)

Lemma dijkstra_loop_stops fuel endId isEmergency st st' :
  endId ∉ dj_visited st →
  dijkstra_loop fuel endId isEmergency st = Some st' →
  ((endId ∉ dj_visited st') ∧ dj_pq st' = [])
  ∨ last (dj_visited st') = Some endId.
Proof.
  revert st. induction fuel as [|fuel IH]; intros st Hnot; simpl; [done|].
  destruct (dequeue (dj_pq st)) as [[current pq']|] eqn:Hdq.
  2:{ intros [= <-]. left. split; [done|]. by apply dequeue_None. }
  destruct (JS.includes _ _); [by apply IH|].
  destruct (String.eqb current endId) eqn:E.
  - apply String.eqb_eq in E as ->. intros [= <-]. right. simpl.
    by rewrite last_snoc.
  - apply String.eqb_neq in E. apply IH.
    rewrite dijkstra_relax_all_visited. simpl.
    rewrite elem_of_app, list_elem_of_singleton. by intros [?|?].
Qed.

Lemma aStar_loop_stops fuel endNode endId isEmergency st st' :
  endId ∉ as_visited st →
  aStar_loop fuel endNode endId isEmergency st = Some st' →
  ((endId ∉ as_visited st') ∧ as_pq st' = [])
  ∨ last (as_visited st') = Some endId.
Proof.
  revert st. induction fuel as [|fuel IH]; intros st Hnot; simpl; [done|].
  destruct (dequeue (as_pq st)) as [[current pq']|] eqn:Hdq.
  2:{ intros [= <-]. left. split; [done|]. by apply dequeue_None. }
  destruct (JS.includes _ _); [by apply IH|].
  destruct (String.eqb current endId) eqn:E.
  - apply String.eqb_eq in E as ->. intros [= <-]. right. simpl.
    by rewrite last_snoc.
  - apply String.eqb_neq in E. apply IH.
    rewrite aStar_relax_all_visited. simpl.
    rewrite elem_of_app, list_elem_of_singleton. by intros [?|?].
Qed.

(** X13: [dijkstra] and [aStar] stop at the destination: when [endId] is
    in the visited trace it is the last id of the trace, and a path that
    is not empty comes with a trace that ends at [endId]. *)
Theorem search_stops_at_end (fuel : nat) (graph : Graph)
    (startId endId : string) (isEmergency : bool)
    (r : SearchResult) (graph' : Graph) :
  dijkstra fuel graph startId endId isEmergency = Some (r, graph')
  ∨ aStar fuel graph startId endId isEmergency = Some (r, graph') →
  (endId ∈ visited r → last (visited r) = Some endId)
  ∧ (path r ≠ [] → last (visited r) = Some endId).
Proof.
  intros H.
  assert (Hend : endId ∈ visited r → last (visited r) = Some endId).
  { destruct H as [H|H].
    - apply dijkstra_result in H as (st & p & Hloop & _ & ->). simpl.
      apply dijkstra_loop_stops in Hloop as [[Hnot _]|Hlast];
        [done|done|apply not_elem_of_nil].
    - apply aStar_result in H as [->|(endNode & st & p & Hloop & _ & ->)];
        [by intros ?%elem_of_nil|]. simpl.
      apply aStar_loop_stops in Hloop as [[Hnot _]|Hlast];
        [done|done|apply not_elem_of_nil]. }
  split; [done|]. intros Hne. apply Hend.
  destruct H as [H|H].
  - apply dijkstra_result in H as (st & p & Hloop & Hrec & ->).
    simpl in *.
    destruct (dijkstra_loop_route graph startId isEmergency _ _ _ _
                (dijkstra_init_route graph startId isEmergency) Hloop)
      as [[Hg Hinv] Hpost].
    apply (route_path_visited graph startId isEmergency _ _ _ _ _ _ p
             Hinv Hpost Hrec Hne).
    destruct (reconstruct_walk graph isEmergency _ _ startId endId p
                (λ v u H, proj2 (rt_prev _ _ _ _ _ _ _ Hinv v u H)) Hrec Hne)
      as (_ & _ & [pre ->]%last_Some & _).
    apply elem_of_app. right. by left.
  - apply aStar_result in H as [->|(endNode & st & p & Hloop & Hrec & ->)];
      [done|]. simpl in *.
    destruct (aStar_loop_route graph startId isEmergency _ _ _ _ _
                (aStar_init_route graph startId isEmergency endNode) Hloop)
      as [[Hg Hinv] Hpost].
    apply (route_path_visited graph startId isEmergency _ _ _ _ _ _ p
             Hinv Hpost Hrec Hne).
    destruct (reconstruct_walk graph isEmergency _ _ startId endId p
                (λ v u H, proj2 (rt_prev _ _ _ _ _ _ _ Hinv v u H)) Hrec Hne)
      as (_ & _ & [pre ->]%last_Some & _).
    apply elem_of_app. right. by left.
Qed.

Lemma search_stops_at_end_witness :
  ("D" ∈ ["A"; "B"; "D"] → last ["A"; "B"; "D"] = Some "D")
  ∧ (["A"; "B"; "D"] ≠ [] → last ["A"; "B"; "D"] = Some "D").
Proof.
  apply (search_stops_at_end 10 line_graph "A" "D" false
           (mkSearchResult ["A"; "B"; "D"] 20 ["A"; "B"; "D"]) line_graph).
  left. reflexivity.
Defined.

(** ** The queue of [dijkstra] is a heap *)

Lemma ltb_is_num (a b : float) :
  PrimFloat.ltb a b = true → is_num a = true.
Proof. intros H%ltb_leb. by apply leb_num in H as [? _]. Qed.

Lemma dijkstra_relax_heap isEmergency current st edge :
  heap_ok (dj_pq st) →
  heap_ok (dj_pq (dijkstra_relax isEmergency current st edge)).
Proof.
  intros Hok. unfold dijkstra_relax. destruct (_ && _); [done|].
  destruct (PrimFloat.ltb _ _) eqn:Hlt; [|done]. simpl.
  apply enqueue_heap_ok; [done|]. by eapply ltb_is_num.
Qed.

Lemma dijkstra_relax_all_heap isEmergency current es st :
  heap_ok (dj_pq st) →
  heap_ok (dj_pq (fold_left (dijkstra_relax isEmergency current) es st)).
Proof.
  revert st. induction es as [|e es IH]; intros st Hok; simpl; [done|].
  by apply IH, dijkstra_relax_heap.
Qed.

Lemma dijkstra_loop_heap fuel endId isEmergency st st' :
  heap_ok (dj_pq st) →
  dijkstra_loop fuel endId isEmergency st = Some st' →
  heap_ok (dj_pq st').
Proof.
  revert st. induction fuel as [|fuel IH]; intros st Hok; simpl; [done|].
  destruct (dequeue (dj_pq st)) as [[current pq']|] eqn:Hdq;
    [|by intros [= <-]].
  destruct (dequeue_heap_ok _ _ _ Hok Hdq) as [Hok' _].
  destruct (JS.includes _ _); [by apply IH|].
  destruct (String.eqb _ _); [by intros [= <-]|].
  apply IH. by apply dijkstra_relax_all_heap.
Qed.

(** X14: [dijkstra] never puts a priority NaN in its queue, whatever the
    weights of the graph, so its queue is a heap all along: it is one at
    the start, a relaxation keeps it one, and so does the main loop; each
    [dequeue] of the loop returns an id of least priority in the queue. *)
Theorem dijkstra_queue_is_heap (graph : Graph) (startId endId : string)
    (isEmergency : bool) :
  heap_ok (dj_pq (dijkstra_init graph startId))
  ∧ (∀ current st edge,
       heap_ok (dj_pq st) →
       heap_ok (dj_pq (dijkstra_relax isEmergency current st edge)))
  ∧ (∀ fuel st st',
       heap_ok (dj_pq st) →
       dijkstra_loop fuel endId isEmergency st = Some st' →
       heap_ok (dj_pq st'))
  ∧ (∀ st current pq',
       heap_ok (dj_pq st) → dequeue (dj_pq st) = Some (current, pq') →
       ∃ m, m ∈ dj_pq st ∧ value m = current
            ∧ ∀ x, x ∈ dj_pq st →
                PrimFloat.leb (priority m) (priority x) = true).
Proof.
  split; [|split; [|split]].
  - simpl. apply enqueue_heap_ok; [apply heap_ok_nil|done].
  - intros. by apply dijkstra_relax_heap.
  - intros. by eapply dijkstra_loop_heap.
  - intros st current pq' Hok Hdq.
    destruct (dequeue_heap_ok _ _ _ Hok Hdq)
      as (_ & m & Hm & Hv & _ & Hle).
    exists m. split; [|done]. destruct (dj_pq st); [done|].
    injection Hm as ->. by left.
Qed.

(** ** When [bellmanFord] reports no negative cycle *)

Lemma bellmanFord_pass_stable flat st :
  existsb (still_relaxes (bf_distances st)) flat = false →
  bellmanFord_pass flat st = st.
Proof.
  unfold bellmanFord_pass. induction flat as [|e es IH]; simpl; [done|].
  intros [He Hes]%orb_false_elim.
  replace (bellmanFord_relax st e) with st; [by apply IH|].
  unfold bellmanFord_relax. unfold still_relaxes in He. by rewrite He.
Qed.

(** X15: when [bellmanFord] reports no negative cycle, its distances and
    predecessors are final: one more pass over the edges (and so any
    number of passes more) would change none of them. *)
Theorem bellmanFord_no_cycle_stable (fuel : nat) (graph : Graph)
    (startId endId : string) (isEmergency : bool)
    (r : BellmanFordResult) (graph' : Graph) :
  bellmanFord fuel graph startId endId isEmergency = Some (r, graph') →
  hasNegativeCycle r = false →
  let flat := allEdges graph isEmergency in
  let st := bellmanFord_passes flat (bellmanFord_init graph startId) in
  ∀ n, Nat.iter n (bellmanFord_pass flat) st = st.
Proof.
  unfold bellmanFord. cbv zeta.
  change (bf_graph (bellmanFord_init graph startId)) with graph.
  destruct (reconstruct _ _ _ _) as [p|]; [|done]. simpl.
  intros [= <- _]. simpl. intros Hflag n.
  induction n as [|n IH]; simpl; [done|].
  rewrite IH. by apply bellmanFord_pass_stable.
Qed.

Lemma bellmanFord_no_cycle_stable_witness :
  Nat.iter 3 (bellmanFord_pass (allEdges line_graph false))
    (bellmanFord_passes (allEdges line_graph false)
       (bellmanFord_init line_graph "A"))
  = bellmanFord_passes (allEdges line_graph false)
      (bellmanFord_init line_graph "A").
Proof.
  apply (bellmanFord_no_cycle_stable 10 line_graph "A" "D" false
           (mkBellmanFordResult ["A"; "B"; "D"] 20 false) line_graph);
    reflexivity.
Defined.

(** ** The turns a call needs *)

Section Chain.

Variable previous : Map.t (option string).

(** [previous.get(c) || null] *)
Let next (c : string) : option string := JS.or_null (Map.get previous c).

Lemma reconstruct_suffix fuel current acc p :
  reconstruct fuel previous current acc = Some p → ∃ pre, p = pre ++ acc.
Proof.
  revert current acc. induction fuel as [|fuel IH]; intros current acc.
  - destruct current; [done|]. intros [= <-]. by exists [].
  - destruct current as [c|]; [|intros [= <-]; by exists []]. simpl.
    intros [pre ->]%IH. exists (pre ++ [c]). by rewrite <- app_assoc.
Qed.

(** The turns of the loop are the ids it puts on the path. *)
Lemma reconstruct_exact fuel fuel' current acc p :
  reconstruct fuel previous current acc = Some p →
  (length p - length acc ≤ fuel')%nat →
  reconstruct fuel' previous current acc = Some p.
Proof.
  revert fuel' current acc. induction fuel as [|fuel IH];
    intros fuel' current acc.
  - destruct current; [done|]. intros [= <-] _. by destruct fuel'.
  - destruct current as [c|]; [|intros [= <-] _; by destruct fuel'].
    simpl. intros Hrec Hlen.
    destruct (reconstruct_suffix _ _ _ _ Hrec) as [pre Hpre].
    assert (length p = length pre + S (length acc))%nat
      by (by rewrite Hpre, length_app).
    destruct fuel' as [|fuel']; [lia|]. simpl. apply IH; [done|].
    simpl. lia.
Qed.

(** On a path that is rebuilt each id but the first is the one [next]
    answers on the id after it, and [next] answers [null] on the first. *)
Lemma reconstruct_chain fuel current acc p :
  reconstruct fuel previous current acc = Some p →
  (∀ i a b, acc !! i = Some a → acc !! S i = Some b → next b = Some a) →
  (∀ a, head acc = Some a → next a = current) →
  (∀ i a b, p !! i = Some a → p !! S i = Some b → next b = Some a)
  ∧ (∀ a, head p = Some a → next a = None).
Proof.
  revert current acc. induction fuel as [|fuel IH]; intros current acc.
  - destruct current; [done|]. by intros [= <-].
  - destruct current as [c|]; [|by intros [= <-]]. simpl.
    intros Hrec Hacc Hhead. apply (IH _ _ Hrec).
    + intros [|i] a b; simpl.
      * intros [= <-] Hb. apply Hhead. by destruct acc.
      * apply Hacc.
    + by intros a [= <-].
Qed.

Lemma chain_NoDup p :
  (∀ i a b, p !! i = Some a → p !! S i = Some b → next b = Some a) →
  (∀ a, head p = Some a → next a = None) →
  NoDup p.
Proof.
  intros Hchain Hhead. apply NoDup_alt.
  assert (Hz : ∀ j x, p !! 0%nat = Some x → p !! S j = Some x → False).
  { intros j x H0 Hj.
    destruct (lookup_lt_is_Some_2 p j) as [y Hy].
    { apply lookup_lt_Some in Hj. lia. }
    pose proof (Hchain _ _ _ Hy Hj) as Hn.
    rewrite Hhead in Hn by (by rewrite head_lookup). done. }
  intros i. induction i as [|i IH]; intros [|j] x Hi Hj; [done| | |].
  - by destruct (Hz j x).
  - by destruct (Hz i x).
  - f_equal.
    destruct (lookup_lt_is_Some_2 p i) as [y Hy].
    { apply lookup_lt_Some in Hi. lia. }
    destruct (lookup_lt_is_Some_2 p j) as [y' Hy'].
    { apply lookup_lt_Some in Hj. lia. }
    pose proof (Hchain _ _ _ Hy Hi) as H1.
    pose proof (Hchain _ _ _ Hy' Hj) as H2.
    rewrite H1 in H2. injection H2 as <-. by apply (IH j y).
Qed.

(** A path that is rebuilt is no longer than the keys of [previous] allow:
    each of its ids but the first is a key, and none is there twice. *)
Lemma reconstruct_length fuel endId p (universe : list string) :
  (∀ k, k ∈ Map.keys previous → k ∈ universe) →
  reconstruct fuel previous (Some endId) [] = Some p →
  (length p ≤ S (length universe))%nat.
Proof.
  intros Hsub Hrec.
  destruct (reconstruct_chain _ _ _ _ Hrec) as [Hchain Hhead]; [done..|].
  pose proof (chain_NoDup p Hchain Hhead) as Hnd.
  destruct p as [|a p]; [simpl; lia|]. simpl.
  apply NoDup_cons in Hnd as [_ Hnd].
  assert (Hms : p ⊆+ universe).
  { apply NoDup_submseteq; [done|]. intros x [j Hj]%list_elem_of_lookup_1.
    apply Hsub.
    destruct (lookup_lt_is_Some_2 (a :: p) j) as [y Hy].
    { apply lookup_lt_Some in Hj. simpl. lia. }
    pose proof (Hchain j y x Hy Hj) as Hn. unfold next in Hn.
    apply or_null_Some in Hn. by eapply get_Some_keys. }
  apply submseteq_length in Hms. lia.
Qed.

Lemma reconstruct_decided fuel fuel' endId p (universe : list string) :
  (∀ k, k ∈ Map.keys previous → k ∈ universe) →
  (S (length universe) ≤ fuel')%nat →
  reconstruct fuel previous (Some endId) [] = Some p →
  reconstruct fuel' previous (Some endId) [] = Some p.
Proof.
  intros Hsub Hle Hrec. eapply reconstruct_exact; [done|].
  pose proof (reconstruct_length _ _ _ _ Hsub Hrec). simpl. lia.
Qed.

End Chain.

(** X16: a call that returns at all returns within the turns of
    [call_fuel]: what a search answers with any number of turns it answers
    with that many, so that no answer with that many turns stands for a
    call that never returns. *)
Theorem call_fuel_decides (graph : Graph) (startId endId : string)
    (isEmergency : bool) (fuel fuel' : nat) :
  (call_fuel graph startId ≤ fuel)%nat →
  (∀ x, dijkstra fuel' graph startId endId isEmergency = Some x →
        dijkstra fuel graph startId endId isEmergency = Some x)
  ∧ (∀ x, aStar fuel' graph startId endId isEmergency = Some x →
          aStar fuel graph startId endId isEmergency = Some x)
  ∧ (∀ x, bellmanFord fuel' graph startId endId isEmergency = Some x →
          bellmanFord fuel graph startId endId isEmergency = Some x).
Proof.
  intros Hfuel. unfold call_fuel, search_fuel, Map.size in Hfuel.
  assert (Hlen : length (Map.keys (nodes graph)) = length (nodes graph))
    by apply length_map.
  split; [|split]; intros x.
  - unfold dijkstra.
    destruct (dijkstra_loop fuel' _ _ _) as [st|] eqn:Hl; [|done].
    destruct (dijkstra_loop_total graph startId fuel endId isEmergency)
      as (st' & Hst' & _ & Hinv); [unfold search_fuel; lia|].
    assert (st' = st) as ->.
    { destruct (decide (fuel ≤ fuel')%nat) as [Hle|Hgt].
      - pose proof (dijkstra_loop_more _ _ _ _ _ _ Hle Hst'). congruence.
      - assert (fuel' ≤ fuel)%nat as Hle by lia.
        pose proof (dijkstra_loop_more _ _ _ _ _ _ Hle Hl). congruence. }
    rewrite Hst'. simpl.
    destruct (reconstruct fuel' _ _ _) as [p|] eqn:Hp; [|done].
    rewrite (reconstruct_decided _ _ fuel _ p _
               (inv_prev _ _ _ _ _ _ Hinv)) by (done || lia). done.
  - unfold aStar.
    destruct (Map.get _ startId); [|done].
    destruct (Map.get _ endId) as [endNode|]; [|done].
    destruct (aStar_loop fuel' _ _ _ _) as [st|] eqn:Hl; [|done].
    destruct (aStar_loop_total graph startId fuel endNode endId isEmergency)
      as (st' & Hst' & _ & Hinv); [unfold search_fuel; lia|].
    assert (st' = st) as ->.
    { destruct (decide (fuel ≤ fuel')%nat) as [Hle|Hgt].
      - pose proof (aStar_loop_more _ _ _ _ _ _ _ Hle Hst'). congruence.
      - assert (fuel' ≤ fuel)%nat as Hle by lia.
        pose proof (aStar_loop_more _ _ _ _ _ _ _ Hle Hl). congruence. }
    rewrite Hst'. simpl.
    destruct (reconstruct fuel' _ _ _) as [p|] eqn:Hp; [|done].
    rewrite (reconstruct_decided _ _ fuel _ p _
               (inv_prev _ _ _ _ _ _ Hinv)) by (done || lia). done.
  - unfold bellmanFord. cbv zeta.
    destruct (reconstruct fuel' _ _ _) as [p|] eqn:Hp; [|done].
    pose proof (bellmanFord_passes_inv graph
                  (allEdges (bf_graph (bellmanFord_init graph startId))
                     isEmergency) _
                  (bellmanFord_init_inv graph startId)) as [_ _ Hpk _].
    rewrite (reconstruct_decided _ _ fuel _ p _ Hpk) by (done || lia). done.
Qed.

Lemma call_fuel_decides_witness :
  (∀ x, dijkstra 100 negative_cycle_graph "A" "C" false = Some x →
        dijkstra 13 negative_cycle_graph "A" "C" false = Some x)
  ∧ (∀ x, aStar 100 negative_cycle_graph "A" "C" false = Some x →
          aStar 13 negative_cycle_graph "A" "C" false = Some x)
  ∧ (∀ x, bellmanFord 100 negative_cycle_graph "A" "C" false = Some x →
          bellmanFord 13 negative_cycle_graph "A" "C" false = Some x).
Proof.
  apply (call_fuel_decides negative_cycle_graph "A" "C" false 13 100).
  vm_compute. lia.
Defined.

(** ** The selection of the page *)

Lemma handleNodeClick_ok sel nodeId :
  selection_ok sel → selection_ok (handleNodeClick sel nodeId).
Proof.
  intros Hok. unfold handleNodeClick, selection_ok.
  destruct (unset (selectedStart sel)) eqn:Hs.
  - simpl. intros He. destruct (Hok He) as [Hs' _]. congruence.
  - destruct (unset (selectedEnd sel)) eqn:He; simpl.
    + destruct (bool_decide _) eqn:Hd; simpl; [done|].
      apply bool_decide_eq_false in Hd. intros _. split; [done|].
      by intros E.
    + done.
Qed.

Lemma clicks_ok clicks :
  selection_ok (fold_left handleNodeClick clicks initial_selection).
Proof.
  assert (H : ∀ sel, selection_ok sel →
                     selection_ok (fold_left handleNodeClick clicks sel)).
  { induction clicks as [|c clicks IH]; intros sel Hok; simpl; [done|].
    by apply IH, handleNodeClick_ok. }
  apply H. by intros ?.
Qed.

Lemma walk_two_ends (p : list string) (s e : string) :
  head p = Some s → last p = Some e → s ≠ e → (2 ≤ length p)%nat.
Proof.
  destruct p as [|a [|b p]]; simpl; [done| |lia].
  intros [= ->] [= ->]. done.
Qed.

(** X17: whatever nodes are clicked, in whatever order, a result that
    [handleFindPath] hands to [setPathDistance] and [animatePath] is the
    answer to a query between two different nodes, the selected start and
    the selected end: its path leads from the one to the other along
    edges that are not blocked in the graph the search was given, and has
    two ids at least.  (This is the result as it is handed on; what
    [animatePath] then draws of it, id by id, is not modelled.) *)
Theorem handleFindPath_between_two_nodes (clicks : list string) (fuel : nat)
    (graph : Graph) (algorithm : Algorithm) (result : SearchResult) :
  let sel := fold_left handleNodeClick clicks initial_selection in
  handleFindPath fuel graph algorithm sel = Some (find_path result) →
  ∃ startId endId,
    selectedStart sel = Some startId ∧ selectedEnd sel = Some endId
    ∧ startId ≠ endId
    ∧ head (path result) = Some startId ∧ last (path result) = Some endId
    ∧ is_walk graph false (path result) = true
    ∧ (2 ≤ length (path result))%nat.
Proof.
  intros sel. pose proof (clicks_ok clicks) as Hok. fold sel in Hok.
  unfold handleFindPath, selection_ok in *.
  destruct (selectedStart sel) as [s|]; [|done].
  destruct (selectedEnd sel) as [e|]; [|done].
  destruct (unset (Some s)) eqn:Hs; [done|].
  destruct (unset (Some e)) eqn:He; [done|]. simpl.
  destruct (Hok eq_refl) as [_ Hne].
  assert (Hse : s ≠ e) by congruence.
  intros H. exists s, e. split; [done|]. split; [done|]. split; [done|].
  assert (Hwalk : path result ≠ [] →
                  (head (path result) = Some s ∧ last (path result) = Some e
                   ∧ is_walk graph false (path result) = true) →
                  head (path result) = Some s ∧ last (path result) = Some e
                  ∧ is_walk graph false (path result) = true
                  ∧ (2 ≤ length (path result))%nat).
  { intros _ (Hh & Hl & Hw). repeat split; [done..|].
    by eapply walk_two_ends. }
  assert (Hshow : ∀ r, show_result r = find_path result →
                       r = result ∧ path result ≠ []).
  { intros r. unfold show_result. destruct (path r) eqn:E; [done|].
    intros [= <-]. by rewrite E. }
  destruct algorithm.
  - destruct (dijkstra _ _ _ _ _) as [[r g']|] eqn:Hd; [|done].
    simpl in H. injection H as H. apply Hshow in H as [-> Hne'].
    apply Hwalk; [done|].
    destruct (dijkstra_path_walk _ _ _ _ _ _ _ Hd Hne') as (? & ? & ? & _).
    done.
  - destruct (aStar _ _ _ _ _) as [[r g']|] eqn:Hd; [|done].
    simpl in H. injection H as H. apply Hshow in H as [-> Hne'].
    apply Hwalk; [done|].
    destruct (aStar_path_walk _ _ _ _ _ _ _ Hd Hne') as (? & ? & ? & _).
    done.
  - destruct (bellmanFord _ _ _ _ _) as [[r g']|] eqn:Hd; [|done].
    simpl in H. destruct (hasNegativeCycle r); [done|].
    injection H as H. apply Hshow in H as [<- Hne'].
    apply Hwalk; [done|]. simpl in *.
    by apply (bellmanFord_path_walk _ _ _ _ _ _ _ Hd).
Qed.

Lemma handleFindPath_between_two_nodes_witness :
  ∃ startId endId,
    selectedStart
      (fold_left handleNodeClick ["B"; "A"; "A"; "D"] initial_selection)
    = Some startId
    ∧ selectedEnd
        (fold_left handleNodeClick ["B"; "A"; "A"; "D"] initial_selection)
      = Some endId
    ∧ startId ≠ endId
    ∧ head ["A"; "B"; "D"] = Some startId
    ∧ last ["A"; "B"; "D"] = Some endId
    ∧ is_walk line_graph false ["A"; "B"; "D"] = true
    ∧ (2 ≤ length ["A"; "B"; "D"])%nat.
Proof.
  apply (handleFindPath_between_two_nodes ["B"; "A"; "A"; "D"] 10 line_graph
           alg_dijkstra (mkSearchResult ["A"; "B"; "D"] 20 ["A"; "B"; "D"])).
  reflexivity.
Defined.

(** ** Clicks on edges *)

Lemma set_get_id {V : Type} (m : Map.t V) (k : string) (v : V) :
  Map.get m k = Some v → Map.set m k v = m.
Proof.
  induction m as [|[k' v'] m IH]; simpl; [done|].
  destruct (String.eqb k' k); [by intros [= ->]|].
  intros H. by rewrite IH.
Qed.

Lemma set_default_id {V : Type} (m : Map.t (list V)) (k : string) :
  k ∈ Map.keys m → Map.set m k (default [] (Map.get m k)) = m.
Proof.
  intros Hk. destruct (Map.get m k) as [v|] eqn:E.
  - by apply set_get_id.
  - by apply get_None in E.
Qed.

Lemma find_to_alter (f : Edge → Edge) store r to refs :
  (∀ e, edge_to (f e) = edge_to e) →
  find_to (alter f r store) to refs = find_to store to refs.
Proof.
  intros Hf. unfold find_to.
  induction refs as [|r' refs IH]; cbn [List.find]; [done|].
  rewrite IH, list_lookup_alter.
  destruct (decide (r = r')) as [->|Hne]; destruct (store !! r'); simpl;
    by rewrite ?Hf.
Qed.

Lemma find_to_toggle store found to refs :
  find_to (toggle store found) to refs = find_to store to refs.
Proof. destruct found; [|done]. by apply find_to_alter. Qed.

Lemma toggle_edge_twice e : toggle_edge (toggle_edge e) = e.
Proof. destruct e. unfold toggle_edge. simpl. by rewrite negb_involutive. Qed.

Lemma toggle_twice store found : toggle (toggle store found) found = store.
Proof.
  destruct found as [r|]; [|done]. simpl.
  rewrite list_alter_alter_eq. apply list_alter_id. intros e.
  apply toggle_edge_twice.
Qed.

Lemma toggle_commute store a b :
  toggle (toggle store a) b = toggle (toggle store b) a.
Proof.
  destruct a as [r|], b as [r'|]; [|done..]. simpl.
  destruct (decide (r = r')) as [->|Hne]; [done|].
  by apply list_alter_alter_ne.
Qed.

(** X18: a click on an edge is undone by a second one: [handleEdgeClick]
    run twice with the same ends leaves every edge object as it was, and
    the second run leaves the lists of the graph as the first left them;
    when both ends have a list of edges the first run leaves the lists as
    it found them, too. *)
Theorem handleEdgeClick_twice (state : Store * RefGraph) (from to : string) :
  let state' := handleEdgeClick state from to in
  handleEdgeClick state' from to = (fst state, snd state')
  ∧ (from ∈ Map.keys (ref_edges (snd state)) →
     to ∈ Map.keys (ref_edges (snd state)) →
     snd state' = snd state).
Proof.
  destruct state as [store [ns es]]. cbv zeta. split.
  - unfold handleEdgeClick. cbn [fst snd ref_edges ref_nodes].
    set (fromEdges := default [] (Map.get es from)).
    set (toEdges := default [] (Map.get es to)).
    set (es' := Map.set (Map.set es from fromEdges) to toEdges).
    assert (Hto : Map.get es' to = Some toEdges) by apply get_set_eq.
    assert (Hfrom : Map.get es' from = Some fromEdges).
    { unfold es'. rewrite get_set. destruct (decide (to = from)) as [->|Hne].
      - done.
      - apply get_set_eq. }
    rewrite Hto, Hfrom. cbn [default from_option]. unfold id.
    rewrite !find_to_toggle.
    set (a := find_to store to fromEdges).
    set (b := find_to store from toEdges).
    f_equal.
    + rewrite (toggle_commute (toggle store a) b a), toggle_twice.
      apply toggle_twice.
    + f_equal. rewrite (set_get_id es' from) by done.
      by apply set_get_id.
  - unfold handleEdgeClick. cbn [fst snd ref_edges ref_nodes].
    intros Hf Ht. f_equal. rewrite (set_default_id es from) by done.
    by apply set_default_id.
Qed.

(** ** What the page cannot change for an ambulance *)

Lemma dijkstra_emergency_clear fuel graph startId endId :
  fst <$> dijkstra fuel graph startId endId true
  = fst <$> dijkstra fuel (clear_graph graph) startId endId false.
Proof.
  unfold dijkstra.
  change (dijkstra_init (clear_graph graph) startId)
    with (dj_clear (dijkstra_init graph startId)).
  rewrite dijkstra_loop_clear.
  destruct (dijkstra_loop _ _ true _) as [st|]; [|done]. simpl.
  by destruct (reconstruct _ _ _ _).
Qed.

Lemma aStar_emergency_clear fuel graph startId endId :
  fst <$> aStar fuel graph startId endId true
  = fst <$> aStar fuel (clear_graph graph) startId endId false.
Proof.
  unfold aStar. simpl.
  destruct (Map.get _ startId); [|done].
  destruct (Map.get _ endId) as [endNode|]; [|done].
  change (aStar_init (clear_graph graph) endNode startId)
    with (as_clear (aStar_init graph endNode startId)).
  rewrite aStar_loop_clear.
  destruct (aStar_loop _ _ _ true _) as [st|]; [|done]. simpl.
  by destruct (reconstruct _ _ _ _).
Qed.

Lemma bellmanFord_emergency_clear fuel graph startId endId :
  fst <$> bellmanFord fuel graph startId endId true
  = fst <$> bellmanFord fuel (clear_graph graph) startId endId false.
Proof.
  unfold bellmanFord. simpl. rewrite all_edges_clear.
  change (bellmanFord_init (clear_graph graph) startId)
    with (bf_clear (bellmanFord_init graph startId)).
  rewrite bellmanFord_passes_clear. simpl.
  by destruct (reconstruct _ _ _ _).
Qed.

Lemma deref_alter_clear (f : Edge → Edge) store r refs :
  (∀ e, clear_edge (f e) = clear_edge e) →
  map clear_edge (deref (alter f r store) refs)
  = map clear_edge (deref store refs).
Proof.
  intros Hf. unfold deref.
  induction refs as [|r' refs IH]; cbn [omap list_omap]; [done|].
  rewrite list_lookup_alter.
  destruct (decide (r = r')) as [->|Hne]; destruct (store !! r'); simpl;
    by rewrite ?Hf, ?IH.
Qed.

Lemma graph_of_alter_clear (f : Edge → Edge) store r g :
  (∀ e, clear_edge (f e) = clear_edge e) →
  clear_graph (graph_of (alter f r store) g) = clear_graph (graph_of store g).
Proof.
  intros Hf. unfold clear_graph, graph_of. simpl. f_equal.
  induction (ref_edges g) as [|[k refs] es IH]; simpl; [done|].
  by rewrite IH, deref_alter_clear.
Qed.

Lemma graph_of_toggle_clear store found g :
  clear_graph (graph_of (toggle store found) g)
  = clear_graph (graph_of store g).
Proof.
  destruct found as [r|]; [|reflexivity]. unfold toggle.
  apply graph_of_alter_clear. by intros [].
Qed.

Lemma handleEdgeClick_clear state from to :
  from ∈ Map.keys (ref_edges (snd state)) →
  to ∈ Map.keys (ref_edges (snd state)) →
  clear_graph (page_graph (handleEdgeClick state from to))
  = clear_graph (page_graph state).
Proof.
  destruct state as [store [ns es]]. cbn [fst snd ref_edges]. intros Hf Ht.
  unfold page_graph, handleEdgeClick. cbn [fst snd ref_edges ref_nodes].
  rewrite (set_default_id es from) by done.
  rewrite (set_default_id es to) by done.
  by rewrite !graph_of_toggle_clear.
Qed.

Lemma traffic_fold_clear random refs store n g :
  clear_graph
    (graph_of
       (fst (fold_left
               (fun '(store, n) r =>
                  (alter (set_traffic (random n)) r store, S n))
               refs (store, n))) g)
  = clear_graph (graph_of store g).
Proof.
  revert store n. induction refs as [|r refs IH]; intros store n;
    cbn [fold_left]; [done|].
  rewrite IH. apply graph_of_alter_clear. by intros [].
Qed.

Lemma handleSimulateTraffic_clear random state :
  clear_graph (page_graph (handleSimulateTraffic random state))
  = clear_graph (page_graph state).
Proof.
  destruct state as [store [ns es]].
  unfold page_graph, handleSimulateTraffic.
  cbn [fst snd ref_edges ref_nodes]. apply traffic_fold_clear.
Qed.

Lemma emergency_answers_clear fuel graph graph' startId endId :
  clear_graph graph = clear_graph graph' →
  emergency_answers fuel graph startId endId
  = emergency_answers fuel graph' startId endId.
Proof.
  intros H. unfold emergency_answers.
  by rewrite !dijkstra_emergency_clear, !aStar_emergency_clear,
    !bellmanFord_emergency_clear, H.
Qed.

(** X19: neither [handleSimulateTraffic] nor a click on an edge whose ends
    have lists of edges changes what a search answers in emergency mode:
    [dijkstra], [aStar] and [bellmanFord] answer on the graph of the page
    after it what they answer on the graph before it. *)
Theorem page_keeps_emergency_answers (state : Store * RefGraph)
    (fuel : nat) (startId endId : string) :
  (∀ random,
     emergency_answers fuel
       (page_graph (handleSimulateTraffic random state)) startId endId
     = emergency_answers fuel (page_graph state) startId endId)
  ∧ (∀ from to,
       from ∈ Map.keys (ref_edges (snd state)) →
       to ∈ Map.keys (ref_edges (snd state)) →
       emergency_answers fuel
         (page_graph (handleEdgeClick state from to)) startId endId
       = emergency_answers fuel (page_graph state) startId endId).
Proof.
  split.
  - intros random. apply emergency_answers_clear,
      handleSimulateTraffic_clear.
  - intros from to Hf Ht. by apply emergency_answers_clear,
      handleEdgeClick_clear.
Qed.

(** ** The ambulance on the city graph *)

Lemma deref_seq (pre l post : list Edge) :
  deref (pre ++ l ++ post) (seq (length pre) (length l)) = l.
Proof.
  revert pre. induction l as [|e l IH]; intros pre; [done|].
  cbn [length seq]. unfold deref. cbn [omap list_omap].
  change ((e :: l) ++ post) with (e :: (l ++ post)).
  rewrite list_lookup_middle by done. f_equal.
  specialize (IH (pre ++ [e])). rewrite length_app in IH.
  cbn [length] in IH. rewrite Nat.add_1_r, <- app_assoc in IH. exact IH.
Qed.

Lemma alloc_edges_deref (pre : list Edge) (es : Map.t (list Edge)) :
  map (fun '(k, refs) => (k, deref (pre ++ concat (map snd es)) refs))
    (alloc_edges (length pre) es)
  = es.
Proof.
  revert pre. induction es as [|[k l] es IH]; intros pre; [done|].
  cbn [alloc_edges map snd concat]. rewrite deref_seq. f_equal.
  specialize (IH (pre ++ l)). rewrite length_app, <- app_assoc in IH.
  exact IH.
Qed.

(** The graph of the page is the graph it was made from. *)
Lemma page_graph_alloc (g : Graph) : page_graph (alloc g) = g.
Proof.
  destruct g as [ns es]. unfold page_graph, alloc, graph_of.
  cbn [fst snd ref_nodes ref_edges nodes edges]. f_equal.
  apply (alloc_edges_deref []).
Qed.

Lemma keys_graph_of store g :
  Map.keys (edges (graph_of store g)) = Map.keys (ref_edges g).
Proof.
  unfold graph_of, Map.keys. cbn [edges]. rewrite map_map.
  apply map_ext. by intros [k refs].
Qed.

Lemma keys_clear_graph g :
  Map.keys (edges (clear_graph g)) = Map.keys (edges g).
Proof.
  unfold clear_graph, Map.keys. cbn [edges]. rewrite map_map.
  apply map_ext. by intros [k es].
Qed.

Lemma city_clear (random : nat → float) :
  clear_graph (generateCityGraph random) = clear_graph city_graph.
Proof. vm_compute. reflexivity. Qed.

Lemma city_edge_keys :
  Map.keys (edges (clear_graph city_graph)) = map node_id nodeData.
Proof. vm_compute. reflexivity. Qed.

(** Every action on the page leaves the city graph what it is, traffic
    and blocked roads apart. *)
Lemma act_city state a :
  clear_graph (page_graph state) = clear_graph city_graph →
  drawn (map node_id nodeData) a →
  clear_graph (page_graph (act state a)) = clear_graph city_graph.
Proof.
  intros Hinv Ha. destruct a as [from to|random|random]; cbn [act].
  - rewrite handleEdgeClick_clear; [done| |].
    + rewrite <- (keys_graph_of (fst state)), <- keys_clear_graph.
      fold (page_graph state). rewrite Hinv, city_edge_keys. by destruct Ha.
    + rewrite <- (keys_graph_of (fst state)), <- keys_clear_graph.
      fold (page_graph state). rewrite Hinv, city_edge_keys. by destruct Ha.
  - by rewrite handleSimulateTraffic_clear.
  - unfold handleReset. rewrite page_graph_alloc. apply city_clear.
Qed.

Lemma actions_city random actions :
  Forall (drawn (map node_id nodeData)) actions →
  clear_graph (page_graph (fold_left act actions (handleReset random)))
  = clear_graph city_graph.
Proof.
  assert (H : ∀ state,
    clear_graph (page_graph state) = clear_graph city_graph →
    Forall (drawn (map node_id nodeData)) actions →
    clear_graph (page_graph (fold_left act actions state))
    = clear_graph city_graph).
  { induction actions as [|a actions IH]; intros state Hinv Hall; [done|].
    apply Forall_cons in Hall as [Ha Hall]. cbn [fold_left].
    apply IH; [|done]. by apply act_city. }
  apply H. unfold handleReset. rewrite page_graph_alloc. apply city_clear.
Qed.

(** [handleTriggerEmergency] reads the nodes, and of the edges what
    emergency mode reads: weights, whatever the traffic and the blocked
    roads. *)
Lemma handleTriggerEmergency_clear fuel graph graph' pick :
  clear_graph graph = clear_graph graph' →
  handleTriggerEmergency fuel graph pick
  = handleTriggerEmergency fuel graph' pick.
Proof.
  intros H. unfold handleTriggerEmergency. cbv zeta.
  assert (Hn : nodes graph = nodes graph')
    by (by rewrite <- (clear_graph_nodes graph), H).
  rewrite Hn. destruct (List.find _ _) as [hospitalNode|]; [|done].
  destruct (_ !! pick) as [destination|]; [|done].
  pose proof (dijkstra_emergency_clear fuel graph (node_id hospitalNode)
                (node_id destination)) as H1.
  pose proof (dijkstra_emergency_clear fuel graph' (node_id hospitalNode)
                (node_id destination)) as H2.
  rewrite H, <- H2 in H1.
  destruct (dijkstra fuel graph _ _ _) as [[r g]|],
    (dijkstra fuel graph' _ _ _) as [[r' g']|]; simpl in *; try congruence.
  by injection H1 as ->.
Qed.

Lemma handleTriggerEmergency_route fuel graph pick route :
  handleTriggerEmergency fuel graph pick = Some (emergency_route route) →
  ∃ hospitalNode destination,
    List.find
      (fun n => match node_type n with hospital => true | _ => false end)
      (map snd (nodes graph)) = Some hospitalNode
    ∧ List.filter
        (fun n => match node_type n with normal => true | _ => false end)
        (map snd (nodes graph)) !! pick = Some destination
    ∧ head route = Some (node_id hospitalNode)
    ∧ last route = Some (node_id destination)
    ∧ is_walk graph true route = true.
Proof.
  unfold handleTriggerEmergency. cbv zeta.
  destruct (List.find _ _) as [hospitalNode|]; [|done].
  destruct (_ !! pick) as [destination|]; [|done].
  destruct (dijkstra _ _ _ _ _) as [[r g]|] eqn:Hd; [|done]. simpl.
  destruct (path r) as [|first rest] eqn:Hp; [done|]. intros [= <-].
  destruct (dijkstra_path_walk _ _ _ _ _ _ _ Hd) as (Hh & Hl & Hw & _);
    [by rewrite Hp|].
  rewrite Hp in *. by exists hospitalNode, destination.
Qed.

Lemma city_emergency pick :
  (pick < 13)%nat →
  ∃ route, handleTriggerEmergency 200 (clear_graph city_graph) pick
           = Some (emergency_route route).
Proof.
  intros Hpick.
  assert (H : match handleTriggerEmergency 200 (clear_graph city_graph) pick
              with Some (emergency_route _) => true | _ => false end = true).
  { do 13 (destruct pick as [|pick]; [vm_compute; reflexivity|]). lia. }
  destruct (handleTriggerEmergency _ _ _) as [[| |route]|]; try done.
  by exists route.
Qed.

(** X20: on the city graph the ambulance is always sent.  After
    [handleReset] and any clicks on edges the map draws and any runs of
    [handleSimulateTraffic] and [handleReset], in any order,
    [handleTriggerEmergency] answers what it answers on a city graph
    without traffic or blocked roads; for each of the thirteen
    destinations it can pick that is a route, which starts at the
    hospital E, ends at the destination and follows edges of the graph. *)
Theorem city_ambulance_is_sent (random : nat → float)
    (actions : list Action) (pick : nat) :
  Forall (drawn (map node_id nodeData)) actions →
  let graph := page_graph (fold_left act actions (handleReset random)) in
  handleTriggerEmergency 200 graph pick
  = handleTriggerEmergency 200 (clear_graph city_graph) pick
  ∧ ((pick < 13)%nat →
     ∃ destination route,
       city_destinations !! pick = Some destination
       ∧ handleTriggerEmergency 200 graph pick
         = Some (emergency_route route)
       ∧ head route = Some "E"
       ∧ last route = Some (node_id destination)
       ∧ is_walk graph true route = true).
Proof.
  intros Hall graph.
  pose proof (actions_city random actions Hall) as Hinv. fold graph in Hinv.
  clearbody graph.
  assert (Hsame : handleTriggerEmergency 200 graph pick
                  = handleTriggerEmergency 200 (clear_graph city_graph) pick).
  { apply handleTriggerEmergency_clear. rewrite Hinv.
    vm_compute. reflexivity. }
  split; [done|]. intros Hpick.
  destruct (city_emergency pick Hpick) as [route Hroute].
  rewrite <- Hsame in Hroute.
  destruct (handleTriggerEmergency_route _ _ _ _ Hroute)
    as (hospitalNode & destination & Hh & Hd & Hhead & Hlast & Hw).
  assert (Hn : nodes graph = nodes city_graph)
    by (by rewrite <- (clear_graph_nodes graph), Hinv).
  rewrite Hn in Hh, Hd.
  assert (Hdest : List.filter
            (fun n => match node_type n with normal => true | _ => false end)
            (map snd (nodes city_graph)) = city_destinations)
    by (vm_compute; reflexivity).
  rewrite Hdest in Hd.
  assert (Hhosp : List.find
            (fun n => match node_type n with hospital => true | _ => false end)
            (map snd (nodes city_graph))
            = Some (mkNode "E" 80 180 "Hospital" hospital))
    by (vm_compute; reflexivity).
  rewrite Hhosp in Hh. injection Hh as <-.
  exists destination, route. split; [exact Hd|]. split; [exact Hroute|].
  split; [exact Hhead|]. split; [exact Hlast|exact Hw].
Qed.


Lemma city_ambulance_is_sent_witness :
  let graph :=
    page_graph
      (fold_left act
         [EdgeClick "E" "F"; SimulateTraffic (fun _ => 1%float);
          EdgeClick "E" "J"; EdgeClick "A" "E"; EdgeClick "E" "I"]
         (handleReset (fun _ => 0.5%float))) in
  handleTriggerEmergency 200 graph 4
  = handleTriggerEmergency 200 (clear_graph city_graph) 4
  ∧ ((4 < 13)%nat →
     ∃ destination route,
       city_destinations !! 4%nat = Some destination
       ∧ handleTriggerEmergency 200 graph 4
         = Some (emergency_route route)
       ∧ head route = Some "E"
       ∧ last route = Some (node_id destination)
       ∧ is_walk graph true route = true).
Proof.
  apply (city_ambulance_is_sent (fun _ => 0.5%float)
           [EdgeClick "E" "F"; SimulateTraffic (fun _ => 1%float);
            EdgeClick "E" "J"; EdgeClick "A" "E"; EdgeClick "E" "I"] 4).
  cbv [drawn map node_id nodeData]. repeat constructor.
Defined.
